(** * Hiragana Dojo: vocabulary analysis, suggestion selection, usage
      tracking, answer normalisation and the prefetch pipeline.

    A shallow embedding of the TypeScript sources (App.tsx,
    PracticeScreen.tsx, WritingPracticeScreen.tsx, VisualQuizScreen.tsx).

    Conventions.
    - A JavaScript string is the list of its UTF-16 code units, each a [Z].
    - An object used as a record from words to numbers ([WordStats],
      [Record<string, number>]) is the finite map of its own properties,
      read and written as a plain object is: a read falls back on
      [Object.prototype], a write under [__proto__] is dropped. Totals are
      doubles; the counts of a scan are whole numbers.
    - A JavaScript [Set] that is turned back into an array is an
      insertion-ordered list without repetitions.
    - [Math.random] is a stream of rationals read through a cursor.
    - A promise is a request identifier with a status in a request table. *)

From Stdlib Require Import ZArith QArith Lia.
From stdpp Require Import base option list sorting gmap.

Local Open Scope Z_scope.

(** ** Part I. The embedding *)

Abbreviation jsstring := (list Z) (only parsing).

(** *** The JavaScript runtime functions the sources call *)

Module Js.

(** [WhiteSpace] and [LineTerminator] code units: what the regular
    expression class [\s] matches and what [String.prototype.trim] strips. *)
Definition isWhiteSpace (c : Z) : bool :=
  (c =? 0x09) || (c =? 0x0A) || (c =? 0x0B) || (c =? 0x0C) || (c =? 0x0D)
  || (c =? 0x20) || (c =? 0xA0) || (c =? 0x1680)
  || ((0x2000 <=? c) && (c <=? 0x200A))
  || (c =? 0x2028) || (c =? 0x2029) || (c =? 0x202F) || (c =? 0x205F)
  || (c =? 0x3000) || (c =? 0xFEFF).

Fixpoint dropWhile (p : Z -> bool) (s : jsstring) : jsstring :=
  match s with
  | [] => []
  | c :: rest => if p c then dropWhile p rest else s
  end.

Definition trimStart (s : jsstring) : jsstring := dropWhile isWhiteSpace s.
Definition trimEnd (s : jsstring) : jsstring :=
  rev (dropWhile isWhiteSpace (rev s)).

(** [s.trim()] *)
Definition trim (s : jsstring) : jsstring := trimEnd (trimStart s).

(** [s.split(/[cls]+/)] for a character class [cls]: the pieces between the
    maximal runs of separators. A separator at the very start or the very
    end leaves an empty piece there; the empty string gives one empty
    piece. [inRun] tells that the previous code unit was a separator. *)
Fixpoint splitLoop (cls : Z -> bool) (inRun : bool) (piece s : jsstring)
  : list jsstring :=
  match s with
  | [] => [piece]
  | c :: rest =>
      if cls c then
        if inRun then splitLoop cls true piece rest
        else piece :: splitLoop cls true [] rest
      else splitLoop cls false (piece ++ [c]) rest
  end.

Definition split (cls : Z -> bool) (s : jsstring) : list jsstring :=
  splitLoop cls false [] s.

(** [s.replace(/[cls]/g, '')]: every code unit of the class is removed. *)
Definition replaceAllWithEmpty (cls : Z -> bool) (s : jsstring) : jsstring :=
  List.filter (fun c => negb (cls c)) s.

(** [set.add(x)] on an insertion-ordered set. *)
Definition Set_add (x : jsstring) (s : list jsstring) : list jsstring :=
  if decide (x ∈ s) then s else s ++ [x].

(** [Array.from(new Set(xs))] *)
Definition Set_from (xs : list jsstring) : list jsstring :=
  fold_left (fun s x => Set_add x s) xs [].

Definition isHighSurrogate (c : Z) : bool := (0xD800 <=? c) && (c <=? 0xDBFF).
Definition isLowSurrogate (c : Z) : bool := (0xDC00 <=? c) && (c <=? 0xDFFF).

(** [for (const char of s)]: iteration by code point. A high surrogate
    followed by a low surrogate is one two-unit string; any other code unit
    is a string of its own. *)
Fixpoint codePoints (s : jsstring) : list jsstring :=
  match s with
  | [] => []
  | c :: rest =>
      match rest with
      | d :: rest' =>
          if isHighSurrogate c && isLowSurrogate d
          then [c; d] :: codePoints rest'
          else [c] :: codePoints rest
      | [] => [[c]]
      end
  end.

(** [re.test(s)] / truthiness of [s.match(re)] for a one-character class
    without the [u] flag: some code unit of [s] is in the class. *)
Definition matchesClass (cls : Z -> bool) (s : jsstring) : bool :=
  existsb cls s.

(** [word] occurs at the very start of [s]. *)
Fixpoint startsWith (word s : jsstring) : bool :=
  match word, s with
  | [], _ => true
  | _ :: _, [] => false
  | a :: word', b :: s' => (a =? b) && startsWith word' s'
  end.

(** The search of [indexOf] over the suffix [s] that starts at offset [k]:
    the first offset at which [word] occurs, or [-1]. *)
Fixpoint searchFrom (word s : jsstring) (k : Z) : Z :=
  if startsWith word s then k
  else match s with
       | [] => -1
       | _ :: s' => searchFrom word s' (k + 1)
       end.

(** [text.indexOf(word, position)]; the position is clamped into
    [0 .. text.length]. *)
Definition indexOf (text word : jsstring) (position : Z) : Z :=
  let start := Z.min (Z.max position 0) (Z.of_nat (length text)) in
  searchFrom word (drop (Z.to_nat start) text) start.

(** **** Numbers

    A Number is an IEEE 754 double. Every finite double is a whole
    multiple of 2^-1074, so a finite double is kept as that multiple: the
    double 1 is [Finite (2 ^ 1074)]. The two zeros are not told apart; the
    sources never divide by a total and never print the sign of a zero. *)

Inductive number :=
| Finite (n : Z)
| NaN
| Infinity (negative : bool).

(** The double 1, in units of 2^-1074. *)
Definition one : Z := 2 ^ 1074.

(** The double nearest to the exact value [m] (in units of 2^-1074): at
    most 53 significant bits are kept, a tie goes to the even neighbour,
    and a magnitude of 2^1024 or more is an infinity. *)
Definition round (m : Z) : number :=
  let a := Z.abs m in
  let k := Z.log2 a + 1 - 53 in
  if k <=? 0 then Finite m
  else
    let q := a / 2 ^ k in
    let r := a mod 2 ^ k in
    let half := 2 ^ (k - 1) in
    let q' := if (half <? r) || ((r =? half) && Z.odd q) then q + 1 else q in
    let a' := q' * 2 ^ k in
    if 2 ^ 2098 <=? a' then Infinity (m <? 0) else Finite (Z.sgn m * a').

(** The Number of a whole number, as [count++] and the literals make it. *)
Definition ofZ (z : Z) : number := round (z * one).

(** [x + y] on Numbers *)
Definition add (x y : number) : number :=
  match x, y with
  | NaN, _ | _, NaN => NaN
  | Infinity a, Infinity b => if Bool.eqb a b then Infinity a else NaN
  | Infinity a, Finite _ | Finite _, Infinity a => Infinity a
  | Finite a, Finite b => round (a + b)
  end.

Definition negate (x : number) : number :=
  match x with
  | Finite a => Finite (- a)
  | NaN => NaN
  | Infinity a => Infinity (negb a)
  end.

(** [x - y] on Numbers *)
Definition sub (x y : number) : number := add x (negate y).

(** Whole numbers in decimal, as [ToString] writes a Number that is whole
    and below 10^21 in absolute value. *)
Fixpoint decimalUnits (d : Decimal.uint) : jsstring :=
  match d with
  | Decimal.Nil => []
  | Decimal.D0 d' => 0x30 :: decimalUnits d'
  | Decimal.D1 d' => 0x31 :: decimalUnits d'
  | Decimal.D2 d' => 0x32 :: decimalUnits d'
  | Decimal.D3 d' => 0x33 :: decimalUnits d'
  | Decimal.D4 d' => 0x34 :: decimalUnits d'
  | Decimal.D5 d' => 0x35 :: decimalUnits d'
  | Decimal.D6 d' => 0x36 :: decimalUnits d'
  | Decimal.D7 d' => 0x37 :: decimalUnits d'
  | Decimal.D8 d' => 0x38 :: decimalUnits d'
  | Decimal.D9 d' => 0x39 :: decimalUnits d'
  end.

Definition wholeToString (z : Z) : jsstring :=
  match Z.to_int z with
  | Decimal.Pos d => decimalUnits d
  | Decimal.Neg d => 0x2D :: decimalUnits d
  end.

(** **** Objects used as records

    The statistics and the counts of a scan are plain objects: their
    prototype is [Object.prototype]. A read finds an own property, or else
    what [Object.prototype] has under that name; a write makes or changes
    an own property, except under the name [__proto__]. *)

(** The text [__proto__]. *)
Definition proto : jsstring :=
  [0x5F; 0x5F; 0x70; 0x72; 0x6F; 0x74; 0x6F; 0x5F; 0x5F].

(** The text [constructor]. *)
Definition constructor : jsstring :=
  [0x63; 0x6F; 0x6E; 0x73; 0x74; 0x72; 0x75; 0x63; 0x74; 0x6F; 0x72].

(** The names of the methods of [Object.prototype]: [__defineGetter__],
    [__defineSetter__], [hasOwnProperty], [__lookupGetter__],
    [__lookupSetter__], [isPrototypeOf], [propertyIsEnumerable],
    [toString], [valueOf], [toLocaleString]. *)
Definition methodNames : list jsstring :=
  [ [0x5F; 0x5F; 0x64; 0x65; 0x66; 0x69; 0x6E; 0x65; 0x47; 0x65; 0x74; 0x74;
     0x65; 0x72; 0x5F; 0x5F];
    [0x5F; 0x5F; 0x64; 0x65; 0x66; 0x69; 0x6E; 0x65; 0x53; 0x65; 0x74; 0x74;
     0x65; 0x72; 0x5F; 0x5F];
    [0x68; 0x61; 0x73; 0x4F; 0x77; 0x6E; 0x50; 0x72; 0x6F; 0x70; 0x65; 0x72;
     0x74; 0x79];
    [0x5F; 0x5F; 0x6C; 0x6F; 0x6F; 0x6B; 0x75; 0x70; 0x47; 0x65; 0x74; 0x74;
     0x65; 0x72; 0x5F; 0x5F];
    [0x5F; 0x5F; 0x6C; 0x6F; 0x6F; 0x6B; 0x75; 0x70; 0x53; 0x65; 0x74; 0x74;
     0x65; 0x72; 0x5F; 0x5F];
    [0x69; 0x73; 0x50; 0x72; 0x6F; 0x74; 0x6F; 0x74; 0x79; 0x70; 0x65; 0x4F;
     0x66];
    [0x70; 0x72; 0x6F; 0x70; 0x65; 0x72; 0x74; 0x79; 0x49; 0x73; 0x45; 0x6E;
     0x75; 0x6D; 0x65; 0x72; 0x61; 0x62; 0x6C; 0x65];
    [0x74; 0x6F; 0x53; 0x74; 0x72; 0x69; 0x6E; 0x67];
    [0x76; 0x61; 0x6C; 0x75; 0x65; 0x4F; 0x66];
    [0x74; 0x6F; 0x4C; 0x6F; 0x63; 0x61; 0x6C; 0x65; 0x53; 0x74; 0x72; 0x69;
     0x6E; 0x67] ].

(** What a name of [Object.prototype] holds: the prototype object itself
    (under [__proto__]) or a built-in function, known by the name it is
    stored under ([constructor] holds the function [Object]). *)
Inductive builtin :=
| ObjectPrototype
| Function (property : jsstring).

(** The values stored in a statistics object. A [Text b suffix] is the
    string that [ToString] makes of the built-in [b], followed by
    [suffix]. Starting from Numbers these are the only strings the
    updater can make: it concatenates only when it has read a built-in or
    such a string. The text of a built-in is not empty and is no numeric
    literal, and the texts of two built-ins differ before either ends, so
    truthiness, [ToNumber] and [===] do not depend on the wording of the
    text, which for a function is the implementation's. *)
Inductive primitive :=
| Number (x : number)
| Text (b : builtin) (suffix : jsstring).

Inductive value :=
| Undefined
| Primitive (p : primitive)
| Object (b : builtin).

#[global] Instance number_eq_dec : EqDecision number.
Proof. solve_decision. Defined.

#[global] Instance builtin_eq_dec : EqDecision builtin.
Proof. solve_decision. Defined.

#[global] Instance primitive_eq_dec : EqDecision primitive.
Proof. solve_decision. Defined.

#[global] Instance value_eq_dec : EqDecision value.
Proof. solve_decision. Defined.

(** The properties of [Object.prototype]. *)
Definition inherited (k : jsstring) : option builtin :=
  if decide (k = proto) then Some ObjectPrototype
  else if decide (k = constructor) then Some (Function k)
  else if decide (k ∈ methodNames) then Some (Function k)
  else None.

(** [o[k]] *)
Definition get (o : gmap jsstring primitive) (k : jsstring) : value :=
  match o !! k with
  | Some p => Primitive p
  | None =>
      match inherited k with
      | Some b => Object b
      | None => Undefined
      end
  end.

(** [o[k] = v] for a Number or a string [v]. Under [__proto__] an object
    without such an own property reaches the setter of [Object.prototype],
    which ignores a value that is neither an object nor [null]. An own
    property [__proto__] exists only where [JSON.parse] or a computed key
    has made one. *)
Definition assign {A : Type} (k : jsstring) (v : A) (o : gmap jsstring A)
  : gmap jsstring A :=
  if decide (k = proto) then
    match o !! k with
    | Some _ => <[k := v]> o
    | None => o
    end
  else <[k := v]> o.

(** [ToBoolean] *)
Definition truthy (v : value) : bool :=
  match v with
  | Undefined => false
  | Primitive (Number (Finite n)) => negb (n =? 0)
  | Primitive (Number NaN) => false
  | Primitive (Number (Infinity _)) => true
  | Primitive (Text _ _) => true
  | Object _ => true
  end.

(** [v || 0] *)
Definition orZero (v : value) : value :=
  if truthy v then v else Primitive (Number (Finite 0)).

(** [ToNumber] *)
Definition ToNumber (v : value) : number :=
  match v with
  | Primitive (Number x) => x
  | _ => NaN
  end.

(** [a - b] *)
Definition minus (a b : value) : number := sub (ToNumber a) (ToNumber b).

(** [a === b] *)
Definition strictEquals (a b : value) : bool :=
  match a, b with
  | Primitive (Number NaN), _ | _, Primitive (Number NaN) => false
  | _, _ => bool_decide (a = b)
  end.

(** [v + count] for a whole [count]: the sum of two Numbers, or else the
    string of [v] followed by the digits of [count]. The counts that the
    screens hand over are positions in a text or the literal 3, far below
    10^21. *)
Definition plus (v : value) (count : Z) : primitive :=
  match v with
  | Primitive (Number x) => Number (add x (ofZ count))
  | Primitive (Text b suffix) => Text b (suffix ++ wholeToString count)
  | Object b => Text b (wholeToString count)
  | Undefined => Number NaN
  end.

End Js.

(** *** types.ts *)

Record AnalyzedVocabulary := {
  validHiraganaWords : list jsstring;
  learningWords : list jsstring;
  allowedCharacters : list jsstring
}.

(** [Record<string, number>] as the statistics are at run time: the own
    properties of a plain object. *)
Abbreviation WordStats := (gmap (list Z) Js.primitive) (only parsing).

(** *** App.tsx: handleStartPractice *)

Module App.

(** The class in [/[\s\n]+/]. *)
Definition reSpaceOrNewline (c : Z) : bool := Js.isWhiteSpace c || (c =? 0x0A).

(** The class in [/[\u3040-\u309F]/]. *)
Definition reHiragana (c : Z) : bool := (0x3040 <=? c) && (c <=? 0x309F).

Definition parseWords (text : jsstring) : list jsstring :=
  Js.Set_from
    (List.filter (fun w => 0 <? Z.of_nat (length w))
       (Js.split reSpaceOrNewline (Js.trim text))).

(** The two nested loops that fill [chars]. *)
Definition collectChars (allValidWords : list jsstring) : list jsstring :=
  fold_left
    (fun chars w =>
       fold_left
         (fun chars char =>
            if Js.matchesClass reHiragana char then Js.Set_add char chars
            else chars)
         (Js.codePoints w) chars)
    allValidWords [].

Definition handleStartPractice (knownWords learningWords : jsstring)
  : AnalyzedVocabulary :=
  let validKnown := parseWords knownWords in
  let validLearning := parseWords learningWords in
  let allValidWords := Js.Set_from (validKnown ++ validLearning) in
  let chars := collectChars allValidWords in
  {| validHiraganaWords := allValidWords;
     learningWords := validLearning;
     allowedCharacters := chars |}.

(** [createStatsUpdater(setter)(wordCounts)]: the function handed to the
    state setter, from the previous statistics to the new ones. *)
Definition createStatsUpdater (wordCounts : gmap (list Z) Z)
  (prevStats : WordStats) : WordStats :=
  map_fold
    (fun word count newStats =>
       Js.assign word (Js.plus (Js.orZero (Js.get newStats word)) count)
         newStats)
    prevStats wordCounts.

(** A statement either completes with a value or throws. *)
Inductive completion (A : Type) : Type :=
| Normal (a : A)
| Throw.
Arguments Normal {A} a.
Arguments Throw {A}.

(** [try { body } catch (e) { }] around a state update: a throw leaves the
    state as it was. *)
Definition tryCatchIgnore {A : Type} (body : completion A) (unchanged : A)
  : completion A :=
  match body with
  | Normal a => Normal a
  | Throw => Normal unchanged
  end.

Inductive AppState := CONFIG | INPUT_WORDS | PRACTICE.

(** The fixed [localStorage] keys. *)
Inductive StorageKey :=
| hiragana_dojo_api_key
| hiragana_practice_known_words
| hiragana_practice_learning_words
| hiragana_practice_words
| hiragana_practice_reading_stats
| hiragana_practice_writing_stats
| hiragana_practice_visual_stats.

(** [localStorage.getItem]: [None] is [null]. *)
Definition Storage := StorageKey -> option jsstring.

(** A nullable string used as a condition. *)
Definition truthy (v : option jsstring) : bool :=
  match v with
  | Some (_ :: _) => true
  | _ => false
  end.

Record AppData := {
  view : AppState;
  apiKey : option jsstring;
  knownWords : jsstring;
  learningWordsText : jsstring;
  readingStats : WordStats;
  writingStats : WordStats;
  visualStats : WordStats;
  isInitialized : bool
}.

(** The state after the [useState] initialisers. *)
Definition initialAppData : AppData :=
  {| view := INPUT_WORDS; apiKey := None; knownWords := [];
     learningWordsText := []; readingStats := ∅; writingStats := ∅;
     visualStats := ∅; isInitialized := false |}.

(** [if (saved) { try { setStats(JSON.parse(saved)); } catch (e) { } }] *)
Definition loadStats (JSON_parse : jsstring -> completion WordStats)
  (saved : option jsstring) (current : WordStats) : completion WordStats :=
  if truthy saved then
    tryCatchIgnore (JSON_parse (default [] saved)) current
  else Normal current.

(** The initialisation effect. [JSON_parse] is the runtime's parser, which
    throws on text that is not JSON; [envKey] is [process.env.API_KEY]. *)
Definition initialization
  (JSON_parse : jsstring -> completion WordStats)
  (envKey : option jsstring) (localStorage : Storage) (st : AppData)
  : completion AppData :=
  let storedKey := localStorage hiragana_dojo_api_key in
  let '(apiKey1, view1) :=
    if truthy envKey then (envKey, view st)
    else if truthy storedKey then (storedKey, view st)
    else (apiKey st, CONFIG) in
  let savedKnown := localStorage hiragana_practice_known_words in
  let savedLearning := localStorage hiragana_practice_learning_words in
  let legacyWords := localStorage hiragana_practice_words in
  let known1 :=
    match savedKnown with
    | Some k => k
    | None => if truthy legacyWords then default [] legacyWords
              else knownWords st
    end in
  let learning1 := default (learningWordsText st) savedLearning in
  match loadStats JSON_parse (localStorage hiragana_practice_reading_stats)
          (readingStats st) with
  | Throw => Throw
  | Normal reading1 =>
  match loadStats JSON_parse (localStorage hiragana_practice_writing_stats)
          (writingStats st) with
  | Throw => Throw
  | Normal writing1 =>
  match loadStats JSON_parse (localStorage hiragana_practice_visual_stats)
          (visualStats st) with
  | Throw => Throw
  | Normal visual1 =>
      Normal {| view := view1; apiKey := apiKey1; knownWords := known1;
                learningWordsText := learning1; readingStats := reading1;
                writingStats := writing1; visualStats := visual1;
                isInitialized := true |}
  end end end.

End App.

(** [Math.random()]: the next rational of the stream. *)
Record Rng := { stream : nat -> Q; cursor : nat }.

Module JsArray.

Definition Math_random (g : Rng) : Q * Rng :=
  (stream g (cursor g), {| stream := stream g; cursor := S (cursor g) |}).

(** A comparator that may draw random numbers. Its result is given as
    the sort reads it, see [sortCompare] below. *)
Definition comparator := jsstring -> jsstring -> Rng -> Q * Rng.

(** [Array.prototype.sort(cmp)], as an insertion sort: each element in turn
    is placed into the already sorted prefix, in front of the first element
    [y] for which [cmp(x, y) < 0]. With a comparator that is not consistent
    ECMAScript leaves the resulting order to the implementation; every
    statement below is for an arbitrary random stream. *)
Fixpoint insertInto (cmp : comparator) (x : jsstring) (sorted : list jsstring)
  (g : Rng) : list jsstring * Rng :=
  match sorted with
  | [] => ([x], g)
  | y :: rest =>
      let (order, g1) := cmp x y g in
      if negb (Qle_bool 0 order) then (x :: y :: rest, g1)
      else let (placed, g2) := insertInto cmp x rest g1 in (y :: placed, g2)
  end.

Definition sort (cmp : comparator) (xs : list jsstring) (g : Rng)
  : list jsstring * Rng :=
  fold_left (fun acc x => insertInto cmp x (fst acc) (snd acc)) xs ([], g).

(** What the sort makes of a comparator's result: [NaN] counts as [+0],
    and only the sign matters, so a finite result is kept in its units of
    2^-1074 and an infinite one as 1 or -1. *)
Definition sortCompare (v : Js.number) : Q :=
  match v with
  | Js.Finite n => inject_Z n
  | Js.NaN => 0%Q
  | Js.Infinity negative => if negative then (-1)%Q else 1%Q
  end.

(** A relative index of [slice], clamped into [0 .. len]. *)
Definition relativeIndex (len k : Z) : Z :=
  if k <? 0 then Z.max (len + k) 0 else Z.min k len.

(** [xs.slice(start, end)] *)
Definition slice (xs : list jsstring) (start stop : Z) : list jsstring :=
  let len := Z.of_nat (length xs) in
  let from := relativeIndex len start in
  let to := relativeIndex len stop in
  take (Z.to_nat (to - from)) (drop (Z.to_nat from) xs).

End JsArray.

(** *** PracticeScreen.tsx (the same two helpers are repeated in
        WritingPracticeScreen.tsx and VisualQuizScreen.tsx) *)

Module PracticeScreen.

(** [wordStats[w] || 0] *)
Definition usage (wordStats : WordStats) (w : jsstring) : Js.value :=
  Js.orZero (Js.get wordStats w).

Definition sortByUsage (wordStats : WordStats) : JsArray.comparator :=
  fun a b g =>
    let countA := usage wordStats a in
    let countB := usage wordStats b in
    if Js.strictEquals countA countB then
      let (r, g') := JsArray.Math_random g in ((r - (1 # 2))%Q, g')
    else (JsArray.sortCompare (Js.minus countA countB), g).

Definition knownPool (vocabulary : AnalyzedVocabulary) : list jsstring :=
  filter (fun w => w ∉ learningWords vocabulary)
    (validHiraganaWords vocabulary).

Definition getSuggestedWords (vocabulary : AnalyzedVocabulary)
  (wordStats : WordStats) (g : Rng) : list jsstring * Rng :=
  let learningPool := learningWords vocabulary in
  let (sortedLearning, g1) :=
    JsArray.sort (sortByUsage wordStats) learningPool g in
  let (sortedKnown, g2) :=
    JsArray.sort (sortByUsage wordStats) (knownPool vocabulary) g1 in
  let learningCount := Z.min 3 (Z.of_nat (length sortedLearning)) in
  let selectedLearning := JsArray.slice sortedLearning 0 learningCount in
  let needed := 5 - Z.of_nat (length selectedLearning) in
  let selectedKnown := JsArray.slice sortedKnown 0 (Z.max 0 needed) in
  (selectedLearning ++ selectedKnown, g2).

(** The [while (pos !== -1)] loop of [countUsedWords]. The loop need not
    end (it does not for the empty word), so it runs on fuel: [None] is a
    loop that is still running when the fuel is spent. *)
Fixpoint countLoop (fuel : nat) (text word : jsstring) (pos count : Z)
  : option Z :=
  match fuel with
  | O => None
  | S fuel' =>
      if negb (pos =? -1) then
        countLoop fuel' text word (Js.indexOf text word (pos + 1)) (count + 1)
      else Some count
  end.

(** The body of the [forEach] for one word. *)
Definition countWord (fuel : nat) (text word : jsstring)
  (counts : gmap (list Z) Z) : option (gmap (list Z) Z) :=
  count ← countLoop fuel text word (Js.indexOf text word 0) 0;
  Some (if 0 <? count then Js.assign word count counts else counts).

Definition countUsedWords (fuel : nat) (vocabulary : AnalyzedVocabulary)
  (text : jsstring) : option (gmap (list Z) Z) :=
  fold_left (fun acc word => counts ← acc; countWord fuel text word counts)
    (validHiraganaWords vocabulary) (Some ∅).

(** [processNewSentence], as far as the statistics go: the mode's totals
    after the sentence [hiragana] has been put on screen. *)
Definition processNewSentence (fuel : nat) (vocabulary : AnalyzedVocabulary)
  (hiragana : jsstring) (readingStats : WordStats) : option WordStats :=
  usedCounts ← countUsedWords fuel vocabulary hiragana;
  Some (App.createStatsUpdater usedCounts readingStats).

(** **** The prefetch pipeline

    Every call of [generateSentence] is a request; a promise is the
    request's index in the table. The payload of a request is left out. *)

Inductive Status := Pending | Fulfilled | Rejected.

(** Where [generateSentence] was called: in [init] or in
    [queueNextSentence]. *)
Inductive CallSite := InitialLoad | Queue.

Record Request := { site : CallSite; status : Status }.

(** An [async] function stopped at its [await], with the awaited request. *)
Inductive Suspended :=
| AwaitInit (id : nat)
| AwaitNext (id : nat).

(** What the screen did, oldest first: [processNewSentence] called by
    [init] or by [handleNextSentence], or [setError] called by either. *)
Inductive Outcome := Loaded | LoadFailed | Advanced | AdvanceFailed.

Record Screen := {
  mountedRef : bool;
  isInitialLoading : bool;
  isTransitioning : bool;
  error : bool;
  bufferPromiseRef : option nat;
  requests : list Request;
  suspended : list Suspended;
  history : list Outcome
}.

(** The component before its first effect runs. *)
Definition initialScreen : Screen :=
  {| mountedRef := false; isInitialLoading := true; isTransitioning := false;
     error := false; bufferPromiseRef := None; requests := [];
     suspended := []; history := [] |}.

Definition setMounted (b : bool) (s : Screen) : Screen :=
  {| mountedRef := b; isInitialLoading := isInitialLoading s;
     isTransitioning := isTransitioning s; error := error s;
     bufferPromiseRef := bufferPromiseRef s; requests := requests s;
     suspended := suspended s; history := history s |}.

Definition setIsInitialLoading (b : bool) (s : Screen) : Screen :=
  {| mountedRef := mountedRef s; isInitialLoading := b;
     isTransitioning := isTransitioning s; error := error s;
     bufferPromiseRef := bufferPromiseRef s; requests := requests s;
     suspended := suspended s; history := history s |}.

Definition setIsTransitioning (b : bool) (s : Screen) : Screen :=
  {| mountedRef := mountedRef s; isInitialLoading := isInitialLoading s;
     isTransitioning := b; error := error s;
     bufferPromiseRef := bufferPromiseRef s; requests := requests s;
     suspended := suspended s; history := history s |}.

Definition setError (b : bool) (s : Screen) : Screen :=
  {| mountedRef := mountedRef s; isInitialLoading := isInitialLoading s;
     isTransitioning := isTransitioning s; error := b;
     bufferPromiseRef := bufferPromiseRef s; requests := requests s;
     suspended := suspended s; history := history s |}.

Definition setBuffer (p : option nat) (s : Screen) : Screen :=
  {| mountedRef := mountedRef s; isInitialLoading := isInitialLoading s;
     isTransitioning := isTransitioning s; error := error s;
     bufferPromiseRef := p; requests := requests s;
     suspended := suspended s; history := history s |}.

Definition setRequests (rs : list Request) (s : Screen) : Screen :=
  {| mountedRef := mountedRef s; isInitialLoading := isInitialLoading s;
     isTransitioning := isTransitioning s; error := error s;
     bufferPromiseRef := bufferPromiseRef s; requests := rs;
     suspended := suspended s; history := history s |}.

Definition setSuspended (ks : list Suspended) (s : Screen) : Screen :=
  {| mountedRef := mountedRef s; isInitialLoading := isInitialLoading s;
     isTransitioning := isTransitioning s; error := error s;
     bufferPromiseRef := bufferPromiseRef s; requests := requests s;
     suspended := ks; history := history s |}.

Definition record (o : Outcome) (s : Screen) : Screen :=
  {| mountedRef := mountedRef s; isInitialLoading := isInitialLoading s;
     isTransitioning := isTransitioning s; error := error s;
     bufferPromiseRef := bufferPromiseRef s; requests := requests s;
     suspended := suspended s; history := history s ++ [o] |}.

(** A call of [generateSentence]: a new pending request. *)
Definition generateSentence (from : CallSite) (s : Screen) : nat * Screen :=
  (length (requests s),
   setRequests (requests s ++ [{| site := from; status := Pending |}]) s).

Definition queueNextSentence (s : Screen) : Screen :=
  let (p, s1) := generateSentence Queue s in setBuffer (Some p) s1.

Definition statusOf (s : Screen) (id : nat) : option Status :=
  status <$> requests s !! id.

(** The rest of an [async] function once the awaited request has settled:
    the [try] block after the [await] when it was fulfilled, the [catch]
    block when it was rejected, then the [finally] block. *)
Definition resume (k : Suspended) (s : Screen) : Screen :=
  match k with
  | AwaitInit id =>
      match statusOf s id with
      | Some Fulfilled =>
          setIsInitialLoading false (queueNextSentence (record Loaded s))
      | Some Rejected =>
          setIsInitialLoading false (setError true (record LoadFailed s))
      | _ => s
      end
  | AwaitNext id =>
      match statusOf s id with
      | Some Fulfilled =>
          setIsTransitioning false (queueNextSentence (record Advanced s))
      | Some Rejected =>
          setIsTransitioning false
            (setBuffer None (setError true (record AdvanceFailed s)))
      | _ => s
      end
  end.

(** [await]: on a pending request the function is parked; on a settled one
    it goes on before any other event is handled. *)
Definition await (k : Suspended) (id : nat) (s : Screen) : Screen :=
  match statusOf s id with
  | Some Pending => setSuspended (suspended s ++ [k]) s
  | _ => resume k s
  end.

(** The mount effect with its [mountedRef] guard, up to the first [await]. *)
Definition mountEffect (s : Screen) : Screen :=
  if mountedRef s then s
  else
    let s1 := setIsInitialLoading true (setMounted true s) in
    let (p, s2) := generateSentence InitialLoad s1 in
    await (AwaitInit p) p s2.

Definition handleNextSentence (s : Screen) : Screen :=
  let s1 := setIsTransitioning true (setError false s) in
  let s2 := match bufferPromiseRef s1 with
            | Some _ => s1
            | None => queueNextSentence s1
            end in
  match bufferPromiseRef s2 with
  | Some p => await (AwaitNext p) p s2
  | None => s2
  end.

Definition awaits (id : nat) (k : Suspended) : bool :=
  match k with
  | AwaitInit p | AwaitNext p => Nat.eqb p id
  end.

(** A pending request settles: its status changes and the functions parked
    on it go on, in the order in which they were parked. *)
Definition settle (id : nat) (ok : bool) (s : Screen) : Screen :=
  match requests s !! id with
  | Some {| site := from; status := Pending |} =>
      let r := {| site := from;
                  status := if ok then Fulfilled else Rejected |} in
      let s1 := setRequests (<[id := r]> (requests s)) s in
      let woken := List.filter (awaits id) (suspended s1) in
      let parked := List.filter (fun k => negb (awaits id k)) (suspended s1) in
      fold_left (fun acc k => resume k acc) woken (setSuspended parked s1)
  | _ => s
  end.

(** What can happen to a mounted screen: the effect runs, the main button
    or the retry button of the error view is pressed, a request settles. *)
Inductive Event :=
| Mount
| ClickNext
| ClickRetry
| Settle (id : nat) (ok : bool).

(** The main button is [disabled] while loading or transitioning; the
    retry button is rendered only in the error view. *)
Definition step (s : Screen) (e : Event) : Screen :=
  match e with
  | Mount => mountEffect s
  | ClickNext =>
      if isTransitioning s || isInitialLoading s then s
      else handleNextSentence s
  | ClickRetry =>
      if negb (isInitialLoading s) && error s then handleNextSentence s
      else s
  | Settle id ok => settle id ok s
  end.

Definition run (trace : list Event) : Screen :=
  fold_left step trace initialScreen.

(** Counters read off a screen. *)
Definition issued (s : Screen) : nat := length (requests s).

Definition isPrefetch (r : Request) : bool :=
  match site r with Queue => true | InitialLoad => false end.

Definition isPending (r : Request) : bool :=
  match status r with Pending => true | _ => false end.

Definition prefetchIssued (s : Screen) : nat :=
  length (List.filter isPrefetch (requests s)).

Definition prefetchPending (s : Screen) : nat :=
  length (List.filter (fun r => isPrefetch r && isPending r) (requests s)).

Definition isAdvanced (o : Outcome) : bool :=
  match o with Advanced => true | _ => false end.

Definition advances (s : Screen) : nat :=
  length (List.filter isAdvanced (history s)).

(** The screen between the mount effect and the answer to the first
    request. *)
Definition loadingScreen : Screen :=
  {| mountedRef := true; isInitialLoading := true; isTransitioning := false;
     error := false; bufferPromiseRef := None;
     requests := [{| site := InitialLoad; status := Pending |}];
     suspended := [AwaitInit 0]; history := [] |}.

(** What holds of the table, the buffer and the history in every state
    the screen reaches. *)
Record Sound (s : Screen) : Prop := {
  pending_is_buffered :
    forall i r, requests s !! i = Some r ->
      isPrefetch r = true -> isPending r = true ->
      bufferPromiseRef s = Some i;
  counts_after_load :
    Loaded ∈ history s -> AdvanceFailed ∉ history s ->
    bufferPromiseRef s <> None /\
    prefetchIssued s = (advances s + 1)%nat;
  one_initial_request :
    mountedRef s = true -> issued s = (prefetchIssued s + 1)%nat;
  untouched_before_mount :
    mountedRef s = false -> s = initialScreen
}.

(** At most one function is parked: [init] while the screen is loading,
    or [handleNextSentence] on the pending buffer during a transition. *)
Definition Parked (s : Screen) : Prop :=
  match suspended s with
  | [] => True
  | [AwaitInit _] => s = loadingScreen
  | [AwaitNext p] =>
      isInitialLoading s = false /\ isTransitioning s = true /\
      error s = false /\ bufferPromiseRef s = Some p /\
      statusOf s p = Some Pending
  | _ => False
  end.

(** No prefetch request is pending. *)
Definition quiet (s : Screen) : Prop :=
  forall i r, requests s !! i = Some r ->
    isPrefetch r = true -> isPending r = true -> False.

End PracticeScreen.

(** *** WritingPracticeScreen.tsx *)

Module WritingPracticeScreen.

(** The class in [/[\s\u3000]/g]. *)
Definition reSpace (c : Z) : bool := Js.isWhiteSpace c || (c =? 0x3000).

(** The class of the second [replace]: the ideographic comma and full
    stop, the full-width exclamation and question marks, and the ASCII
    full stop, comma, exclamation mark and question mark. *)
Definition rePunctuation (c : Z) : bool :=
  (c =? 0x3001) || (c =? 0x3002) || (c =? 0xFF01) || (c =? 0xFF1F)
  || (c =? 0x2E) || (c =? 0x2C) || (c =? 0x21) || (c =? 0x3F).

Definition normalizeJapanese (text : jsstring) : jsstring :=
  Js.trim
    (Js.replaceAllWithEmpty rePunctuation
       (Js.replaceAllWithEmpty reSpace text)).

Inductive ValidationResult := correct | incorrect.

(** [handleReveal] on the challenge on screen, whose expected text is
    [hiragana]: the verdict and the writing totals after the update. *)
Definition handleReveal (fuel : nat) (vocabulary : AnalyzedVocabulary)
  (userDraft hiragana : jsstring) (writingStats : WordStats)
  : option (ValidationResult * WordStats) :=
  let normalizedInput := normalizeJapanese userDraft in
  let normalizedAnswer := normalizeJapanese hiragana in
  let isCorrect := bool_decide (normalizedInput = normalizedAnswer) in
  usedCounts ← PracticeScreen.countUsedWords fuel vocabulary hiragana;
  Some (if isCorrect then correct else incorrect,
        App.createStatsUpdater usedCounts writingStats).

End WritingPracticeScreen.

(** *** VisualQuizScreen.tsx *)

Module VisualQuizScreen.

Definition normalizeJapanese (text : jsstring) : jsstring :=
  Js.trim (Js.replaceAllWithEmpty WritingPracticeScreen.reSpace text).

Inductive ValidationState := idle | correct | incorrect.

Record VisualQuizData := {
  originalSentence : jsstring;
  targetWord : jsstring
}.

(** [handleSubmit]: the validation state and the visual totals after the
    call; without a quiz on screen nothing happens. *)
Definition handleSubmit (currentQuiz : option VisualQuizData)
  (userInput : jsstring) (validationState : ValidationState)
  (visualStats : WordStats) : ValidationState * WordStats :=
  match currentQuiz with
  | None => (validationState, visualStats)
  | Some quiz =>
      let isCorrect :=
        bool_decide
          (normalizeJapanese userInput = normalizeJapanese (targetWord quiz)) in
      if isCorrect then
        let stats : gmap (list Z) Z := {[ targetWord quiz := 3 ]} in
        (correct, App.createStatsUpdater stats visualStats)
      else (incorrect, visualStats)
  end.

End VisualQuizScreen.

(** *** The words of the specification *)

Module Spec.

(** [t] is a whitespace-separated token of [s]: a non-empty stretch of
    [s] without whitespace, with whitespace or an end of [s] directly in
    front of it and directly behind it. *)
Definition isToken (t s : jsstring) : Prop :=
  t <> [] /\ (forall c, c ∈ t -> Js.isWhiteSpace c = false) /\
  exists before after,
    s = before ++ t ++ after /\
    (forall c, last before = Some c -> Js.isWhiteSpace c = true) /\
    (forall c, head after = Some c -> Js.isWhiteSpace c = true).

(** The number of offsets of [text] at which [word] occurs; occurrences
    may overlap. *)
Fixpoint occurrences (word text : jsstring) : Z :=
  match text with
  | [] => 0
  | _ :: text' =>
      (if Js.startsWith word text then 1 else 0) + occurrences word text'
  end.

(** Counting without overlap, scanning from the left: an occurrence is
    counted and the scan goes on behind it; [skip] is the number of code
    units still to step over. *)
Fixpoint nonOverlapping (word text : jsstring) (skip : nat) : Z :=
  match text with
  | [] => 0
  | _ :: text' =>
      match skip with
      | S skip' => nonOverlapping word text' skip'
      | O =>
          if Js.startsWith word text
          then 1 + nonOverlapping word text' (length word - 1)
          else nonOverlapping word text' 0
      end
  end.

Definition nonOverlappingCount (word text : jsstring) : Z :=
  nonOverlapping word text 0.

(** Whole-number totals per word, and the total of a word: 0 without an
    entry. *)
Definition count (tally : gmap (list Z) Z) (w : jsstring) : Z :=
  default 0 (tally !! w).

(** The statistics object that holds the totals of [tally]. *)
Definition record (tally : gmap (list Z) Z) : WordStats :=
  (fun z => Js.Number (Js.ofZ z)) <$> tally.

(** [Number.MAX_SAFE_INTEGER] *)
Definition maxSafe : Z := 2 ^ 53 - 1.

(** Every total is a whole number from 0 to 2^53 - 1, which a double
    holds exactly. *)
Definition safe (tally : gmap (list Z) Z) : Prop :=
  map_Forall (fun _ z => 0 <= z <= maxSafe) tally.

(** [w] is not the name of a property of [Object.prototype]. *)
Definition plain (w : jsstring) : Prop := Js.inherited w = None.

(** [a] has been used no more often than [b]. *)
Definition noMoreUsed (tally : gmap (list Z) Z) (a b : jsstring) : Prop :=
  count tally a <= count tally b.

(** The counts [wordCounts] can be added to [tally] exactly: they belong
    to words that are no properties of [Object.prototype], none is
    negative, and no sum goes beyond 2^53 - 1. *)
Definition fits (wordCounts tally : gmap (list Z) Z) : Prop :=
  forall w c,
    wordCounts !! w = Some c ->
    plain w /\ 0 <= c /\ count tally w + c <= maxSafe.

(** The totals after the counts [wordCounts] have been added. *)
Definition addCounts (wordCounts tally : gmap (list Z) Z) : gmap (list Z) Z :=
  union_with (fun c z => Some (z + c)) wordCounts tally.

(** The arguments with which the screens call [updateWordStats]: the
    result of [countUsedWords] (reading and writing) or the single entry
    of weight 3 (visual). *)
Inductive screenUpdate : gmap (list Z) Z -> Prop :=
| update_scanned fuel vocabulary text usedCounts :
    PracticeScreen.countUsedWords fuel vocabulary text = Some usedCounts ->
    screenUpdate usedCounts
| update_visual target : screenUpdate {[ target := 3 ]}.

(** A session of updates applied to a mode's totals, oldest first. *)
Definition applyUpdates (updates : list (gmap (list Z) Z))
  (stats : WordStats) : WordStats :=
  fold_left (fun st wordCounts => App.createStatsUpdater wordCounts st)
    updates stats.

(** Each update of a session can be added exactly to the totals that the
    updates before it have left. *)
Fixpoint fitsAll (updates : list (gmap (list Z) Z)) (tally : gmap (list Z) Z)
  : Prop :=
  match updates with
  | [] => True
  | wordCounts :: rest =>
      fits wordCounts tally /\ fitsAll rest (addCounts wordCounts tally)
  end.

End Spec.

(** *** Sample data *)

Module Sample.

Definition wa : Z := 0x308F.
Definition ta : Z := 0x305F.
Definition shi : Z := 0x3057.
Definition ha : Z := 0x306F.
Definition ne : Z := 0x306D.
Definition ko : Z := 0x3053.
Definition ga : Z := 0x304C.
Definition wo : Z := 0x3092.
Definition mi : Z := 0x307F.
Definition ru : Z := 0x308B.
Definition zu : Z := 0x305A.
Definition mo : Z := 0x3082.
Definition space : Z := 0x20.
Definition newline : Z := 0x0A.
Definition maru : Z := 0x3002.

Definition watashi : jsstring := [wa; ta; shi].
Definition neko : jsstring := [ne; ko].
Definition mizu : jsstring := [mi; zu].
Definition momo : jsstring := [mo; mo].

(** The text [ne ko ga ne ko wo mi ru]. *)
Definition nekoSentence : jsstring := [ne; ko; ga; ne; ko; wo; mi; ru].

(** The vocabulary of the end-to-end scenario: known words [watashi] and
    [neko] on two lines, learning word [mizu]. *)
Definition scenario : AnalyzedVocabulary :=
  App.handleStartPractice (watashi ++ [newline] ++ neko) mizu.

(** Five learning words and no known word. *)
Definition onlyLearning : AnalyzedVocabulary :=
  App.handleStartPractice []
    (watashi ++ [space] ++ neko ++ [space] ++ mizu ++ [space] ++ momo
       ++ [space] ++ [mi; ru]).

Definition noRandomness : Rng := {| stream := fun _ => 0%Q; cursor := 0 |}.

End Sample.

(** *** InputScreen.tsx *)

Module InputScreen.

(** The condition of [handleStart]; the start button is [disabled] on its
    negation. *)
Definition hasWords (knownWords learningWords : jsstring) : bool :=
  (0 <? Z.of_nat (length (Js.trim knownWords)))
  || (0 <? Z.of_nat (length (Js.trim learningWords))).

(** [handleStart], with [onStart] bound to the analysis of
    [handleStartPractice]: [None] when [onStart] is not called. *)
Definition handleStart (knownWords learningWords : jsstring)
  : option AnalyzedVocabulary :=
  if hasWords knownWords learningWords
  then Some (App.handleStartPractice knownWords learningWords)
  else None.

End InputScreen.

(** *** ConfigScreen.tsx *)

Module ConfigScreen.

(** The text [AIza]. *)
Definition keyPrefix : jsstring := [0x41; 0x49; 0x7A; 0x61].

(** [handleSave]: the key handed to [onSave], or [None] when an error
    message is set instead. *)
Definition handleSave (inputKey : jsstring) : option jsstring :=
  let key := Js.trim inputKey in
  if negb (0 <? Z.of_nat (length key)) then None
  else if negb (Js.startsWith keyPrefix key) then None
  else Some key.

End ConfigScreen.

(** *** WordStatistics.tsx: the rows of the statistics panel. The
        percentage of a row is a floating-point quotient and is left
        out. *)

Module WordStatistics.

Record Row := { word : jsstring; count : Js.value }.

(** [rows.sort(cmp)]: each row in turn is placed into the already sorted
    prefix, in front of the first row [y] for which [cmp(x, y) < 0]. *)
Fixpoint insertRow (cmp : Row -> Row -> Js.number) (x : Row)
  (sorted : list Row) : list Row :=
  match sorted with
  | [] => [x]
  | y :: rest =>
      if negb (Qle_bool 0 (JsArray.sortCompare (cmp x y)))
      then x :: y :: rest else y :: insertRow cmp x rest
  end.

Definition sortRows (cmp : Row -> Row -> Js.number) (xs : list Row)
  : list Row :=
  fold_left (fun acc x => insertRow cmp x acc) xs [].

(** The memoised [stats]: one row per distinct word of the text, most
    frequent first. The panel is hidden when there is no row. What React
    does with a row is not part of the model. *)
Definition stats (wordStats : WordStats) (knownWordsString : jsstring)
  : list Row :=
  let uniqueWords := App.parseWords knownWordsString in
  let data :=
    map (fun w => {| word := w; count := Js.orZero (Js.get wordStats w) |})
      uniqueWords in
  sortRows (fun a b => Js.minus (count b) (count a)) data.


End WordStatistics.

(** *** App.tsx: the save effects, the key handler and the text handed
        to the statistics panel *)

Module AppFlow.

#[global] Instance StorageKey_eq_dec : EqDecision App.StorageKey.
Proof. solve_decision. Defined.

(** [localStorage.setItem(k, v)] *)
Definition setItem (k : App.StorageKey) (v : jsstring)
  (localStorage : App.Storage) : App.Storage :=
  fun k' => if decide (k' = k) then Some v else localStorage k'.



Definition withView (v : App.AppState) (st : App.AppData) : App.AppData :=
  {| App.view := v; App.apiKey := App.apiKey st;
     App.knownWords := App.knownWords st;
     App.learningWordsText := App.learningWordsText st;
     App.readingStats := App.readingStats st;
     App.writingStats := App.writingStats st;
     App.visualStats := App.visualStats st;
     App.isInitialized := App.isInitialized st |}.

Definition withApiKey (k : option jsstring) (st : App.AppData) : App.AppData :=
  {| App.view := App.view st; App.apiKey := k;
     App.knownWords := App.knownWords st;
     App.learningWordsText := App.learningWordsText st;
     App.readingStats := App.readingStats st;
     App.writingStats := App.writingStats st;
     App.visualStats := App.visualStats st;
     App.isInitialized := App.isInitialized st |}.



(** [handleSaveApiKey]: the write to the store, then the two state
    updates. *)
Definition handleSaveApiKey (key : jsstring) (st : App.AppData)
  (localStorage : App.Storage) : App.AppData * App.Storage :=
  (withView App.INPUT_WORDS (withApiKey (Some key) st),
   setItem App.hiragana_dojo_api_key key localStorage).

End AppFlow.

(** *** WritingPracticeScreen.tsx: batches, the index within a batch and
        the Enter key

    A request is a call of [generateWritingBatch]; a batch is known by the
    request that brought it and by the number of its challenges. *)

Module WritingFlow.

Inductive Status := Pending | Fulfilled (challenges : nat) | Rejected.

Inductive CallSite := InitialLoad | Queue.

Record Request := { site : CallSite; status : Status }.

Inductive Suspended :=
| AwaitInit (id : nat)
| AwaitNext (id : nat).

Record Screen := {
  mountedRef : bool;
  isInitialLoading : bool;
  isTransitioning : bool;
  error : bool;
  currentBatch : option (nat * nat);
  currentIndex : nat;
  isRevealed : bool;
  bufferPromiseRef : option nat;
  requests : list Request;
  suspended : list Suspended;
  (** the challenges whose words [handleReveal] has counted, oldest
      first: the batch's request and the index *)
  counted : list (nat * nat)
}.

Definition initialScreen : Screen :=
  {| mountedRef := false; isInitialLoading := true; isTransitioning := false;
     error := false; currentBatch := None; currentIndex := 0;
     isRevealed := false; bufferPromiseRef := None; requests := [];
     suspended := []; counted := [] |}.

(** [bufferPromiseRef.current = generateWritingBatch(...)] *)
Definition queueNextBatch (s : Screen) : Screen :=
  {| mountedRef := mountedRef s; isInitialLoading := isInitialLoading s;
     isTransitioning := isTransitioning s; error := error s;
     currentBatch := currentBatch s; currentIndex := currentIndex s;
     isRevealed := isRevealed s;
     bufferPromiseRef := Some (length (requests s));
     requests := requests s ++ [{| site := Queue; status := Pending |}];
     suspended := suspended s; counted := counted s |}.

Definition statusOf (s : Screen) (id : nat) : option Status :=
  status <$> requests s !! id.

(** The rest of [init] or of [handleNext] once the awaited request has
    settled. *)
Definition resume (k : Suspended) (s : Screen) : Screen :=
  match k with
  | AwaitInit id =>
      match statusOf s id with
      | Some (Fulfilled n) =>
          let s1 :=
            queueNextBatch
              {| mountedRef := mountedRef s;
                 isInitialLoading := isInitialLoading s;
                 isTransitioning := isTransitioning s; error := error s;
                 currentBatch := Some (id, n); currentIndex := 0;
                 isRevealed := isRevealed s;
                 bufferPromiseRef := bufferPromiseRef s;
                 requests := requests s; suspended := suspended s;
                 counted := counted s |} in
          {| mountedRef := mountedRef s1; isInitialLoading := false;
             isTransitioning := isTransitioning s1; error := error s1;
             currentBatch := currentBatch s1; currentIndex := currentIndex s1;
             isRevealed := isRevealed s1;
             bufferPromiseRef := bufferPromiseRef s1;
             requests := requests s1; suspended := suspended s1;
             counted := counted s1 |}
      | Some Rejected =>
          {| mountedRef := mountedRef s; isInitialLoading := false;
             isTransitioning := isTransitioning s; error := true;
             currentBatch := currentBatch s; currentIndex := currentIndex s;
             isRevealed := isRevealed s;
             bufferPromiseRef := bufferPromiseRef s;
             requests := requests s; suspended := suspended s;
             counted := counted s |}
      | _ => s
      end
  | AwaitNext id =>
      match statusOf s id with
      | Some (Fulfilled n) =>
          let s1 :=
            queueNextBatch
              {| mountedRef := mountedRef s;
                 isInitialLoading := isInitialLoading s;
                 isTransitioning := isTransitioning s; error := error s;
                 currentBatch := Some (id, n); currentIndex := 0;
                 isRevealed := isRevealed s;
                 bufferPromiseRef := bufferPromiseRef s;
                 requests := requests s; suspended := suspended s;
                 counted := counted s |} in
          {| mountedRef := mountedRef s1;
             isInitialLoading := isInitialLoading s1;
             isTransitioning := false; error := error s1;
             currentBatch := currentBatch s1; currentIndex := currentIndex s1;
             isRevealed := isRevealed s1;
             bufferPromiseRef := bufferPromiseRef s1;
             requests := requests s1; suspended := suspended s1;
             counted := counted s1 |}
      | Some Rejected =>
          {| mountedRef := mountedRef s;
             isInitialLoading := isInitialLoading s;
             isTransitioning := false; error := true;
             currentBatch := currentBatch s; currentIndex := currentIndex s;
             isRevealed := isRevealed s;
             bufferPromiseRef := None;
             requests := requests s; suspended := suspended s;
             counted := counted s |}
      | _ => s
      end
  end.

Definition park (k : Suspended) (s : Screen) : Screen :=
  {| mountedRef := mountedRef s; isInitialLoading := isInitialLoading s;
     isTransitioning := isTransitioning s; error := error s;
     currentBatch := currentBatch s; currentIndex := currentIndex s;
     isRevealed := isRevealed s; bufferPromiseRef := bufferPromiseRef s;
     requests := requests s; suspended := suspended s ++ [k];
     counted := counted s |}.

Definition await (k : Suspended) (id : nat) (s : Screen) : Screen :=
  match statusOf s id with
  | Some Pending => park k s
  | _ => resume k s
  end.

Definition mountEffect (s : Screen) : Screen :=
  if mountedRef s then s
  else
    let id := length (requests s) in
    await (AwaitInit id) id
      {| mountedRef := true; isInitialLoading := true;
         isTransitioning := isTransitioning s; error := error s;
         currentBatch := currentBatch s; currentIndex := currentIndex s;
         isRevealed := isRevealed s; bufferPromiseRef := bufferPromiseRef s;
         requests := requests s ++ [{| site := InitialLoad; status := Pending |}];
         suspended := suspended s; counted := counted s |}.

(** [handleReveal], as far as the statistics and the flag go: the words
    of the challenge at [currentIndex] are counted once more.  The
    handler is reachable only while that challenge is rendered, see
    [challengeShown]. *)
Definition handleReveal (s : Screen) : Screen :=
  match currentBatch s with
  | None => s
  | Some (batch, _) =>
      {| mountedRef := mountedRef s; isInitialLoading := isInitialLoading s;
         isTransitioning := isTransitioning s; error := error s;
         currentBatch := currentBatch s; currentIndex := currentIndex s;
         isRevealed := true; bufferPromiseRef := bufferPromiseRef s;
         requests := requests s; suspended := suspended s;
         counted := counted s ++ [(batch, currentIndex s)] |}
  end.

Definition handleNext (s : Screen) : Screen :=
  match currentBatch s with
  | None => s
  | Some (_, challenges) =>
      if (S (currentIndex s) <? challenges)%nat then
        {| mountedRef := mountedRef s; isInitialLoading := isInitialLoading s;
           isTransitioning := isTransitioning s; error := error s;
           currentBatch := currentBatch s;
           currentIndex := S (currentIndex s);
           isRevealed := false; bufferPromiseRef := bufferPromiseRef s;
           requests := requests s; suspended := suspended s;
           counted := counted s |}
      else
        let s1 :=
          {| mountedRef := mountedRef s;
             isInitialLoading := isInitialLoading s;
             isTransitioning := true; error := error s;
             currentBatch := currentBatch s;
             currentIndex := currentIndex s;
             isRevealed := false; bufferPromiseRef := bufferPromiseRef s;
             requests := requests s; suspended := suspended s;
             counted := counted s |} in
        let s2 := match bufferPromiseRef s1 with
                  | Some _ => s1
                  | None => queueNextBatch s1
                  end in
        match bufferPromiseRef s2 with
        | Some p => await (AwaitNext p) p s2
        | None => s2
        end
  end.

(** [handleKeyDown] for the Enter key. *)
Definition handleKeyDown (s : Screen) : Screen :=
  if negb (isRevealed s) then handleReveal s else handleNext s.

Definition awaits (id : nat) (k : Suspended) : bool :=
  match k with
  | AwaitInit p | AwaitNext p => Nat.eqb p id
  end.

Definition settle (id : nat) (outcome : option nat) (s : Screen) : Screen :=
  match requests s !! id with
  | Some {| site := from; status := Pending |} =>
      let r := {| site := from;
                  status := match outcome with
                            | Some n => Fulfilled n
                            | None => Rejected
                            end |} in
      let woken := List.filter (awaits id) (suspended s) in
      let parked := List.filter (fun k => negb (awaits id k)) (suspended s) in
      fold_left (fun acc k => resume k acc) woken
        {| mountedRef := mountedRef s; isInitialLoading := isInitialLoading s;
           isTransitioning := isTransitioning s; error := error s;
           currentBatch := currentBatch s; currentIndex := currentIndex s;
           isRevealed := isRevealed s; bufferPromiseRef := bufferPromiseRef s;
           requests := <[id := r]> (requests s); suspended := parked;
           counted := counted s |}
  | _ => s
  end.

(** The challenge card with its text area is rendered: the screen is not
    loading, shows no error and has a challenge at the current index. *)
Definition challengeShown (s : Screen) : bool :=
  negb (isInitialLoading s) && negb (error s)
  && match currentBatch s with
     | Some (_, challenges) => (currentIndex s <? challenges)%nat
     | None => false
     end.

(** The Enter key in the text area, the check button (rendered before the
    reveal), the next button (rendered after it, [disabled] during a
    transition), a request settling with a batch of so many challenges or
    with a rejection. *)
Inductive Event :=
| Mount
| PressEnter
| ClickCheck
| ClickNext
| Settle (id : nat) (outcome : option nat).

Definition step (s : Screen) (e : Event) : Screen :=
  match e with
  | Mount => mountEffect s
  | PressEnter => if challengeShown s then handleKeyDown s else s
  | ClickCheck =>
      if challengeShown s && negb (isRevealed s) then handleReveal s else s
  | ClickNext =>
      if challengeShown s && isRevealed s && negb (isTransitioning s)
      then handleNext s else s
  | Settle id outcome => settle id outcome s
  end.

Definition run (trace : list Event) : Screen :=
  fold_left step trace initialScreen.

Definition prefetchPending (s : Screen) : nat :=
  length
    (List.filter
       (fun r => match site r, status r with
                 | Queue, Pending => true
                 | _, _ => false
                 end)
       (requests s)).

(** A first batch of one challenge, then [n] times the Enter key twice
    (check, then next), then the first prefetch answered with a batch of
    [m] challenges. *)
Definition impatient (n m : nat) : list Event :=
  [Mount; Settle 0%nat (Some 1%nat)]
  ++ concat (replicate n [PressEnter; PressEnter])
  ++ [Settle 1%nat (Some m)].

End WritingFlow.

(** *** WritingPracticeScreen.tsx: what holds of the screen as long as
        only the buttons are used *)

Module WritingState.

Import WritingFlow.

(** The screen after [k] rounds of Enter twice on the only challenge of
    the first batch, the first prefetch still unanswered. *)
Definition midway (k : nat) : Screen :=
  {| mountedRef := true; isInitialLoading := false;
     isTransitioning := (0 <? k)%nat; error := false;
     currentBatch := Some (0, 1)%nat; currentIndex := 0;
     isRevealed := false; bufferPromiseRef := Some 1%nat;
     requests := [ {| site := InitialLoad; status := Fulfilled 1 |};
                   {| site := Queue; status := Pending |} ];
     suspended := replicate k (AwaitNext 1);
     counted := replicate k (0, 0)%nat |}.

(** Of the requests made by [queueNextBatch], only the one at [at_] may
    still be unanswered. *)
Definition onlyAt (l : list Request) (at_ : option nat) : Prop :=
  forall i r, l !! i = Some r -> site r = Queue -> status r = Pending ->
              at_ = Some i.

Record Calm (s : Screen) : Prop := {
  calm_buffer : onlyAt (requests s) (bufferPromiseRef s);
  calm_waiting :
    match suspended s with
    | [] => True
    | [AwaitInit _] =>
        isInitialLoading s = true /\ onlyAt (requests s) None
    | [AwaitNext p] =>
        isTransitioning s = true /\ bufferPromiseRef s = Some p
    | _ => False
    end;
  calm_unmounted :
    mountedRef s = false ->
    suspended s = [] /\ requests s = [] /\ currentBatch s = None
}.

End WritingState.

(** *** PracticeScreen.tsx: how the flags, the buffer and the history of
        the pipeline hang together *)

Module PipelineState.

Import PracticeScreen.

(** 1 while the screen waits for a retry with an empty buffer. *)
Definition owed (s : Screen) : nat :=
  match bufferPromiseRef s with
  | Some _ => 0
  | None => if isInitialLoading s then 0 else 1
  end.

Record Steady (s : Screen) : Prop := {
  buffer_in_table :
    forall p, bufferPromiseRef s = Some p -> (p < length (requests s))%nat;
  error_means_empty :
    error s = true ->
    isInitialLoading s = false /\ isTransitioning s = false /\
    bufferPromiseRef s = None;
  ready_means_buffered :
    isInitialLoading s = false -> isTransitioning s = false ->
    error s = false -> bufferPromiseRef s <> None;
  transition_means_parked :
    isTransitioning s = true -> exists p, suspended s = [AwaitNext p];
  requests_accounted :
    mountedRef s = true ->
    (issued s + owed s = 1 + length (history s))%nat;
  loading_is_first :
    mountedRef s = true -> isInitialLoading s = true -> s = loadingScreen
}.

End PipelineState.

(** ** Part II. Properties *)

(** *** Strings: trimming and deleting a character class *)

Section StringFacts.

Lemma dropWhile_head (p : Z -> bool) (c : Z) (s : jsstring) :
  p c = false -> Js.dropWhile p (c :: s) = c :: s.
Proof. intros Hc. simpl. by rewrite Hc. Qed.

Lemma dropWhile_clean (p : Z -> bool) (s : jsstring) :
  (forall c, c ∈ s -> p c = false) -> Js.dropWhile p s = s.
Proof.
  destruct s as [|c s]; [done|].
  intros Hs. apply dropWhile_head, Hs. left.
Qed.

Lemma trim_clean (s : jsstring) :
  (forall c, c ∈ s -> Js.isWhiteSpace c = false) -> Js.trim s = s.
Proof.
  intros Hs. unfold Js.trim, Js.trimStart, Js.trimEnd.
  rewrite (dropWhile_clean _ s Hs).
  rewrite dropWhile_clean; [apply rev_involutive|].
  intros c Hc. apply Hs. by apply list_elem_of_In, in_rev, list_elem_of_In.
Qed.

Lemma reSpace_is_whitespace (c : Z) :
  WritingPracticeScreen.reSpace c = Js.isWhiteSpace c.
Proof.
  unfold WritingPracticeScreen.reSpace.
  destruct (Z.eqb_spec c 0x3000) as [->|_]; [reflexivity|].
  apply orb_false_r.
Qed.

Lemma replaceAll_elem (cls : Z -> bool) (s : jsstring) (c : Z) :
  c ∈ Js.replaceAllWithEmpty cls s <-> c ∈ s /\ cls c = false.
Proof.
  unfold Js.replaceAllWithEmpty.
  rewrite !list_elem_of_In, filter_In, negb_true_iff. tauto.
Qed.

Lemma replaceAll_twice (cls1 cls2 : Z -> bool) (s : jsstring) :
  Js.replaceAllWithEmpty cls2 (Js.replaceAllWithEmpty cls1 s)
  = Js.replaceAllWithEmpty (fun c => cls1 c || cls2 c) s.
Proof.
  unfold Js.replaceAllWithEmpty.
  induction s as [|c s IH]; [done|]. simpl.
  destruct (cls1 c); simpl; [done|].
  destruct (cls2 c); simpl; by rewrite IH.
Qed.

Lemma replaceAll_ext (cls1 cls2 : Z -> bool) (s : jsstring) :
  (forall c, cls1 c = cls2 c) ->
  Js.replaceAllWithEmpty cls1 s = Js.replaceAllWithEmpty cls2 s.
Proof.
  intros E. unfold Js.replaceAllWithEmpty.
  apply filter_ext. intros c. by rewrite E.
Qed.

Lemma visual_normalize_filter (text : jsstring) :
  VisualQuizScreen.normalizeJapanese text
  = Js.replaceAllWithEmpty Js.isWhiteSpace text.
Proof.
  unfold VisualQuizScreen.normalizeJapanese.
  rewrite (replaceAll_ext _ _ text reSpace_is_whitespace).
  apply trim_clean. intros c Hc. by apply replaceAll_elem in Hc as [_ ?].
Qed.

Lemma writing_normalize_filter (text : jsstring) :
  WritingPracticeScreen.normalizeJapanese text
  = Js.replaceAllWithEmpty
      (fun c => Js.isWhiteSpace c || WritingPracticeScreen.rePunctuation c)
      text.
Proof.
  unfold WritingPracticeScreen.normalizeJapanese.
  rewrite replaceAll_twice.
  rewrite (replaceAll_ext _
             (fun c => Js.isWhiteSpace c || WritingPracticeScreen.rePunctuation c)
             text) by (intros c; by rewrite reSpace_is_whitespace).
  apply trim_clean. intros c Hc.
  apply replaceAll_elem in Hc as [_ Hc]. by apply orb_false_iff in Hc as [? _].
Qed.

End StringFacts.

(** *** Numbers: whole numbers below 2^53 are added exactly *)

Section NumberFacts.

Lemma one_positive : 0 < Js.one.
Proof. unfold Js.one. apply Z.pow_pos_nonneg; lia. Qed.

(** An exact value whose bits beyond the 53rd are all zero is a
    double. *)
Lemma round_exact (m : Z) :
  (0 < Z.log2 (Z.abs m) + 1 - 53 ->
   (2 ^ (Z.log2 (Z.abs m) + 1 - 53) | Z.abs m)) ->
  Z.abs m < 2 ^ 2098 ->
  Js.round m = Js.Finite m.
Proof.
  intros Hdiv Hbig. unfold Js.round. cbv zeta.
  destruct (Z.leb_spec (Z.log2 (Z.abs m) + 1 - 53) 0) as [?|Hk]; [done|].
  specialize (Hdiv Hk).
  assert (H2k : 0 < 2 ^ (Z.log2 (Z.abs m) + 1 - 53))
    by (apply Z.pow_pos_nonneg; lia).
  assert (Hhalf : 0 < 2 ^ (Z.log2 (Z.abs m) + 1 - 53 - 1))
    by (apply Z.pow_pos_nonneg; lia).
  assert (Hr : Z.abs m mod 2 ^ (Z.log2 (Z.abs m) + 1 - 53) = 0)
    by (apply Z.mod_divide; [lia|done]).
  assert (Hq : Z.abs m / 2 ^ (Z.log2 (Z.abs m) + 1 - 53)
               * 2 ^ (Z.log2 (Z.abs m) + 1 - 53) = Z.abs m).
  { pose proof (Z.div_mod (Z.abs m) (2 ^ (Z.log2 (Z.abs m) + 1 - 53))
                  ltac:(lia)) as Hdm.
    rewrite Hr in Hdm. lia. }
  rewrite Hr.
  destruct (Z.ltb_spec (2 ^ (Z.log2 (Z.abs m) + 1 - 53 - 1)) 0) as [?|_];
    [lia|].
  destruct (Z.eqb_spec 0 (2 ^ (Z.log2 (Z.abs m) + 1 - 53 - 1))) as [?|_];
    [lia|].
  cbn [orb andb]. rewrite Hq.
  destruct (Z.leb_spec (2 ^ 2098) (Z.abs m)) as [?|_]; [lia|].
  f_equal. destruct m; cbn; lia.
Qed.

Lemma round_whole (z : Z) :
  Z.abs z < 2 ^ 53 -> Js.round (z * Js.one) = Js.Finite (z * Js.one).
Proof.
  intros Hz. pose proof one_positive as Hone.
  destruct (decide (z = 0)) as [->|Hnz]; [reflexivity|].
  assert (Habs : Z.abs (z * Js.one) = Z.abs z * 2 ^ 1074).
  { rewrite Z.abs_mul, (Z.abs_eq Js.one) by lia. done. }
  assert (Hlog : Z.log2 (Z.abs (z * Js.one)) = 1074 + Z.log2 (Z.abs z)).
  { rewrite Habs. apply Z.log2_mul_pow2; lia. }
  assert (Hsmall : 0 <= Z.log2 (Z.abs z) < 53).
  { split; [apply Z.log2_nonneg|]. apply Z.log2_lt_pow2; lia. }
  apply round_exact.
  - intros _. rewrite Hlog, Habs.
    exists (Z.abs z * 2 ^ (52 - Z.log2 (Z.abs z))).
    rewrite <- Z.mul_assoc, <- Z.pow_add_r by lia. do 2 f_equal. lia.
  - rewrite Habs. apply Z.lt_trans with (2 ^ 53 * 2 ^ 1074).
    + apply Z.mul_lt_mono_pos_r; [apply Z.pow_pos_nonneg; lia|done].
    + rewrite <- Z.pow_add_r by lia. apply Z.pow_lt_mono_r; lia.
Qed.

(** Beyond 2^53 a total no longer grows by 1. *)
Lemma add_saturates :
  Js.add (Js.ofZ (2 ^ 53)) (Js.ofZ 1) = Js.ofZ (2 ^ 53).
Proof. vm_compute. reflexivity. Qed.

Lemma ofZ_whole (z : Z) :
  Z.abs z < 2 ^ 53 -> Js.ofZ z = Js.Finite (z * Js.one).
Proof. apply round_whole. Qed.

Lemma add_whole (a b : Z) :
  Z.abs a < 2 ^ 53 -> Z.abs b < 2 ^ 53 -> Z.abs (a + b) < 2 ^ 53 ->
  Js.add (Js.ofZ a) (Js.ofZ b) = Js.ofZ (a + b).
Proof.
  intros Ha Hb Hab. rewrite !ofZ_whole by done. cbn [Js.add].
  rewrite <- Z.mul_add_distr_r. by apply round_whole.
Qed.

End NumberFacts.

(** *** Objects used as records, and the statistics updater *)

Section UpdaterFacts.

Lemma assign_lookup_ne {A : Type} (k w : jsstring) (v : A)
  (o : gmap (list Z) A) :
  w <> k -> Js.assign k v o !! w = o !! w.
Proof.
  intros Hne. unfold Js.assign.
  destruct (decide (k = Js.proto)); [destruct (o !! k)|];
    by rewrite ?lookup_insert_ne.
Qed.

Lemma assign_lookup_eq {A : Type} (k : jsstring) (v : A)
  (o : gmap (list Z) A) :
  k <> Js.proto \/ is_Some (o !! k) -> Js.assign k v o !! k = Some v.
Proof.
  intros Hk. unfold Js.assign.
  destruct (decide (k = Js.proto)) as [Hp|Hp].
  - destruct Hk as [?|[x Hx]]; [done|]. rewrite Hx.
    by rewrite lookup_insert_eq.
  - by rewrite lookup_insert_eq.
Qed.

Lemma assign_dropped {A : Type} (v : A) (o : gmap (list Z) A) :
  o !! Js.proto = None -> Js.assign Js.proto v o = o.
Proof. intros Ho. unfold Js.assign. by rewrite decide_True, Ho. Qed.

Lemma get_lookup (o o' : WordStats) (w : jsstring) :
  o !! w = o' !! w -> Js.get o w = Js.get o' w.
Proof. intros H. unfold Js.get. by rewrite H. Qed.

(** What the updater leaves under each name. *)
Lemma createStatsUpdater_lookup (wordCounts : gmap (list Z) Z)
  (prevStats : WordStats) (w : jsstring) :
  App.createStatsUpdater wordCounts prevStats !! w
  = match wordCounts !! w with
    | Some count =>
        if decide (w = Js.proto /\ prevStats !! w = None) then None
        else Some (Js.plus (Js.orZero (Js.get prevStats w)) count)
    | None => prevStats !! w
    end.
Proof.
  unfold App.createStatsUpdater. revert w.
  apply (map_fold_weak_ind
           (fun (r : WordStats) (m : gmap (list Z) Z) =>
              forall w,
                r !! w
                = match m !! w with
                  | Some count =>
                      if decide (w = Js.proto /\ prevStats !! w = None)
                      then None
                      else Some (Js.plus (Js.orZero (Js.get prevStats w))
                                   count)
                  | None => prevStats !! w
                  end)).
  - intros w. by rewrite lookup_empty.
  - intros i x m r Hi IH w.
    pose proof (IH i) as Hri. rewrite Hi in Hri.
    destruct (decide (w = i)) as [->|Hne].
    + rewrite lookup_insert_eq.
      rewrite (get_lookup r prevStats i Hri).
      destruct (decide (i = Js.proto /\ prevStats !! i = None))
        as [[-> Hnone]|Hno].
      * rewrite assign_dropped by by rewrite Hri. by rewrite Hri.
      * apply assign_lookup_eq.
        destruct (decide (i = Js.proto)) as [->|?]; [|by left].
        right. rewrite Hri. destruct (prevStats !! Js.proto); [done|].
        by destruct Hno.
    + rewrite lookup_insert_ne by done.
      rewrite assign_lookup_ne by done. apply IH.
Qed.

Lemma plain_not_proto (w : jsstring) : Spec.plain w -> w <> Js.proto.
Proof. intros Hw ->. discriminate Hw. Qed.

Lemma record_lookup (tally : gmap (list Z) Z) (w : jsstring) :
  Spec.record tally !! w = (fun z => Js.Number (Js.ofZ z)) <$> tally !! w.
Proof. unfold Spec.record. apply lookup_fmap. Qed.

Lemma safe_count (tally : gmap (list Z) Z) (w : jsstring) :
  Spec.safe tally -> 0 <= Spec.count tally w <= Spec.maxSafe.
Proof.
  intros Hs. unfold Spec.count.
  destruct (tally !! w) as [z|] eqn:Hz; simpl.
  - exact (Hs w z Hz).
  - unfold Spec.maxSafe. lia.
Qed.

(** On whole-number totals and for a word that is no property of
    [Object.prototype], the usage read by the screens is the word's
    total. *)
Lemma usage_record (tally : gmap (list Z) Z) (w : jsstring) :
  Spec.safe tally -> Spec.plain w ->
  PracticeScreen.usage (Spec.record tally) w
  = Js.Primitive (Js.Number (Js.ofZ (Spec.count tally w))).
Proof.
  intros Hs Hw. unfold PracticeScreen.usage, Js.get, Spec.count.
  rewrite record_lookup.
  destruct (tally !! w) as [z|] eqn:Hz; simpl.
  - pose proof (Hs w z Hz) as Hz'. simpl in Hz'. unfold Spec.maxSafe in Hz'.
    unfold Js.orZero, Js.truthy. rewrite ofZ_whole by lia.
    destruct (Z.eqb_spec (z * Js.one) 0) as [E|_]; [|done]. simpl.
    pose proof one_positive. assert (z = 0) as -> by nia. done.
  - rewrite Hw. reflexivity.
Qed.

(** Adding whole counts to whole totals, the sums staying below 2^53. *)
Lemma createStatsUpdater_record (wordCounts tally : gmap (list Z) Z) :
  Spec.safe tally -> Spec.fits wordCounts tally ->
  App.createStatsUpdater wordCounts (Spec.record tally)
  = Spec.record (Spec.addCounts wordCounts tally).
Proof.
  intros Hs Hfit. apply map_eq. intros w.
  rewrite createStatsUpdater_lookup, !record_lookup.
  unfold Spec.addCounts. rewrite lookup_union_with.
  destruct (wordCounts !! w) as [c|] eqn:Hc; [|by destruct (tally !! w)].
  destruct (Hfit w c Hc) as (Hplain & Hc0 & Hsum).
  pose proof (safe_count tally w Hs) as Hcount.
  rewrite decide_False by (intros [? _]; by apply plain_not_proto in Hplain).
  fold (PracticeScreen.usage (Spec.record tally) w).
  rewrite usage_record by done. cbn [Js.plus].
  unfold Spec.maxSafe in *.
  rewrite add_whole by lia. unfold Spec.count.
  by destruct (tally !! w).
Qed.

Lemma addCounts_count (wordCounts tally : gmap (list Z) Z) (w : jsstring) :
  Spec.count (Spec.addCounts wordCounts tally) w
  = Spec.count tally w + default 0 (wordCounts !! w).
Proof.
  unfold Spec.count, Spec.addCounts. rewrite lookup_union_with.
  destruct (wordCounts !! w), (tally !! w); simpl; lia.
Qed.

Lemma addCounts_safe (wordCounts tally : gmap (list Z) Z) :
  Spec.safe tally -> Spec.fits wordCounts tally ->
  Spec.safe (Spec.addCounts wordCounts tally).
Proof.
  intros Hs Hfit w z Hz. simpl.
  pose proof (addCounts_count wordCounts tally w) as Hc.
  unfold Spec.count at 1 in Hc. rewrite Hz in Hc. simpl in Hc.
  pose proof (safe_count tally w Hs).
  destruct (wordCounts !! w) as [c|] eqn:E; simpl in Hc.
  - destruct (Hfit w c E) as (_ & ? & ?). lia.
  - lia.
Qed.

Lemma countWord_positive (fuel : nat) (text word : jsstring)
  (counts counts' : gmap (list Z) Z) :
  PracticeScreen.countWord fuel text word counts = Some counts' ->
  map_Forall (fun _ c => 0 < c) counts ->
  map_Forall (fun _ c => 0 < c) counts'.
Proof.
  unfold PracticeScreen.countWord. intros Hrun Hpos.
  destruct (PracticeScreen.countLoop _ _ _ _ _) as [count|]; [|done].
  simpl in Hrun. injection Hrun as <-.
  destruct (Z.ltb_spec 0 count); [|done].
  unfold Js.assign.
  destruct (decide (word = Js.proto)); [destruct (counts !! word)|];
    try done; by apply map_Forall_insert_2.
Qed.

Lemma countFold_none (fuel : nat) (text : jsstring) (words : list jsstring) :
  fold_left
    (fun acc word => counts ← acc; PracticeScreen.countWord fuel text word counts)
    words None = None.
Proof. induction words as [|w ws IH]; [done|]. simpl. apply IH. Qed.

Lemma countFold_positive (fuel : nat) (text : jsstring)
  (words : list jsstring) (counts counts' : gmap (list Z) Z) :
  fold_left
    (fun acc word => counts ← acc; PracticeScreen.countWord fuel text word counts)
    words (Some counts) = Some counts' ->
  map_Forall (fun _ c => 0 < c) counts ->
  map_Forall (fun _ c => 0 < c) counts'.
Proof.
  revert counts. induction words as [|w ws IH]; intros counts Hrun Hpos.
  - simpl in Hrun. by injection Hrun as <-.
  - simpl in Hrun.
    destruct (PracticeScreen.countWord fuel text w counts) as [c1|] eqn:E.
    + eapply IH; [exact Hrun|]. eapply countWord_positive; eauto.
    + by rewrite countFold_none in Hrun.
Qed.

Lemma screenUpdate_positive (wordCounts : gmap (list Z) Z) :
  Spec.screenUpdate wordCounts -> map_Forall (fun _ c => 0 < c) wordCounts.
Proof.
  intros [fuel v text wc Hrun|target].
  - eapply countFold_positive; [exact Hrun|]. apply map_Forall_empty.
  - apply map_Forall_singleton. lia.
Qed.

End UpdaterFacts.

(** *** The visual mode's update (VisualQuizScreen.tsx: handleSubmit) *)

(** C8, the failing input. The quiz whose target word is [__proto__],
    answered correctly on totals that count another word: the answer is
    judged correct and the totals are left exactly as they were, so the
    weight 3 is not added. The updater reads [Object.prototype] under that
    name and its write goes to the setter, which drops it. For the target
    word [constructor] the total becomes a string, not 3. *)
Theorem correct_answer_without_reward :
  let stats := Spec.record {[ Sample.neko := 2 ]} in
  VisualQuizScreen.handleSubmit
    (Some {| VisualQuizScreen.originalSentence := Js.proto;
             VisualQuizScreen.targetWord := Js.proto |})
    Js.proto VisualQuizScreen.idle stats
  = (VisualQuizScreen.correct, stats) /\
  VisualQuizScreen.handleSubmit
    (Some {| VisualQuizScreen.originalSentence := Js.constructor;
             VisualQuizScreen.targetWord := Js.constructor |})
    Js.constructor VisualQuizScreen.idle ∅
  = (VisualQuizScreen.correct,
     {[ Js.constructor := Js.Text (Js.Function Js.constructor) [0x33] ]}).
Proof. split; vm_compute; reflexivity. Qed.

(** X22. In visual mode the totals change only on a correct answer: a
    wrong answer (and a submit without a quiz on screen) leaves them as
    they were. A correct answer, when the target word is no property of
    [Object.prototype] and the totals are whole numbers with the target's
    total at most 2^53 - 4, adds exactly 3 to the target word's total and
    leaves every other word's total untouched. *)
Theorem visual_update_only_when_correct
  (quiz : VisualQuizScreen.VisualQuizData) (userInput : jsstring)
  (validationState : VisualQuizScreen.ValidationState) (stats : WordStats)
  (tally : gmap (list Z) Z) :
  let target := VisualQuizScreen.targetWord quiz in
  VisualQuizScreen.handleSubmit None userInput validationState stats
  = (validationState, stats) /\
  (VisualQuizScreen.normalizeJapanese userInput
   <> VisualQuizScreen.normalizeJapanese target ->
   VisualQuizScreen.handleSubmit (Some quiz) userInput validationState stats
   = (VisualQuizScreen.incorrect, stats)) /\
  (VisualQuizScreen.normalizeJapanese userInput
   = VisualQuizScreen.normalizeJapanese target ->
   Spec.plain target -> Spec.safe tally ->
   Spec.count tally target + 3 <= Spec.maxSafe ->
   VisualQuizScreen.handleSubmit (Some quiz) userInput validationState
     (Spec.record tally)
   = (VisualQuizScreen.correct,
      Spec.record (<[target := Spec.count tally target + 3]> tally))).
Proof.
  intros target. subst target.
  split; [reflexivity|]. unfold VisualQuizScreen.handleSubmit.
  split.
  - intros Hcmp. by rewrite bool_decide_eq_false_2.
  - intros Hcmp Hplain Hsafe Hsum.
    rewrite bool_decide_eq_true_2 by done. f_equal.
    rewrite createStatsUpdater_record; [|done|].
    + f_equal. apply map_eq. intros w. unfold Spec.addCounts.
      rewrite lookup_union_with.
      destruct (decide (w = VisualQuizScreen.targetWord quiz)) as [->|Hne].
      * rewrite lookup_singleton_eq, lookup_insert_eq. unfold Spec.count.
        by destruct (tally !! _).
      * rewrite lookup_singleton_ne, lookup_insert_ne by done.
        by destruct (tally !! w).
    + intros w c Hw. apply lookup_singleton_Some in Hw as [<- <-].
      split; [done|]. split; [lia|done].
Qed.

(** A correct answer typed with a space, on totals where the target word
    stood at 1 and another word at 7. *)
Lemma visual_update_example :
  let quiz := {| VisualQuizScreen.originalSentence := Sample.nekoSentence;
                 VisualQuizScreen.targetWord := Sample.neko |} in
  let tally : gmap (list Z) Z := {[ Sample.neko := 1; Sample.mizu := 7 ]} in
  VisualQuizScreen.normalizeJapanese [Sample.ne; Sample.space; Sample.ko]
  = VisualQuizScreen.normalizeJapanese Sample.neko /\
  Spec.plain Sample.neko /\
  Spec.count tally Sample.neko + 3 <= Spec.maxSafe /\
  VisualQuizScreen.handleSubmit (Some quiz)
    [Sample.ne; Sample.space; Sample.ko] VisualQuizScreen.idle
    (Spec.record tally)
  = (VisualQuizScreen.correct,
     Spec.record {[ Sample.neko := 4; Sample.mizu := 7 ]}).
Proof.
  intros quiz tally.
  assert (Hcmp :
    VisualQuizScreen.normalizeJapanese [Sample.ne; Sample.space; Sample.ko]
    = VisualQuizScreen.normalizeJapanese Sample.neko) by reflexivity.
  assert (Hplain : Spec.plain Sample.neko) by reflexivity.
  assert (Hsum : Spec.count tally Sample.neko + 3 <= Spec.maxSafe)
    by (vm_compute; discriminate).
  assert (Hsafe : Spec.safe tally).
  { intros w z Hw. simpl. unfold Spec.maxSafe.
    apply lookup_insert_Some in Hw as [[_ <-]|[_ Hw]]; [lia|].
    apply lookup_singleton_Some in Hw as [_ <-]. lia. }
  split; [exact Hcmp|]. split; [exact Hplain|]. split; [exact Hsum|].
  destruct (visual_update_only_when_correct quiz
              [Sample.ne; Sample.space; Sample.ko] VisualQuizScreen.idle
              (Spec.record tally) tally)
    as (_ & _ & Hok).
  etrans; [exact (Hok Hcmp Hplain Hsafe Hsum)|].
  vm_compute. reflexivity.
Defined.

(** *** Start-up (App.tsx: the initialisation effect) *)

Section Startup.

Variable JSON_parse : jsstring -> App.completion WordStats.
Variable envKey : option jsstring.
Variable localStorage : App.Storage.

Lemma loadStats_completes (saved : option jsstring) (current : WordStats) :
  exists stats,
    App.loadStats JSON_parse saved current = App.Normal stats /\
    (forall text, saved = Some text -> JSON_parse text = App.Throw ->
                  stats = current).
Proof.
  unfold App.loadStats. destruct (App.truthy saved) eqn:Ht.
  - destruct saved as [text|]; [|done]. simpl.
    destruct (JSON_parse text) as [parsed|] eqn:Ep; simpl.
    + exists parsed. split; [done|]. intros ? [= <-] ?. congruence.
    + exists current. split; [done|]. done.
  - exists current. split; done.
Qed.

Lemma initialization_completes (st0 : App.AppData) :
  exists st,
    App.initialization JSON_parse envKey localStorage st0 = App.Normal st /\
    App.isInitialized st = true /\
    (forall text,
       localStorage App.hiragana_practice_reading_stats = Some text ->
       JSON_parse text = App.Throw ->
       App.readingStats st = App.readingStats st0) /\
    (forall text,
       localStorage App.hiragana_practice_writing_stats = Some text ->
       JSON_parse text = App.Throw ->
       App.writingStats st = App.writingStats st0) /\
    (forall text,
       localStorage App.hiragana_practice_visual_stats = Some text ->
       JSON_parse text = App.Throw ->
       App.visualStats st = App.visualStats st0).
Proof.
  unfold App.initialization.
  destruct (if App.truthy envKey then _ else _) as [apiKey1 view1].
  destruct (loadStats_completes
              (localStorage App.hiragana_practice_reading_stats)
              (App.readingStats st0)) as (r & -> & Hr).
  destruct (loadStats_completes
              (localStorage App.hiragana_practice_writing_stats)
              (App.writingStats st0)) as (w & -> & Hw).
  destruct (loadStats_completes
              (localStorage App.hiragana_practice_visual_stats)
              (App.visualStats st0)) as (v & -> & Hv).
  eexists. split; [reflexivity|]. simpl. auto.
Qed.

End Startup.

(** C9. Whatever the parser, the environment and the store hold, the
    start-up effect completes without throwing and marks the application
    initialised; and for each mode whose stored statistics text makes the
    parser throw, that mode's totals are left as the empty mapping. *)
Theorem corrupt_stats_fall_back_to_empty
  (JSON_parse : jsstring -> App.completion WordStats)
  (envKey : option jsstring) (localStorage : App.Storage) :
  exists st,
    App.initialization JSON_parse envKey localStorage App.initialAppData
    = App.Normal st /\
    App.isInitialized st = true /\
    (forall text,
       localStorage App.hiragana_practice_reading_stats = Some text ->
       JSON_parse text = App.Throw -> App.readingStats st = ∅) /\
    (forall text,
       localStorage App.hiragana_practice_writing_stats = Some text ->
       JSON_parse text = App.Throw -> App.writingStats st = ∅) /\
    (forall text,
       localStorage App.hiragana_practice_visual_stats = Some text ->
       JSON_parse text = App.Throw -> App.visualStats st = ∅).
Proof.
  exact (initialization_completes JSON_parse envKey localStorage
           App.initialAppData).
Qed.

(** A store whose reading statistics are a lone opening brace, with a
    parser that accepts the text of the empty object only. *)
Lemma corrupt_stats_example :
  let parseEmptyObject (text : jsstring) : App.completion WordStats :=
    if bool_decide (text = [0x7B; 0x7D]) then App.Normal ∅ else App.Throw in
  let store (k : App.StorageKey) : option jsstring :=
    match k with
    | App.hiragana_practice_reading_stats => Some [0x7B]
    | _ => None
    end in
  store App.hiragana_practice_reading_stats = Some [0x7B] /\
  parseEmptyObject [0x7B] = App.Throw /\
  exists st,
    App.initialization parseEmptyObject None store App.initialAppData
    = App.Normal st /\
    App.isInitialized st = true /\ App.readingStats st = ∅.
Proof.
  intros parseEmptyObject store.
  split; [reflexivity|]. split; [reflexivity|].
  destruct (corrupt_stats_fall_back_to_empty parseEmptyObject None store)
    as (st & Hrun & Hinit & Hreading & _).
  exists st. split; [exact Hrun|]. split; [exact Hinit|].
  apply (Hreading [0x7B]); reflexivity.
Defined.

(** *** Monotone totals (App.tsx: createStatsUpdater) *)

(** C4, the failing input. The vocabulary with the one word
    [constructor] and empty totals: the word has no entry, yet the screens
    do not read 0 for it but the function that [Object.prototype] holds
    under that name; the scan of a text that shows the word once counts 1,
    and the updater, adding 1 to what it has read, stores a string: the
    text of the function followed by the digit 1. *)
Theorem inherited_word_total_is_not_a_count :
  let vocabulary := App.handleStartPractice Js.constructor [] in
  validHiraganaWords vocabulary = [Js.constructor] /\
  PracticeScreen.usage ∅ Js.constructor
  = Js.Object (Js.Function Js.constructor) /\
  PracticeScreen.countUsedWords 20 vocabulary Js.constructor
  = Some {[ Js.constructor := 1 ]} /\
  PracticeScreen.processNewSentence 20 vocabulary Js.constructor ∅
  = Some {[ Js.constructor := Js.Text (Js.Function Js.constructor) [0x31] ]}.
Proof. repeat split; vm_compute; reflexivity. Qed.

(** X21. Along any sequence of updates that the screens hand to the
    statistics updater, every amount added is positive. When the totals
    are whole numbers, the words updated are no properties of
    [Object.prototype] and no sum goes beyond 2^53 - 1, the totals stay
    whole numbers, the total of each word (0 for a word without an entry)
    never decreases, and a word that has an entry keeps one. *)
Theorem stats_counts_never_decrease
  (updates : list (gmap (list Z) Z)) (tally : gmap (list Z) Z) :
  Forall Spec.screenUpdate updates ->
  Spec.safe tally -> Spec.fitsAll updates tally ->
  Forall (map_Forall (fun _ count => 0 < count)) updates /\
  exists tally',
    Spec.applyUpdates updates (Spec.record tally) = Spec.record tally' /\
    Spec.safe tally' /\
    forall w,
      Spec.count tally w <= Spec.count tally' w /\
      (is_Some (tally !! w) -> is_Some (tally' !! w)).
Proof.
  intros Hall Hsafe0 Hfit0. split.
  { eapply Forall_impl; [exact Hall|]. exact screenUpdate_positive. }
  revert tally Hsafe0 Hfit0.
  induction Hall as [|wc updates Hwc Hall IH]; intros tally Hsafe Hfit.
  - exists tally. split; [done|]. split; [done|]. intros w. split; [lia|done].
  - destruct Hfit as [Hfit Hrest]. simpl.
    rewrite createStatsUpdater_record by done.
    destruct (IH (Spec.addCounts wc tally)
                (addCounts_safe wc tally Hsafe Hfit) Hrest)
      as (tally' & Hrun & Hsafe' & Hmono).
    exists tally'. split; [done|]. split; [done|]. intros w.
    destruct (Hmono w) as [Hle Hkeep]. split.
    + etrans; [|exact Hle]. rewrite addCounts_count.
      destruct (wc !! w) as [c|] eqn:E; simpl; [|lia].
      destruct (Hfit w c E) as (_ & ? & _). lia.
    + intros Hw. apply Hkeep. unfold Spec.addCounts.
      rewrite lookup_union_with. destruct Hw as [z ->].
      by destruct (wc !! w).
Qed.

(** A reading update followed by a visual one, on totals that already
    count one of the words. *)
Lemma stats_counts_example :
  let scanned : gmap (list Z) Z := {[ Sample.neko := 2 ]} in
  let updates := [scanned; {[ Sample.neko := 3 ]}] in
  let tally : gmap (list Z) Z := {[ Sample.neko := 1 ]} in
  Forall Spec.screenUpdate updates /\
  Spec.safe tally /\ Spec.fitsAll updates tally /\
  Spec.applyUpdates updates (Spec.record tally)
  = Spec.record {[ Sample.neko := 6 ]} /\
  exists tally',
    Spec.applyUpdates updates (Spec.record tally) = Spec.record tally' /\
    Spec.count tally Sample.neko <= Spec.count tally' Sample.neko.
Proof.
  intros scanned updates tally.
  assert (Hall : Forall Spec.screenUpdate updates).
  { repeat constructor.
    apply (Spec.update_scanned 20 Sample.scenario Sample.nekoSentence).
    vm_compute. reflexivity. }
  assert (Hsafe : Spec.safe tally).
  { intros w z Hw. apply lookup_singleton_Some in Hw as [_ <-].
    simpl. unfold Spec.maxSafe. lia. }
  assert (Hfit : Spec.fitsAll updates tally).
  { split; [|split; [|exact I]].
    - intros w c Hw. apply lookup_singleton_Some in Hw as [<- <-].
      split; [reflexivity|]. vm_compute. split; discriminate.
    - intros w c Hw. apply lookup_singleton_Some in Hw as [<- <-].
      split; [reflexivity|]. vm_compute. split; discriminate. }
  split; [exact Hall|]. split; [exact Hsafe|]. split; [exact Hfit|].
  split; [vm_compute; reflexivity|].
  destruct (stats_counts_never_decrease updates tally Hall Hsafe Hfit)
    as (_ & tally' & Hrun & _ & Hmono).
  exists tally'. split; [exact Hrun|]. exact (proj1 (Hmono Sample.neko)).
Defined.

(** *** Sorting by usage and the suggestion selector *)

Section SortFacts.

Lemma insertInto_perm (cmp : JsArray.comparator) (x : jsstring)
  (sorted : list jsstring) (g : Rng) :
  (JsArray.insertInto cmp x sorted g).1 ≡ₚ x :: sorted.
Proof.
  revert g. induction sorted as [|y rest IH]; intros g; simpl; [done|].
  destruct (cmp x y g) as [order g1].
  destruct (negb (Qle_bool 0 order)); simpl; [done|].
  specialize (IH g1).
  destruct (JsArray.insertInto cmp x rest g1) as [placed g2]. simpl in *.
  rewrite IH. apply Permutation_swap.
Qed.

Lemma sort_from_perm (cmp : JsArray.comparator) (xs acc : list jsstring)
  (g : Rng) :
  (fold_left (fun acc x => JsArray.insertInto cmp x acc.1 acc.2) xs (acc, g)).1
  ≡ₚ xs ++ acc.
Proof.
  revert acc g. induction xs as [|x xs IH]; intros acc g; simpl; [done|].
  pose proof (insertInto_perm cmp x acc g) as Hins.
  destruct (JsArray.insertInto cmp x acc g) as [acc1 g1]. simpl in Hins.
  rewrite IH, Hins. by rewrite Permutation_middle.
Qed.

Lemma sort_perm (cmp : JsArray.comparator) (xs : list jsstring) (g : Rng) :
  (JsArray.sort cmp xs g).1 ≡ₚ xs.
Proof.
  unfold JsArray.sort. rewrite sort_from_perm. by rewrite app_nil_r.
Qed.

Lemma Qle_bool_inject (d : Z) : Qle_bool 0 (inject_Z d) = (0 <=? d).
Proof. unfold Qle_bool, inject_Z. simpl. by rewrite !Z.mul_1_r. Qed.

Lemma slice_front (xs : list jsstring) (n : Z) :
  0 <= n -> JsArray.slice xs 0 n = take (Z.to_nat n) xs.
Proof.
  intros Hn. unfold JsArray.slice, JsArray.relativeIndex.
  rewrite (proj2 (Z.ltb_ge 0 0)) by lia.
  rewrite (proj2 (Z.ltb_ge n 0)) by lia.
  replace (Z.to_nat (Z.min 0 (Z.of_nat (length xs)))) with 0%nat by lia.
  rewrite drop_0.
  destruct (Z.le_gt_cases n (Z.of_nat (length xs))).
  - f_equal. lia.
  - rewrite !take_ge by lia. done.
Qed.

(** The selector returns the first three of the sorted learning pool
    followed by the front of the sorted known pool. *)
Lemma getSuggestedWords_shape (wordStats : WordStats)
  (vocabulary : AnalyzedVocabulary) (g : Rng) :
  let sortedLearning :=
    JsArray.sort (PracticeScreen.sortByUsage wordStats)
      (learningWords vocabulary) g in
  let sortedKnown :=
    JsArray.sort (PracticeScreen.sortByUsage wordStats)
      (PracticeScreen.knownPool vocabulary) sortedLearning.2 in
  sortedLearning.1 ≡ₚ learningWords vocabulary /\
  sortedKnown.1 ≡ₚ PracticeScreen.knownPool vocabulary /\
  PracticeScreen.getSuggestedWords vocabulary wordStats g
  = (take 3 sortedLearning.1
       ++ take (5 - length (take 3 sortedLearning.1)) sortedKnown.1,
     sortedKnown.2).
Proof.
  intros sortedLearning sortedKnown. subst sortedKnown sortedLearning.
  unfold PracticeScreen.getSuggestedWords.
  pose proof (sort_perm (PracticeScreen.sortByUsage wordStats)
                (learningWords vocabulary) g) as Hp1.
  destruct (JsArray.sort _ (learningWords vocabulary) g)
    as [sortedLearning g1].
  pose proof (sort_perm (PracticeScreen.sortByUsage wordStats)
                (PracticeScreen.knownPool vocabulary) g1) as Hp2.
  cbn [fst snd] in *.
  destruct (JsArray.sort _ (PracticeScreen.knownPool vocabulary) g1)
    as [sortedKnown g2].
  cbn [fst snd] in *.
  repeat (split; [done|]).
  rewrite !slice_front by lia.
  assert (Hfront :
    take (Z.to_nat (Z.min 3 (Z.of_nat (length sortedLearning)))) sortedLearning
    = take 3 sortedLearning).
  { destruct (Nat.le_gt_cases 3 (length sortedLearning)).
    - f_equal. lia.
    - rewrite !take_ge by lia. done. }
  rewrite Hfront. f_equal. f_equal. f_equal.
  rewrite length_take. lia.
Qed.

Variable tally : gmap (list Z) Z.
Hypothesis tally_safe : Spec.safe tally.

(** On whole-number totals and between two words that are no properties
    of [Object.prototype], the comparator says "less" only for a word used
    no more often, and "not less" only for a word used no less often. *)
Lemma sortByUsage_record (a b : jsstring) (g : Rng) :
  Spec.plain a -> Spec.plain b ->
  let order := (PracticeScreen.sortByUsage (Spec.record tally) a b g).1 in
  (negb (Qle_bool 0 order) = true -> Spec.noMoreUsed tally a b) /\
  (negb (Qle_bool 0 order) = false -> Spec.noMoreUsed tally b a).
Proof.
  intros Ha Hb. unfold PracticeScreen.sortByUsage, Spec.noMoreUsed.
  rewrite !usage_record by done.
  pose proof (safe_count tally a tally_safe) as Hca.
  pose proof (safe_count tally b tally_safe) as Hcb.
  unfold Spec.maxSafe in *. pose proof one_positive as Hone.
  rewrite !ofZ_whole by lia. cbn [Js.strictEquals].
  case_bool_decide as Heq.
  - injection Heq as Heq. assert (Spec.count tally a = Spec.count tally b)
      by nia.
    destruct (JsArray.Math_random g) as [r g']. cbn [fst]. lia.
  - unfold Js.minus, Js.sub. cbn [Js.ToNumber Js.negate Js.add fst].
    replace (Spec.count tally a * Js.one + - (Spec.count tally b * Js.one))
      with ((Spec.count tally a - Spec.count tally b) * Js.one) by lia.
    rewrite round_whole by lia. cbn [JsArray.sortCompare].
    rewrite Qle_bool_inject. split.
    + rewrite negb_true_iff. intros H%Z.leb_gt. nia.
    + rewrite negb_false_iff. intros H%Z.leb_le. nia.
Qed.

Lemma insertInto_sorted (x : jsstring) (sorted : list jsstring) (g : Rng) :
  Spec.plain x -> Forall Spec.plain sorted ->
  StronglySorted (Spec.noMoreUsed tally) sorted ->
  StronglySorted (Spec.noMoreUsed tally)
    (JsArray.insertInto (PracticeScreen.sortByUsage (Spec.record tally))
       x sorted g).1.
Proof.
  intros Hx. revert g.
  induction sorted as [|y rest IH]; intros g Hplain Hs; simpl.
  { repeat constructor. }
  apply StronglySorted_inv in Hs as [Hrest Hy].
  apply Forall_cons in Hplain as [Hpy Hprest].
  pose proof (insertInto_perm
                (PracticeScreen.sortByUsage (Spec.record tally)) x rest)
    as Hperm.
  destruct (sortByUsage_record x y g Hx Hpy) as [Hlt Hge].
  destruct (PracticeScreen.sortByUsage (Spec.record tally) x y g)
    as [order g1].
  cbn [fst] in Hlt, Hge.
  destruct (negb (Qle_bool 0 order)).
  - simpl. specialize (Hlt eq_refl).
    constructor; [by constructor|].
    constructor; [exact Hlt|].
    eapply Forall_impl; [exact Hy|].
    intros z Hz. unfold Spec.noMoreUsed in *. lia.
  - specialize (Hge eq_refl). specialize (IH g1 Hprest Hrest).
    specialize (Hperm g1).
    destruct (JsArray.insertInto _ x rest g1) as [placed g2]. simpl in *.
    constructor; [exact IH|].
    rewrite Hperm. constructor; [exact Hge|exact Hy].
Qed.

Lemma sort_from_sorted (xs acc : list jsstring) (g : Rng) :
  Forall Spec.plain xs -> Forall Spec.plain acc ->
  StronglySorted (Spec.noMoreUsed tally) acc ->
  StronglySorted (Spec.noMoreUsed tally)
    (fold_left
       (fun acc x =>
          JsArray.insertInto (PracticeScreen.sortByUsage (Spec.record tally))
            x acc.1 acc.2)
       xs (acc, g)).1.
Proof.
  revert acc g.
  induction xs as [|x xs IH]; intros acc g Hxs Hpacc Hacc; simpl; [done|].
  apply Forall_cons in Hxs as [Hx Hxs].
  pose proof (insertInto_sorted x acc g Hx Hpacc Hacc) as Hins.
  pose proof (insertInto_perm
                (PracticeScreen.sortByUsage (Spec.record tally)) x acc g)
    as Hperm.
  destruct (JsArray.insertInto _ x acc g) as [acc1 g1]. cbn [fst] in *.
  apply IH; [done| |done]. rewrite Hperm. by constructor.
Qed.

Lemma sort_sorted (xs : list jsstring) (g : Rng) :
  Forall Spec.plain xs ->
  StronglySorted (Spec.noMoreUsed tally)
    (JsArray.sort (PracticeScreen.sortByUsage (Spec.record tally)) xs g).1.
Proof.
  intros Hxs. apply sort_from_sorted; [done|constructor|constructor].
Qed.

End SortFacts.

(** C3, the failing input. Learning words [neko], [mizu], [momo] and
    [constructor], in this order, with totals 1, 2 and 3 for the first
    three and no entry for the fourth: the selector suggests the three
    words that have been used and leaves out the one that has never been
    used. Under the name [constructor] the comparator reads a function,
    its difference with any count is [NaN], which the sort takes for
    "equal", so the word is never moved in front of a used one. No random
    number is drawn. *)
Theorem unused_inherited_word_is_passed_over :
  let vocabulary :=
    App.handleStartPractice []
      (Sample.neko ++ [Sample.space] ++ Sample.mizu ++ [Sample.space]
         ++ Sample.momo ++ [Sample.space] ++ Js.constructor) in
  let tally : gmap (list Z) Z :=
    {[ Sample.neko := 1; Sample.mizu := 2; Sample.momo := 3 ]} in
  learningWords vocabulary
  = [Sample.neko; Sample.mizu; Sample.momo; Js.constructor] /\
  Spec.count tally Js.constructor = 0 /\
  (PracticeScreen.sortByUsage (Spec.record tally) Js.constructor Sample.neko
     Sample.noRandomness).1 = 0%Q /\
  PracticeScreen.getSuggestedWords vocabulary (Spec.record tally)
    Sample.noRandomness
  = ([Sample.neko; Sample.mizu; Sample.momo], Sample.noRandomness).
Proof. repeat split; vm_compute; reflexivity. Qed.

(** X20. For a vocabulary without repeated words whose words are no
    properties of [Object.prototype], whole-number totals up to 2^53 - 1
    and any random stream, the selector returns its pick from the learning
    pool followed by its pick from the known pool; the result has at most 5
    words and no word twice; the learning pick consists of min(3, size of
    the learning pool) learning words, none of them used more often than
    a learning word left out; and the known pick consists of
    min(size of the known pool, max(0, 5 - learning words taken)) words of
    the known pool, again the least used ones. *)
Theorem suggestions_bounded_distinct_learning_first
  (vocabulary : AnalyzedVocabulary) (tally : gmap (list Z) Z) (g : Rng) :
  NoDup (validHiraganaWords vocabulary) ->
  NoDup (learningWords vocabulary) ->
  Forall Spec.plain (validHiraganaWords vocabulary) ->
  Forall Spec.plain (learningWords vocabulary) ->
  Spec.safe tally ->
  let suggestions :=
    (PracticeScreen.getSuggestedWords vocabulary (Spec.record tally) g).1 in
  exists selectedLearning selectedKnown,
    suggestions = selectedLearning ++ selectedKnown /\
    (length suggestions <= 5)%nat /\
    NoDup suggestions /\
    length selectedLearning
    = Nat.min 3 (length (learningWords vocabulary)) /\
    (forall w, w ∈ selectedLearning -> w ∈ learningWords vocabulary) /\
    (forall a b,
       a ∈ selectedLearning -> b ∈ learningWords vocabulary ->
       b ∉ selectedLearning -> Spec.noMoreUsed tally a b) /\
    Z.of_nat (length selectedKnown)
    = Z.min (Z.of_nat (length (PracticeScreen.knownPool vocabulary)))
        (Z.max 0 (5 - Z.of_nat (length selectedLearning))) /\
    (forall w, w ∈ selectedKnown ->
               w ∈ validHiraganaWords vocabulary /\
               w ∉ learningWords vocabulary) /\
    (forall a b,
       a ∈ selectedKnown -> b ∈ PracticeScreen.knownPool vocabulary ->
       b ∉ selectedKnown -> Spec.noMoreUsed tally a b).
Proof.
  intros Hvalid Hlearning Hpv Hpl Hsafe suggestions. subst suggestions.
  destruct (getSuggestedWords_shape (Spec.record tally) vocabulary g)
    as (Hpl' & Hpk & ->).
  pose proof (sort_sorted tally Hsafe (learningWords vocabulary) g Hpl)
    as Hsl.
  assert (Hpknown : Forall Spec.plain (PracticeScreen.knownPool vocabulary)).
  { apply Forall_forall. intros w Hw. unfold PracticeScreen.knownPool in Hw.
    apply list_elem_of_filter in Hw as [_ Hw].
    by apply (proj1 (Forall_forall _ _) Hpv). }
  set (sorted1 := JsArray.sort _ (learningWords vocabulary) g) in *.
  pose proof (sort_sorted tally Hsafe (PracticeScreen.knownPool vocabulary)
                sorted1.2 Hpknown) as Hsk.
  set (sorted2 := JsArray.sort _ (PracticeScreen.knownPool vocabulary) _)
    in *.
  set (sl := sorted1.1) in *. set (sk := sorted2.1) in *. cbn [fst].
  assert (Hleft : forall (l : list jsstring) n R a b,
            StronglySorted R l -> a ∈ take n l -> b ∈ l -> b ∉ take n l ->
            R a b).
  { intros l n R a b Hs Ha Hb Hnb.
    rewrite <- (take_drop n l) in Hs, Hb.
    apply elem_of_app in Hb as [Hb|Hb]; [done|].
    eapply StronglySorted_app_1_elem_of; eauto. }
  assert (Hknown : forall w, w ∈ sk ->
            w ∈ validHiraganaWords vocabulary /\ w ∉ learningWords vocabulary).
  { intros w Hw. rewrite Hpk in Hw. unfold PracticeScreen.knownPool in Hw.
    apply list_elem_of_filter in Hw. tauto. }
  exists (take 3 sl), (take (5 - length (take 3 sl)) sk).
  split; [done|]. split.
  { rewrite length_app, !length_take. lia. }
  split.
  { apply NoDup_app. split; [|split].
    - eapply sublist_NoDup; [|apply sublist_take]. by rewrite Hpl'.
    - intros w Hw1 Hw2.
      apply subseteq_take in Hw1. apply subseteq_take in Hw2.
      rewrite Hpl' in Hw1. by apply Hknown in Hw2 as [_ ?].
    - eapply sublist_NoDup; [|apply sublist_take]. rewrite Hpk.
      by apply NoDup_filter. }
  split.
  { by rewrite length_take, Hpl'. }
  split.
  { intros w Hw. apply subseteq_take in Hw. by rewrite Hpl' in Hw. }
  split.
  { intros a b Ha Hb Hnb. rewrite <- Hpl' in Hb.
    exact (Hleft sl _ _ a b Hsl Ha Hb Hnb). }
  split.
  { rewrite !length_take, <- Hpk. lia. }
  split.
  { intros w Hw. apply subseteq_take in Hw. by apply Hknown. }
  intros a b Ha Hb Hnb. rewrite <- Hpk in Hb.
  exact (Hleft sk _ _ a b Hsk Ha Hb Hnb).
Qed.

(** The end-to-end scenario: two known words, one learning word, no
    statistics yet. All three words are suggested, the learning word
    first. *)
Lemma suggestions_scenario :
  NoDup (validHiraganaWords Sample.scenario) /\
  NoDup (learningWords Sample.scenario) /\
  Forall Spec.plain (validHiraganaWords Sample.scenario) /\
  Forall Spec.plain (learningWords Sample.scenario) /\
  exists selectedLearning selectedKnown,
    (PracticeScreen.getSuggestedWords Sample.scenario (Spec.record ∅)
       Sample.noRandomness).1
    = selectedLearning ++ selectedKnown /\
    length selectedLearning = 1%nat /\
    Z.of_nat (length selectedKnown) = 2.
Proof.
  assert (Hv : NoDup (validHiraganaWords Sample.scenario)).
  { refine (bool_decide_unpack (NoDup _) _). vm_compute. exact I. }
  assert (Hl : NoDup (learningWords Sample.scenario)).
  { refine (bool_decide_unpack (NoDup _) _). vm_compute. exact I. }
  assert (Hpv : Forall Spec.plain (validHiraganaWords Sample.scenario)).
  { repeat constructor. }
  assert (Hpl : Forall Spec.plain (learningWords Sample.scenario)).
  { repeat constructor. }
  split; [exact Hv|]. split; [exact Hl|]. split; [exact Hpv|].
  split; [exact Hpl|].
  destruct (suggestions_bounded_distinct_learning_first Sample.scenario ∅
              Sample.noRandomness Hv Hl Hpv Hpl (map_Forall_empty _))
    as (sl & sk & Heq & _ & _ & Hn & _ & _ & Hk & _).
  exists sl, sk. split; [exact Heq|]. split; [exact Hn|].
  rewrite Hk, Hn. vm_compute. reflexivity.
Defined.

(** C10. When the known pool is empty and the learning pool has more than
    3 words, the selector returns exactly 3 words, all from the learning
    pool: the cap of 3 applies although more words are at hand. *)
Theorem learning_cap_three_without_known_words
  (vocabulary : AnalyzedVocabulary) (wordStats : WordStats) (g : Rng) :
  PracticeScreen.knownPool vocabulary = [] ->
  (3 < length (learningWords vocabulary))%nat ->
  length (PracticeScreen.getSuggestedWords vocabulary wordStats g).1 = 3%nat /\
  forall w,
    w ∈ (PracticeScreen.getSuggestedWords vocabulary wordStats g).1 ->
    w ∈ learningWords vocabulary.
Proof.
  intros Hknown Hmany.
  destruct (getSuggestedWords_shape wordStats vocabulary g)
    as (Hpl & Hpk & ->).
  cbn [fst].
  assert (Hsk :
    (JsArray.sort (PracticeScreen.sortByUsage wordStats)
       (PracticeScreen.knownPool vocabulary)
       (JsArray.sort (PracticeScreen.sortByUsage wordStats)
          (learningWords vocabulary) g).2).1 = []).
  { apply Permutation_nil_r. etrans; [exact Hpk|]. by rewrite Hknown. }
  rewrite Hsk, take_nil, app_nil_r. split.
  - rewrite length_take, Hpl. lia.
  - intros w Hw. apply subseteq_take in Hw. by rewrite Hpl in Hw.
Qed.

(** Five learning words and no known word: three suggestions. *)
Lemma learning_cap_example :
  PracticeScreen.knownPool Sample.onlyLearning = [] /\
  (3 < length (learningWords Sample.onlyLearning))%nat /\
  length
    (PracticeScreen.getSuggestedWords Sample.onlyLearning ∅
       Sample.noRandomness).1 = 3%nat.
Proof.
  assert (Hk : PracticeScreen.knownPool Sample.onlyLearning = []).
  { vm_compute. reflexivity. }
  assert (Hm : (3 < length (learningWords Sample.onlyLearning))%nat).
  { vm_compute. lia. }
  split; [exact Hk|]. split; [exact Hm|].
  exact (proj1 (learning_cap_three_without_known_words Sample.onlyLearning ∅
                  Sample.noRandomness Hk Hm)).
Defined.

(** *** Counting the used words (PracticeScreen.tsx, WritingPracticeScreen.tsx) *)

Section CountingFacts.

Lemma startsWith_nil_r (word : jsstring) :
  word <> [] -> Js.startsWith word [] = false.
Proof. by destruct word. Qed.

Lemma occurrences_nonneg (word text : jsstring) :
  0 <= Spec.occurrences word text.
Proof.
  induction text as [|c text IH]; simpl; [lia|].
  destruct (Js.startsWith word (c :: text)); lia.
Qed.

Lemma occurrences_le_length (word text : jsstring) :
  Spec.occurrences word text <= Z.of_nat (length text).
Proof.
  induction text as [|c text IH]; simpl length; [simpl; lia|].
  change (Spec.occurrences word (c :: text))
    with ((if Js.startsWith word (c :: text) then 1 else 0)
          + Spec.occurrences word text).
  destruct (Js.startsWith word (c :: text)); lia.
Qed.

(** What one search tells about the occurrences in the suffix searched. *)
Lemma searchFrom_spec (word s : jsstring) (k : Z) :
  word <> [] -> 0 <= k ->
  let j := Js.searchFrom word s k in
  (j = -1 /\ Spec.occurrences word s = 0) \/
  (k <= j < k + Z.of_nat (length s) /\
   Spec.occurrences word s
   = 1 + Spec.occurrences word (drop (Z.to_nat (j - k + 1)) s)).
Proof.
  intros Hword. revert k. induction s as [|c s IH]; intros k Hk; simpl.
  - rewrite startsWith_nil_r by done. by left.
  - destruct (Js.startsWith word (c :: s)) eqn:Hhead.
    + right. split; [lia|].
      replace (Z.to_nat (k - k + 1)) with 1%nat by lia.
      simpl. by rewrite ?drop_0.
    + destruct (IH (k + 1) ltac:(lia)) as [[Hj Hocc]|[Hj Hocc]].
      * left. split; [done|lia].
      * right. split; [lia|].
        replace (Z.to_nat (Js.searchFrom word s (k + 1) - k + 1))
          with (S (Z.to_nat (Js.searchFrom word s (k + 1) - (k + 1) + 1)))
          by lia.
        simpl. lia.
Qed.

Lemma indexOf_in_range (text word : jsstring) (p : Z) :
  0 <= p <= Z.of_nat (length text) ->
  Js.indexOf text word p = Js.searchFrom word (drop (Z.to_nat p) text) p.
Proof.
  intros Hp. unfold Js.indexOf.
  by replace (Z.min (Z.max p 0) (Z.of_nat (length text))) with p by lia.
Qed.

(** With fuel for one search per remaining offset and one more, the loop
    ends, and it has counted every offset at which the word occurs. *)
Lemma countLoop_spec (text word : jsstring) (fuel : nat) (p count : Z) :
  word <> [] ->
  0 <= p <= Z.of_nat (length text) ->
  (Z.of_nat (length text) - p + 1 < Z.of_nat fuel) ->
  PracticeScreen.countLoop fuel text word (Js.indexOf text word p) count
  = Some (count + Spec.occurrences word (drop (Z.to_nat p) text)).
Proof.
  intros Hword. revert p count.
  induction fuel as [|fuel IH]; intros p count Hp Hfuel; [lia|].
  rewrite indexOf_in_range by done. simpl.
  pose proof (searchFrom_spec word (drop (Z.to_nat p) text) p Hword
                ltac:(lia)) as Hsearch.
  simpl in Hsearch. rewrite length_drop in Hsearch.
  destruct Hsearch as [[-> Hocc]|[Hj Hocc]].
  - simpl. rewrite Hocc. f_equal. lia.
  - set (j := Js.searchFrom word (drop (Z.to_nat p) text) p) in *.
    destruct (Z.eqb_spec j (-1)) as [E|_]; [lia|]. simpl.
    rewrite IH by lia. f_equal. rewrite Hocc, drop_drop.
    replace (Z.to_nat p + Z.to_nat (j - p + 1))%nat
      with (Z.to_nat (j + 1)) by lia.
    lia.
Qed.

Lemma countWord_spec (fuel : nat) (text word : jsstring)
  (counts : gmap (list Z) Z) :
  word <> [] -> (length text + 1 < fuel)%nat ->
  PracticeScreen.countWord fuel text word counts
  = Some (if 0 <? Spec.occurrences word text
          then Js.assign word (Spec.occurrences word text) counts
          else counts).
Proof.
  intros Hword Hfuel. unfold PracticeScreen.countWord.
  rewrite countLoop_spec by (done || lia). by rewrite drop_0.
Qed.

(** The scan gives every word that occurs its number of occurrences,
    except that nothing is recorded under the name [__proto__]. *)
Lemma countFold_spec (fuel : nat) (text : jsstring) (words : list jsstring)
  (counts : gmap (list Z) Z) :
  (forall w, w ∈ words -> w <> []) -> (length text + 1 < fuel)%nat ->
  counts !! Js.proto = None ->
  exists counts',
    fold_left
      (fun acc word => c ← acc; PracticeScreen.countWord fuel text word c)
      words (Some counts) = Some counts' /\
    forall w,
      counts' !! w
      = if decide (w ∈ words /\ 0 < Spec.occurrences w text /\ w <> Js.proto)
        then Some (Spec.occurrences w text) else counts !! w.
Proof.
  intros Hwords Hfuel. revert counts.
  induction words as [|x words IH]; intros counts Hproto;
    simpl (fold_left _ _ _).
  - exists counts. split; [done|]. intros w.
    case_decide as H; [|done]. destruct H as [H _]. by apply elem_of_nil in H.
  - rewrite countWord_spec by (done || apply Hwords; left).
    assert (Hrest : forall w, w ∈ words -> w <> [])
      by (intros w Hw; apply Hwords; by right).
    set (counts1 := if 0 <? Spec.occurrences x text
                    then Js.assign x (Spec.occurrences x text) counts
                    else counts).
    assert (Hother : forall w, w <> x -> counts1 !! w = counts !! w).
    { intros w Hw. subst counts1.
      destruct (0 <? _); [by apply assign_lookup_ne|done]. }
    assert (Hproto1 : counts1 !! Js.proto = None).
    { destruct (decide (Js.proto = x)) as [<-|Hne]; [|by rewrite Hother].
      subst counts1. destruct (0 <? _); [|done].
      by rewrite assign_dropped. }
    destruct (IH Hrest counts1 Hproto1) as (counts' & -> & Hlook).
    exists counts'. split; [done|]. intros w. rewrite Hlook.
    destruct (decide (w ∈ words /\ 0 < Spec.occurrences w text
                      /\ w <> Js.proto)) as [(Hin & Hpos & Hnp)|Hno].
    + rewrite decide_True; [done|]. split; [by right|done].
    + destruct (decide (w = x)) as [->|Hne].
      * subst counts1.
        destruct (Z.ltb_spec 0 (Spec.occurrences x text)).
        -- destruct (decide (x = Js.proto)) as [->|Hnp].
           ++ rewrite assign_dropped by done.
              rewrite decide_False; [done|]. by intros (_ & _ & ?).
           ++ rewrite assign_lookup_eq by by left.
              rewrite decide_True; [done|]. split; [left|done].
        -- rewrite decide_False; [done|]. intros (_ & ? & _). lia.
      * rewrite Hother by done. rewrite decide_False; [done|].
        intros (Hin & Hpos & Hnp). apply Hno.
        apply elem_of_cons in Hin as [?|?]; done.
Qed.

Lemma countUsedWords_spec (fuel : nat) (vocabulary : AnalyzedVocabulary)
  (text : jsstring) :
  (forall w, w ∈ validHiraganaWords vocabulary -> w <> []) ->
  (length text + 1 < fuel)%nat ->
  exists usedCounts,
    PracticeScreen.countUsedWords fuel vocabulary text = Some usedCounts /\
    forall w,
      usedCounts !! w
      = if decide (w ∈ validHiraganaWords vocabulary
                   /\ 0 < Spec.occurrences w text /\ w <> Js.proto)
        then Some (Spec.occurrences w text) else None.
Proof.
  intros Hwords Hfuel.
  destruct (countFold_spec fuel text _ ∅ Hwords Hfuel (lookup_empty _))
    as (c & Hc & Hlook).
  exists c. split; [exact Hc|]. intros w. by rewrite Hlook, lookup_empty.
Qed.

(** The counts of a scan, added to whole-number totals. *)
Lemma scanned_update_record (vocabulary : AnalyzedVocabulary)
  (text : jsstring) (usedCounts tally : gmap (list Z) Z) :
  (forall w,
     usedCounts !! w
     = if decide (w ∈ validHiraganaWords vocabulary
                  /\ 0 < Spec.occurrences w text /\ w <> Js.proto)
       then Some (Spec.occurrences w text) else None) ->
  Forall Spec.plain (validHiraganaWords vocabulary) ->
  Spec.safe tally ->
  (forall w, w ∈ validHiraganaWords vocabulary ->
     Spec.count tally w + Spec.occurrences w text <= Spec.maxSafe) ->
  App.createStatsUpdater usedCounts (Spec.record tally)
  = Spec.record (Spec.addCounts usedCounts tally) /\
  (forall w, w ∈ validHiraganaWords vocabulary ->
     Spec.count (Spec.addCounts usedCounts tally) w
     = Spec.count tally w + Spec.occurrences w text) /\
  (forall w, w ∉ validHiraganaWords vocabulary ->
     Spec.addCounts usedCounts tally !! w = tally !! w).
Proof.
  intros Hlook Hplain Hsafe Hsum. split; [|split].
  - apply createStatsUpdater_record; [done|]. intros w c Hw.
    rewrite Hlook in Hw. case_decide as Hd; [|done].
    destruct Hd as (Hin & Hpos & _). injection Hw as <-.
    split; [by apply (proj1 (Forall_forall _ _) Hplain)|].
    split; [lia|by apply Hsum].
  - intros w Hw. rewrite addCounts_count, Hlook.
    pose proof (occurrences_nonneg w text).
    case_decide as Hd; simpl; [done|].
    assert (Hnp : w <> Js.proto)
      by (apply plain_not_proto; by apply (proj1 (Forall_forall _ _) Hplain)).
    assert (Spec.occurrences w text = 0) as ->; [|done].
    apply Z.le_antisymm; [|done]. apply Z.nlt_ge. intros ?. by apply Hd.
  - intros w Hw. unfold Spec.addCounts. rewrite lookup_union_with, Hlook.
    rewrite decide_False by (by intros [? _]). by destruct (tally !! w).
Qed.

End CountingFacts.

(** C2 as stated does not hold: the scan steps one code unit past each hit,
    so occurrences that overlap are all counted. For the word [momo] in
    the text [mo mo mo] the screens count 2, and counting without overlap
    from the left gives 1. *)
Lemma overlapping_occurrences_are_counted :
  let vocabulary := App.handleStartPractice Sample.momo [] in
  let text := [Sample.mo; Sample.mo; Sample.mo] in
  validHiraganaWords vocabulary = [Sample.momo] /\
  PracticeScreen.countUsedWords 20 vocabulary text
  = Some {[ Sample.momo := 2 ]} /\
  Spec.nonOverlappingCount Sample.momo text = 1 /\
  PracticeScreen.countUsedWords 20 vocabulary text
  <> Some {[ Sample.momo := Spec.nonOverlappingCount Sample.momo text ]}.
Proof.
  intros vocabulary text.
  split; [vm_compute; reflexivity|].
  split; [vm_compute; reflexivity|].
  split; [vm_compute; reflexivity|].
  vm_compute. discriminate.
Qed.

(** C2, amended. In reading and writing mode, for a vocabulary without the
    empty word and with fuel beyond the length of the text, the scan of the
    expected hiragana text ends and gives every valid word that occurs in
    it the number of offsets at which it occurs (occurrences that overlap
    are all counted), the word [__proto__] apart, and no entry to any
    other word. When no valid word is a property of [Object.prototype]
    and the totals are whole numbers that stay within 2^53 - 1, the update
    that follows adds that number to the mode's total of each valid word
    and changes no other word. For the text [ne ko ga ne ko wo mi ru] and
    the word [neko] the count is 2. *)
Theorem used_words_counted_at_every_offset
  (fuel : nat) (vocabulary : AnalyzedVocabulary) (text : jsstring)
  (tally : gmap (list Z) Z) :
  (forall w, w ∈ validHiraganaWords vocabulary -> w <> []) ->
  (length text + 1 < fuel)%nat ->
  (exists usedCounts,
     PracticeScreen.countUsedWords fuel vocabulary text = Some usedCounts /\
     forall w,
       usedCounts !! w
       = if decide (w ∈ validHiraganaWords vocabulary
                    /\ 0 < Spec.occurrences w text /\ w <> Js.proto)
         then Some (Spec.occurrences w text) else None) /\
  (Forall Spec.plain (validHiraganaWords vocabulary) ->
   Spec.safe tally ->
   (forall w, w ∈ validHiraganaWords vocabulary ->
      Spec.count tally w + Spec.occurrences w text <= Spec.maxSafe) ->
   exists tally',
     PracticeScreen.processNewSentence fuel vocabulary text (Spec.record tally)
     = Some (Spec.record tally') /\
     (forall userDraft, exists verdict,
        WritingPracticeScreen.handleReveal fuel vocabulary userDraft text
          (Spec.record tally)
        = Some (verdict, Spec.record tally')) /\
     (forall w, w ∈ validHiraganaWords vocabulary ->
        Spec.count tally' w = Spec.count tally w + Spec.occurrences w text) /\
     (forall w, w ∉ validHiraganaWords vocabulary ->
        tally' !! w = tally !! w)) /\
  Spec.occurrences Sample.neko Sample.nekoSentence = 2 /\
  PracticeScreen.countUsedWords 20 Sample.scenario Sample.nekoSentence
  = Some {[ Sample.neko := 2 ]}.
Proof.
  intros Hwords Hfuel.
  destruct (countUsedWords_spec fuel vocabulary text Hwords Hfuel)
    as (usedCounts & Hrun & Hlook).
  split; [by exists usedCounts|].
  split.
  { intros Hplain Hsafe Hsum.
    destruct (scanned_update_record vocabulary text usedCounts tally Hlook
                Hplain Hsafe Hsum) as (Hupd & Hvalid & Hother).
    exists (Spec.addCounts usedCounts tally).
    split.
    { unfold PracticeScreen.processNewSentence. rewrite Hrun. simpl.
      by rewrite Hupd. }
    split; [|done].
    intros userDraft. unfold WritingPracticeScreen.handleReveal.
    rewrite Hrun. simpl. rewrite Hupd. by eexists. }
  split; vm_compute; reflexivity.
Qed.

(** The scan of the example text over the scenario's vocabulary, applied
    to empty reading totals. *)
Lemma used_words_example :
  (forall w, w ∈ validHiraganaWords Sample.scenario -> w <> []) /\
  (length Sample.nekoSentence + 1 < 20)%nat /\
  Forall Spec.plain (validHiraganaWords Sample.scenario) /\
  PracticeScreen.processNewSentence 20 Sample.scenario Sample.nekoSentence
    (Spec.record ∅)
  = Some (Spec.record {[ Sample.neko := 2 ]}) /\
  exists tally',
    PracticeScreen.processNewSentence 20 Sample.scenario Sample.nekoSentence
      (Spec.record ∅)
    = Some (Spec.record tally') /\
    Spec.count tally' Sample.neko = 2.
Proof.
  assert (Hwords : forall w, w ∈ validHiraganaWords Sample.scenario -> w <> []).
  { intros w Hw ->. revert Hw. vm_compute. intros Hw.
    repeat (apply elem_of_cons in Hw as [Hw|Hw]; [discriminate|]).
    by apply elem_of_nil in Hw. }
  assert (Hfuel : (length Sample.nekoSentence + 1 < 20)%nat)
    by (vm_compute; lia).
  assert (Hplain : Forall Spec.plain (validHiraganaWords Sample.scenario)).
  { repeat constructor. }
  assert (Hsum : forall w, w ∈ validHiraganaWords Sample.scenario ->
            Spec.count ∅ w + Spec.occurrences w Sample.nekoSentence
            <= Spec.maxSafe).
  { intros w _. unfold Spec.count. rewrite lookup_empty.
    pose proof (occurrences_le_length w Sample.nekoSentence) as Hle.
    change (Z.of_nat (length Sample.nekoSentence)) with 8 in Hle.
    unfold Spec.maxSafe. simpl default. lia. }
  split; [exact Hwords|]. split; [exact Hfuel|]. split; [exact Hplain|].
  split; [vm_compute; reflexivity|].
  destruct (used_words_counted_at_every_offset 20 Sample.scenario
              Sample.nekoSentence ∅ Hwords Hfuel)
    as (_ & Hupd & _).
  destruct (Hupd Hplain (map_Forall_empty _) Hsum)
    as (tally' & Hrun & _ & Hvalid & _).
  exists tally'. split; [exact Hrun|].
  rewrite (Hvalid Sample.neko); [vm_compute; reflexivity|].
  vm_compute. right. left.
Defined.

(** *** Answer normalisation (WritingPracticeScreen.tsx, VisualQuizScreen.tsx) *)

(** C7. Normalisation deletes every whitespace code unit, the full-width
    space U+3000 among them, from whatever string it is given (the user's
    input and the expected answer alike); the writing variant also deletes
    the eight punctuation marks U+3001, U+3002, U+FF01, U+FF1F, full stop,
    comma, exclamation mark and question mark; the writing check (for a
    vocabulary without the empty word, whose scan ends) returns a verdict
    and the visual check returns one, and the answer is judged correct
    exactly when the two normalised strings are equal; and with
    punctuation stripping the text [watashi ha neko.] written with spaces
    normalises to the same string as [watashihaneko]. *)
Theorem normalization_strips_whitespace_and_punctuation :
  (forall text,
     VisualQuizScreen.normalizeJapanese text
     = List.filter (fun c => negb (Js.isWhiteSpace c)) text) /\
  (forall text,
     WritingPracticeScreen.normalizeJapanese text
     = List.filter
         (fun c => negb (Js.isWhiteSpace c
                         || bool_decide (c ∈ [0x3001; 0x3002; 0xFF01; 0xFF1F;
                                              0x2E; 0x2C; 0x21; 0x3F])))
         text) /\
  Js.isWhiteSpace 0x3000 = true /\
  (forall fuel vocabulary userDraft hiragana stats,
     (forall w, w ∈ validHiraganaWords vocabulary -> w <> []) ->
     (length hiragana + 1 < fuel)%nat ->
     exists verdict stats',
       WritingPracticeScreen.handleReveal fuel vocabulary userDraft hiragana
         stats
       = Some (verdict, stats') /\
       (verdict = WritingPracticeScreen.correct <->
        WritingPracticeScreen.normalizeJapanese userDraft
        = WritingPracticeScreen.normalizeJapanese hiragana)) /\
  (forall quiz userInput validationState stats,
     fst (VisualQuizScreen.handleSubmit (Some quiz) userInput validationState stats)
     = VisualQuizScreen.correct <->
     VisualQuizScreen.normalizeJapanese userInput
     = VisualQuizScreen.normalizeJapanese (VisualQuizScreen.targetWord quiz)) /\
  WritingPracticeScreen.normalizeJapanese
    (Sample.watashi ++ [Sample.space; Sample.ha; Sample.space]
       ++ Sample.neko ++ [Sample.maru])
  = WritingPracticeScreen.normalizeJapanese
      (Sample.watashi ++ [Sample.ha] ++ Sample.neko).
Proof.
  split; [exact visual_normalize_filter|].
  split.
  { intros text. rewrite writing_normalize_filter.
    unfold Js.replaceAllWithEmpty. apply filter_ext. intros c.
    f_equal. f_equal. unfold WritingPracticeScreen.rePunctuation.
    case_bool_decide as Hc.
    - set_unfold in Hc.
      destruct Hc as [->|[->|[->|[->|[->|[->|[->|[->|[]]]]]]]]]; reflexivity.
    - repeat (apply orb_false_iff; split);
        apply Z.eqb_neq; intros ->; apply Hc; set_solver. }
  split; [reflexivity|].
  split.
  { intros fuel v draft answer stats Hwords Hfuel.
    destruct (countUsedWords_spec fuel v answer Hwords Hfuel)
      as (usedCounts & Hrun & _).
    unfold WritingPracticeScreen.handleReveal. rewrite Hrun. simpl.
    eexists _, _. split; [reflexivity|].
    case_bool_decide; split; intros; done. }
  split.
  { intros quiz input vs stats. simpl.
    case_bool_decide; simpl; split; intros; done. }
  reflexivity.
Qed.

(** The writing check accepts the spaced and punctuated answer of the
    example against the plain expected text. *)
Lemma normalization_example_accepted :
  (forall w, w ∈ validHiraganaWords Sample.scenario -> w <> []) /\
  (length (Sample.watashi ++ [Sample.ha] ++ Sample.neko) + 1 < 20)%nat /\
  WritingPracticeScreen.handleReveal 20 Sample.scenario
    (Sample.watashi ++ [Sample.space; Sample.ha; Sample.space]
       ++ Sample.neko ++ [Sample.maru])
    (Sample.watashi ++ [Sample.ha] ++ Sample.neko) ∅
  = Some (WritingPracticeScreen.correct,
          Spec.record {[ Sample.watashi := 1; Sample.neko := 1 ]}) /\
  exists verdict stats',
    WritingPracticeScreen.handleReveal 20 Sample.scenario
      (Sample.watashi ++ [Sample.space; Sample.ha; Sample.space]
         ++ Sample.neko ++ [Sample.maru])
      (Sample.watashi ++ [Sample.ha] ++ Sample.neko) ∅
    = Some (verdict, stats') /\
    (verdict = WritingPracticeScreen.correct <->
     WritingPracticeScreen.normalizeJapanese
       (Sample.watashi ++ [Sample.space; Sample.ha; Sample.space]
          ++ Sample.neko ++ [Sample.maru])
     = WritingPracticeScreen.normalizeJapanese
         (Sample.watashi ++ [Sample.ha] ++ Sample.neko)).
Proof.
  assert (Hwords : forall w, w ∈ validHiraganaWords Sample.scenario -> w <> []).
  { intros w Hw ->. revert Hw. vm_compute. intros Hw.
    repeat (apply elem_of_cons in Hw as [Hw|Hw]; [discriminate|]).
    by apply elem_of_nil in Hw. }
  assert (Hfuel :
    (length (Sample.watashi ++ [Sample.ha] ++ Sample.neko) + 1 < 20)%nat)
    by (vm_compute; lia).
  split; [exact Hwords|]. split; [exact Hfuel|].
  split; [vm_compute; reflexivity|].
  destruct normalization_strips_whitespace_and_punctuation
    as (_ & _ & _ & Hreveal & _).
  exact (Hreveal 20%nat Sample.scenario _ _ ∅ Hwords Hfuel).
Defined.

(** *** Vocabulary analysis (App.tsx: handleStartPractice) *)

Section TokenFacts.

Lemma isToken_elem (t s : jsstring) (c : Z) :
  Spec.isToken t s -> c ∈ t -> c ∈ s.
Proof.
  intros (_ & _ & before & after & -> & _) Hc.
  rewrite !elem_of_app. tauto.
Qed.

Lemma isToken_clean (t s : jsstring) :
  (forall c, c ∈ s -> Js.isWhiteSpace c = false) ->
  Spec.isToken t s <-> t = s /\ s <> [].
Proof.
  intros Hs. split.
  - intros (Hne & _ & before & after & -> & Hb & Ha).
    assert (before = []) as ->.
    { apply last_None. destruct (last before) as [c|] eqn:E; [|done].
      pose proof (Hb c eq_refl) as Hws.
      rewrite Hs in Hws; [done|].
      apply elem_of_app. left. by eapply last_Some_elem_of. }
    assert (after = []) as ->.
    { apply head_None. destruct (head after) as [c|] eqn:E; [|done].
      pose proof (Ha c eq_refl) as Hws.
      rewrite Hs in Hws; [done|].
      rewrite !elem_of_app. right. right. by eapply head_Some_elem_of. }
    simpl. rewrite !app_nil_r. done.
  - intros [-> Hne]. split; [done|]. split; [done|].
    exists [], []. simpl. rewrite app_nil_r. done.
Qed.

Lemma isToken_nil (t : jsstring) : ~ Spec.isToken t [].
Proof.
  intros H. apply isToken_clean in H as [_ H]; [done|].
  intros c Hc. by apply elem_of_nil in Hc.
Qed.

(** A whitespace code unit cuts the string: the tokens of the whole are
    the tokens of the two sides. *)
Lemma isToken_cut (t a b : jsstring) (c : Z) :
  Js.isWhiteSpace c = true ->
  Spec.isToken t (a ++ c :: b) <-> Spec.isToken t a \/ Spec.isToken t b.
Proof.
  intros Hc. split.
  - intros (Hne & Hclean & before & after & Heq & Hb & Ha).
    assert (Hnot : c ∉ t) by (intros Hin; apply Hclean in Hin; congruence).
    symmetry in Heq. apply app_eq_inv in Heq as [(k & -> & Hk)|(k & -> & Hk)].
    + right. destruct k as [|d k].
      * simpl in Hk. destruct t as [|e t]; [done|].
        simpl in Hk. injection Hk as -> _. exfalso. apply Hnot. left.
      * simpl in Hk. injection Hk as -> ->.
        split; [done|]. split; [done|].
        exists k, after. split; [done|]. split; [|done].
        intros e He. apply Hb. rewrite last_app, last_cons, He. done.
    + left. apply app_eq_inv in Hk as [(k2 & -> & Hk3)|(k2 & -> & Hk3)].
      * destruct k2 as [|d k2].
        -- simpl in Hk3. subst after. rewrite app_nil_r in *.
           split; [done|]. split; [done|].
           exists before, []. rewrite app_nil_r. done.
        -- simpl in Hk3. injection Hk3 as -> ->.
           exfalso. apply Hnot. rewrite elem_of_app. right. left.
      * subst after. split; [done|]. split; [done|].
        exists before, k2. split; [done|]. split; [done|].
        intros d Hd. apply Ha. rewrite head_app, Hd. done.
  - intros [H|H].
    + destruct H as (Hne & Hclean & before & after & -> & Hb & Ha).
      split; [done|]. split; [done|].
      exists before, (after ++ c :: b). split.
      { by rewrite <- !app_assoc. }
      split; [done|].
      intros d Hd. rewrite head_app in Hd.
      destruct (head after) as [e|] eqn:E.
      * injection Hd as <-. by apply Ha.
      * simpl in Hd. by injection Hd as <-.
    + destruct H as (Hne & Hclean & before & after & -> & Hb & Ha).
      split; [done|]. split; [done|].
      exists (a ++ c :: before), after. split.
      { by rewrite <- !app_assoc. }
      split; [|done].
      intros d Hd. rewrite last_app, last_cons in Hd.
      destruct (last before) as [e|] eqn:E.
      * injection Hd as <-. by apply Hb.
      * by injection Hd as <-.
Qed.


Lemma isToken_skip (t s : jsstring) (c : Z) :
  Js.isWhiteSpace c = true ->
  Spec.isToken t (c :: s) <-> Spec.isToken t s.
Proof.
  intros Hc. rewrite (isToken_cut t [] s c Hc).
  split; [|by right]. intros [H|H]; [|done]. by apply isToken_nil in H.
Qed.

Lemma isToken_blank_tail (t s tail : jsstring) :
  (forall c, c ∈ tail -> Js.isWhiteSpace c = true) ->
  Spec.isToken t (s ++ tail) <-> Spec.isToken t s.
Proof.
  revert s. induction tail as [|c tail IH]; intros s Htail.
  - by rewrite app_nil_r.
  - rewrite isToken_cut by (apply Htail; left).
    split; [|by left]. intros [H|H]; [done|].
    apply (IH []) in H; [|intros d Hd; apply Htail; by right].
    by apply isToken_nil in H.
Qed.

Lemma isToken_blank_front (t s front : jsstring) :
  (forall c, c ∈ front -> Js.isWhiteSpace c = true) ->
  Spec.isToken t (front ++ s) <-> Spec.isToken t s.
Proof.
  induction front as [|c front IH]; intros Hfront; [done|].
  simpl. rewrite isToken_skip by (apply Hfront; left).
  apply IH. intros d Hd. apply Hfront. by right.
Qed.

Lemma dropWhile_split (p : Z -> bool) (s : jsstring) :
  exists dropped,
    s = dropped ++ Js.dropWhile p s /\
    forall c, c ∈ dropped -> p c = true.
Proof.
  induction s as [|c s (dropped & Heq & Hall)]; simpl.
  - exists []. split; [done|]. intros c Hc. by apply elem_of_nil in Hc.
  - destruct (p c) eqn:Hp.
    + exists (c :: dropped). split; [by rewrite <- app_comm_cons, <- Heq|].
      intros d Hd. apply elem_of_cons in Hd as [->|Hd]; [done|by apply Hall].
    + exists []. split; [done|]. intros d Hd. by apply elem_of_nil in Hd.
Qed.

Lemma trim_tokens (t s : jsstring) :
  Spec.isToken t (Js.trim s) <-> Spec.isToken t s.
Proof.
  unfold Js.trim, Js.trimEnd, Js.trimStart.
  destruct (dropWhile_split Js.isWhiteSpace s) as (front & Hs & Hfront).
  destruct (dropWhile_split Js.isWhiteSpace (rev (Js.dropWhile Js.isWhiteSpace s)))
    as (back & Hr & Hback).
  set (middle := Js.dropWhile Js.isWhiteSpace
                   (rev (Js.dropWhile Js.isWhiteSpace s))) in *.
  assert (Hmid : Js.dropWhile Js.isWhiteSpace s = rev middle ++ rev back).
  { rewrite <- rev_app_distr, <- Hr. by rewrite rev_involutive. }
  rewrite <- (isToken_blank_tail t (rev middle) (rev back))
    by (intros c Hc; apply Hback;
        by apply list_elem_of_In, in_rev, list_elem_of_In).
  rewrite <- Hmid.
  rewrite <- (isToken_blank_front t (Js.dropWhile Js.isWhiteSpace s) front Hfront).
  by rewrite <- Hs.
Qed.

Lemma reSpaceOrNewline_is_whitespace (c : Z) :
  App.reSpaceOrNewline c = Js.isWhiteSpace c.
Proof.
  unfold App.reSpaceOrNewline.
  destruct (Z.eqb_spec c 0x0A) as [->|_]; [reflexivity|]. apply orb_false_r.
Qed.

(** The non-empty pieces of [split] are the tokens. *)
Lemma splitLoop_tokens (cls : Z -> bool) (s piece : jsstring) (inRun : bool)
  (t : jsstring) :
  (forall c, cls c = Js.isWhiteSpace c) ->
  (forall c, c ∈ piece -> Js.isWhiteSpace c = false) ->
  (inRun = true -> piece = []) ->
  t ∈ Js.splitLoop cls inRun piece s /\ t <> []
  <-> Spec.isToken t (piece ++ s).
Proof.
  intros Hcls. revert piece inRun.
  induction s as [|c s IH]; intros piece inRun Hpiece Hrun; simpl.
  - rewrite app_nil_r, isToken_clean by done.
    rewrite list_elem_of_singleton. split; [by intros [-> ?]|by intros [-> ?]].
  - rewrite Hcls. destruct (Js.isWhiteSpace c) eqn:Hc.
    + rewrite isToken_cut by done. rewrite (isToken_clean t piece Hpiece).
      specialize (IH [] true ltac:(intros d Hd; by apply elem_of_nil in Hd)
                    ltac:(done)).
      simpl in IH. rewrite <- IH.
      destruct inRun.
      * rewrite (Hrun eq_refl). split; [by right|].
        intros [[_ ?]|?]; done.
      * rewrite elem_of_cons. split.
        -- intros [[->|Hin] Hne]; [by left|by right].
        -- intros [[-> Hne]|[Hin Hne]]; split; auto.
    + rewrite (IH (piece ++ [c]) false).
      * by rewrite <- app_assoc.
      * intros d Hd. apply elem_of_app in Hd as [Hd|Hd]; [by apply Hpiece|].
        apply list_elem_of_singleton in Hd as ->. done.
      * done.
Qed.

End TokenFacts.

Section SetFacts.

Lemma Set_add_elem (x : jsstring) (s : list jsstring) (w : jsstring) :
  w ∈ Js.Set_add x s <-> w = x \/ w ∈ s.
Proof.
  unfold Js.Set_add. case_decide as Hx.
  - split; [by right|]. intros [->|?]; done.
  - rewrite elem_of_app, list_elem_of_singleton. tauto.
Qed.

Lemma Set_add_NoDup (x : jsstring) (s : list jsstring) :
  NoDup s -> NoDup (Js.Set_add x s).
Proof.
  intros Hs. unfold Js.Set_add. case_decide as Hx; [done|].
  apply NoDup_app. split; [done|]. split; [|apply NoDup_singleton].
  intros w Hw Hw'. apply list_elem_of_singleton in Hw' as ->. done.
Qed.

(** A loop that adds to a set those elements of a list that pass a test. *)
Lemma addWhen_elem (test : jsstring -> bool) (xs s : list jsstring)
  (w : jsstring) :
  w ∈ fold_left (fun s x => if test x then Js.Set_add x s else s) xs s
  <-> w ∈ s \/ (w ∈ xs /\ test w = true).
Proof.
  revert s. induction xs as [|x xs IH]; intros s; simpl.
  - split; [by left|]. intros [?|[H _]]; [done|]. by apply elem_of_nil in H.
  - rewrite IH, elem_of_cons. destruct (test x) eqn:Hx.
    + rewrite Set_add_elem. split.
      * intros [[->|?]|[? ?]]; auto.
      * intros [?|[[->|?] ?]]; auto.
    + split.
      * intros [?|[? ?]]; auto.
      * intros [?|[[->|?] ?]]; auto. congruence.
Qed.

Lemma addWhen_NoDup (test : jsstring -> bool) (xs s : list jsstring) :
  NoDup s ->
  NoDup (fold_left (fun s x => if test x then Js.Set_add x s else s) xs s).
Proof.
  revert s. induction xs as [|x xs IH]; intros s Hs; simpl; [done|].
  apply IH. destruct (test x); [by apply Set_add_NoDup|done].
Qed.

Lemma Set_from_elem (xs : list jsstring) (w : jsstring) :
  w ∈ Js.Set_from xs <-> w ∈ xs.
Proof.
  unfold Js.Set_from.
  rewrite (addWhen_elem (fun _ => true) xs [] w).
  split; [|by right]. intros [H|[? _]]; [|done]. by apply elem_of_nil in H.
Qed.

Lemma Set_from_NoDup (xs : list jsstring) : NoDup (Js.Set_from xs).
Proof. apply (addWhen_NoDup (fun _ => true)). constructor. Qed.

End SetFacts.

Section AnalysisFacts.

Lemma parseWords_tokens (text w : jsstring) :
  w ∈ App.parseWords text <-> Spec.isToken w text.
Proof.
  unfold App.parseWords.
  rewrite Set_from_elem, list_elem_of_In, filter_In, <- list_elem_of_In.
  rewrite <- trim_tokens. unfold Js.split.
  rewrite <- (splitLoop_tokens App.reSpaceOrNewline (Js.trim text) [] false w
                reSpaceOrNewline_is_whitespace);
    [|intros c Hc; by apply elem_of_nil in Hc|done].
  assert ((0 <? Z.of_nat (length w)) = true <-> w <> []) as ->; [|done].
  destruct w as [|c w]; simpl.
  - split; [done|]. intros H. by destruct H.
  - split; [done|]. intros _. reflexivity.
Qed.

Lemma parseWords_NoDup (text : jsstring) : NoDup (App.parseWords text).
Proof. apply Set_from_NoDup. Qed.

Lemma valid_words_tokens (known learning w : jsstring) :
  w ∈ validHiraganaWords (App.handleStartPractice known learning)
  <-> Spec.isToken w known \/ Spec.isToken w learning.
Proof.
  simpl. by rewrite Set_from_elem, elem_of_app, !parseWords_tokens.
Qed.

(** Every vocabulary that the application builds is free of repetitions
    and of the empty word. *)
Lemma analyzed_vocabulary_wellformed (known learning : jsstring) :
  let vocabulary := App.handleStartPractice known learning in
  NoDup (validHiraganaWords vocabulary) /\
  NoDup (learningWords vocabulary) /\
  forall w, w ∈ validHiraganaWords vocabulary -> w <> [].
Proof.
  split; [apply Set_from_NoDup|]. split; [apply parseWords_NoDup|].
  intros w Hw. apply valid_words_tokens in Hw as [[? _]|[? _]]; done.
Qed.

Lemma strings_ind2 (P : jsstring -> Prop) :
  P [] -> (forall c, P [c]) ->
  (forall c d rest, P rest -> P (d :: rest) -> P (c :: d :: rest)) ->
  forall s, P s.
Proof.
  intros Hnil Hone Htwo s.
  assert (H : P s /\ forall c, P (c :: s)); [|by destruct H].
  induction s as [|d s [IH1 IH2]]; [by split|].
  split; [apply IH2|]. intros c. by apply Htwo.
Qed.

Lemma surrogate_not_hiragana (c : Z) :
  Js.isHighSurrogate c = true \/ Js.isLowSurrogate c = true ->
  App.reHiragana c = false.
Proof.
  unfold Js.isHighSurrogate, Js.isLowSurrogate, App.reHiragana.
  intros [H|H]; apply andb_true_iff in H as [H1 H2];
    apply Z.leb_le in H1; apply Z.leb_le in H2;
    apply andb_false_iff; right; apply Z.leb_gt; lia.
Qed.

(** Iterating by code point and testing against the hiragana class keeps
    exactly the code units of the string that are in the class. *)
Lemma codePoints_hiragana (s ch : jsstring) :
  ch ∈ Js.codePoints s /\ Js.matchesClass App.reHiragana ch = true
  <-> exists u, ch = [u] /\ u ∈ s /\ App.reHiragana u = true.
Proof.
  induction s as [|c|c d rest IH1 IH2] using strings_ind2.
  - simpl. split.
    + intros [H _]. by apply elem_of_nil in H.
    + intros (u & _ & H & _). by apply elem_of_nil in H.
  - simpl. rewrite list_elem_of_singleton. split.
    + intros [-> H]. exists c. simpl in H. rewrite orb_false_r in H.
      split; [done|]. split; [left|done].
    + intros (u & -> & Hu & Hh). apply list_elem_of_singleton in Hu as ->.
      split; [done|]. simpl. by rewrite Hh.
  - change (Js.codePoints (c :: d :: rest))
      with (if Js.isHighSurrogate c && Js.isLowSurrogate d
            then [c; d] :: Js.codePoints rest
            else [c] :: Js.codePoints (d :: rest)).
    destruct (Js.isHighSurrogate c && Js.isLowSurrogate d) eqn:Hpair.
    + apply andb_true_iff in Hpair as [Hc Hd].
      assert (Hc' := surrogate_not_hiragana c (or_introl Hc)).
      assert (Hd' := surrogate_not_hiragana d (or_intror Hd)).
      rewrite elem_of_cons. split.
      * intros [[->|Hin] Hm].
        -- simpl in Hm. rewrite Hc', Hd' in Hm. done.
        -- destruct (proj1 IH1 (conj Hin Hm)) as (u & -> & Hu & Hh).
           exists u. split; [done|]. split; [|done]. right. by right.
      * intros (u & -> & Hu & Hh).
        apply elem_of_cons in Hu as [->|Hu]; [congruence|].
        apply elem_of_cons in Hu as [->|Hu]; [congruence|].
        destruct (proj2 IH1 (ex_intro _ u (conj eq_refl (conj Hu Hh))))
          as [Hin Hm].
        split; [by right|done].
    + rewrite elem_of_cons. split.
      * intros [[->|Hin] Hm].
        -- exists c. simpl in Hm. rewrite orb_false_r in Hm.
           split; [done|]. split; [left|done].
        -- destruct (proj1 IH2 (conj Hin Hm)) as (u & -> & Hu & Hh).
           exists u. split; [done|]. split; [by right|done].
      * intros (u & -> & Hu & Hh).
        apply elem_of_cons in Hu as [->|Hu].
        -- split; [by left|]. simpl. by rewrite Hh.
        -- destruct (proj2 IH2 (ex_intro _ u (conj eq_refl (conj Hu Hh))))
             as [Hin Hm].
           split; [by right|done].
Qed.

Lemma collectChars_from (words chars : list jsstring) (ch : jsstring) :
  ch ∈ fold_left
         (fun chars w =>
            fold_left
              (fun chars char =>
                 if Js.matchesClass App.reHiragana char
                 then Js.Set_add char chars else chars)
              (Js.codePoints w) chars)
         words chars
  <-> ch ∈ chars \/
      exists u w, ch = [u] /\ App.reHiragana u = true /\ w ∈ words /\ u ∈ w.
Proof.
  revert chars. induction words as [|x words IH]; intros chars; simpl.
  - split; [by left|]. intros [?|(u & w & _ & _ & H & _)]; [done|].
    by apply elem_of_nil in H.
  - rewrite IH, addWhen_elem, codePoints_hiragana. split.
    + intros [[?|(u & -> & Hu & Hh)]|(u & w & -> & Hh & Hw & Hu)].
      * by left.
      * right. exists u, x. repeat split; [done| |done]. left.
      * right. exists u, w. repeat split; [done| |done]. by right.
    + intros [?|(u & w & -> & Hh & Hw & Hu)]; [by left; left|].
      apply elem_of_cons in Hw as [->|Hw].
      * left. right. by exists u.
      * right. by exists u, w.
Qed.

Lemma collectChars_NoDup_from (words chars : list jsstring) :
  NoDup chars ->
  NoDup (fold_left
           (fun chars w =>
              fold_left
                (fun chars char =>
                   if Js.matchesClass App.reHiragana char
                   then Js.Set_add char chars else chars)
                (Js.codePoints w) chars)
           words chars).
Proof.
  revert chars. induction words as [|x words IH]; intros chars Hc; simpl;
    [done|].
  apply IH. by apply addWhen_NoDup.
Qed.

End AnalysisFacts.

(** C5. For all texts of known and learning words, [validHiraganaWords]
    has no word twice and holds exactly the whitespace-separated tokens of
    the two texts; [learningWords] has no word twice and holds exactly the
    tokens of the learning text; and every learning word is a valid
    word. *)
Theorem analysis_valid_words_are_the_tokens (known learning : jsstring) :
  let vocabulary := App.handleStartPractice known learning in
  NoDup (validHiraganaWords vocabulary) /\
  (forall w, w ∈ validHiraganaWords vocabulary
             <-> Spec.isToken w known \/ Spec.isToken w learning) /\
  NoDup (learningWords vocabulary) /\
  (forall w, w ∈ learningWords vocabulary <-> Spec.isToken w learning) /\
  learningWords vocabulary ⊆ validHiraganaWords vocabulary.
Proof.
  intros vocabulary. subst vocabulary.
  split; [apply Set_from_NoDup|].
  split; [intros w; apply valid_words_tokens|].
  split; [apply parseWords_NoDup|].
  split; [intros w; apply parseWords_tokens|].
  intros w Hw. apply valid_words_tokens. right. by apply parseWords_tokens.
Qed.

(** In the scenario the learning word is a token of the learning text, so
    it is a learning word and a valid word. *)
Lemma analysis_scenario :
  Spec.isToken Sample.mizu Sample.mizu /\
  Sample.mizu ∈ learningWords Sample.scenario /\
  Sample.mizu ∈ validHiraganaWords Sample.scenario.
Proof.
  assert (Htoken : Spec.isToken Sample.mizu Sample.mizu).
  { apply isToken_clean; [|done].
    intros c Hc.
    repeat (apply elem_of_cons in Hc as [->|Hc]; [reflexivity|]).
    by apply elem_of_nil in Hc. }
  destruct (analysis_valid_words_are_the_tokens
              (Sample.watashi ++ [Sample.newline] ++ Sample.neko) Sample.mizu)
    as (_ & _ & _ & Hlearning & Hsub).
  split; [exact Htoken|].
  assert (Hin : Sample.mizu ∈ learningWords Sample.scenario)
    by (apply Hlearning; exact Htoken).
  split; [exact Hin|]. apply Hsub. exact Hin.
Defined.

(** C6. For all texts, [allowedCharacters] has no entry twice, and its
    entries are exactly the one-unit strings of the code units between
    U+3040 and U+309F that occur in some valid word. *)
Theorem allowed_characters_are_the_hiragana_of_valid_words
  (known learning : jsstring) :
  let vocabulary := App.handleStartPractice known learning in
  NoDup (allowedCharacters vocabulary) /\
  forall ch,
    ch ∈ allowedCharacters vocabulary
    <-> exists u w,
          ch = [u] /\ 0x3040 <= u <= 0x309F /\
          w ∈ validHiraganaWords vocabulary /\ u ∈ w.
Proof.
  intros vocabulary. subst vocabulary. simpl. unfold App.collectChars.
  split; [apply collectChars_NoDup_from; constructor|].
  intros ch. rewrite collectChars_from. split.
  - intros [H|(u & w & -> & Hh & Hw & Hu)]; [by apply elem_of_nil in H|].
    exists u, w. split; [done|]. split; [|done].
    unfold App.reHiragana in Hh. apply andb_true_iff in Hh as [H1 H2].
    apply Z.leb_le in H1. apply Z.leb_le in H2. lia.
  - intros (u & w & -> & Hr & Hw & Hu). right. exists u, w.
    split; [done|]. split; [|done].
    unfold App.reHiragana. apply andb_true_iff.
    split; apply Z.leb_le; lia.
Qed.

(** In the scenario the first code unit of [neko] is an allowed
    character, and a Latin letter typed among the words is not. *)
Lemma allowed_characters_scenario :
  [Sample.ne] ∈ allowedCharacters Sample.scenario /\
  [0x61] ∉ allowedCharacters
             (App.handleStartPractice (Sample.neko ++ [Sample.space; 0x61]) []).
Proof.
  split.
  - apply (allowed_characters_are_the_hiragana_of_valid_words
             (Sample.watashi ++ [Sample.newline] ++ Sample.neko) Sample.mizu).
    exists Sample.ne, Sample.neko.
    split; [reflexivity|]. split; [vm_compute; split; discriminate|].
    split; [vm_compute; right; left|left].
  - intros H.
    apply (allowed_characters_are_the_hiragana_of_valid_words
             (Sample.neko ++ [Sample.space; 0x61]) []) in H
      as (u & w & [= <-] & Hr & _).
    lia.
Defined.

(** *** The prefetch pipeline (PracticeScreen.tsx: the mount effect and
        handleNextSentence) *)

Section PipelineFacts.

Import PracticeScreen.

Lemma filter_length_insert (P : Request -> bool) (l : list Request)
  (i : nat) (x y : Request) :
  l !! i = Some x -> P y = P x ->
  length (List.filter P (<[i := y]> l)) = length (List.filter P l).
Proof.
  revert i. induction l as [|z l IH]; intros [|i] Hi Hp; simpl in *; try done.
  - injection Hi as ->. rewrite Hp. by destruct (P x).
  - destruct (P z); simpl; by rewrite (IH i).
Qed.

(** If every element that passes the test sits at one index, at most one
    element passes. *)
Lemma filter_length_unique (P : Request -> bool) (l : list Request) (p : nat) :
  (forall i r, l !! i = Some r -> P r = true -> i = p) ->
  (length (List.filter P l) <= 1)%nat.
Proof.
  revert p. induction l as [|x l IH]; intros p Hall; simpl; [lia|].
  destruct (P x) eqn:Hx; simpl.
  - assert (Hnone : List.filter P l = []).
    { pose proof (Hall 0%nat x eq_refl Hx) as <-.
      clear IH. assert (Hl : forall r, r ∈ l -> P r = false).
      { intros r Hr. apply list_elem_of_lookup in Hr as [i Hi].
        destruct (P r) eqn:Hr'; [|done].
        by specialize (Hall (S i) r Hi Hr'). }
      clear Hall. induction l as [|y l IHl]; [done|]. simpl.
      rewrite (Hl y) by left. apply IHl. intros r Hr. apply Hl. by right. }
    rewrite Hnone. simpl. lia.
  - apply (IH (pred p)). intros i r Hi Hr.
    by rewrite <- (Hall (S i) r Hi Hr).
Qed.

Lemma sound_pending_bound (s : Screen) : Sound s -> (prefetchPending s <= 1)%nat.
Proof.
  intros Hs. unfold prefetchPending.
  destruct (bufferPromiseRef s) as [p|] eqn:Hb.
  - apply (filter_length_unique _ _ p). intros i r Hi Hr.
    apply andb_true_iff in Hr as [H1 H2].
    pose proof (pending_is_buffered s Hs i r Hi H1 H2). congruence.
  - apply (filter_length_unique _ _ 0%nat). intros i r Hi Hr.
    apply andb_true_iff in Hr as [H1 H2].
    pose proof (pending_is_buffered s Hs i r Hi H1 H2). congruence.
Qed.


Lemma sound_quiet_empty (s : Screen) :
  Sound s -> bufferPromiseRef s = None -> quiet s.
Proof.
  intros Hs Hb i r Hi H1 H2.
  pose proof (pending_is_buffered s Hs i r Hi H1 H2). congruence.
Qed.

Lemma sound_quiet_settled (s : Screen) (p : nat) :
  Sound s -> bufferPromiseRef s = Some p -> statusOf s p <> Some Pending ->
  quiet s.
Proof.
  intros Hs Hb Hp i r Hi H1 H2.
  pose proof (pending_is_buffered s Hs i r Hi H1 H2) as Hbi.
  rewrite Hb in Hbi. injection Hbi as ->.
  apply Hp. unfold statusOf. rewrite Hi. simpl.
  unfold isPending in H2. by destruct (status r).
Qed.

Lemma sound_mounted (s : Screen) :
  mountedRef s = true ->
  (forall i r, requests s !! i = Some r ->
     isPrefetch r = true -> isPending r = true ->
     bufferPromiseRef s = Some i) ->
  (Loaded ∈ history s -> AdvanceFailed ∉ history s ->
   bufferPromiseRef s <> None /\ prefetchIssued s = (advances s + 1)%nat) ->
  issued s = (prefetchIssued s + 1)%nat ->
  Sound s.
Proof. intros Hm H1 H2 H3. split; [done|done|done|congruence]. Qed.

(** Flags and the list of parked functions do not matter. *)
Lemma sound_same_data (s s' : Screen) :
  Sound s -> mountedRef s = true -> mountedRef s' = true ->
  requests s' = requests s -> bufferPromiseRef s' = bufferPromiseRef s ->
  history s' = history s ->
  Sound s'.
Proof.
  intros Hs Hm Hm' Hr Hb Hh. apply sound_mounted; [done| | |].
  - rewrite Hr, Hb. apply (pending_is_buffered s Hs).
  - unfold prefetchIssued, advances. rewrite Hr, Hb, Hh.
    apply (counts_after_load s Hs).
  - unfold issued, prefetchIssued. rewrite Hr.
    by apply (one_initial_request s Hs).
Qed.

Lemma lookup_after_push (rs : list Request) (new r : Request) (i : nat) :
  (rs ++ [new]) !! i = Some r ->
  rs !! i = Some r \/ (i = length rs /\ r = new).
Proof.
  intros H. apply lookup_app_Some in H as [H|[Hle H]]; [by left|right].
  destruct (i - length rs)%nat as [|k] eqn:E; simpl in H; [|done].
  injection H as Heq. split; [lia|done].
Qed.

(** Queueing on a quiet table keeps the new request the only pending
    prefetch. *)
Lemma queue_pending (s : Screen) (i : nat) (r : Request) :
  quiet s ->
  (requests s ++ [{| site := Queue; status := Pending |}]) !! i = Some r ->
  isPrefetch r = true -> isPending r = true ->
  Some (length (requests s)) = Some i.
Proof.
  intros Hq Hi H1 H2. apply lookup_after_push in Hi as [Hi|[-> _]]; [|done].
  destruct (Hq i r Hi H1 H2).
Qed.

Lemma elem_of_snoc_ne (o o' : Outcome) (h : list Outcome) :
  o <> o' -> o ∈ h ++ [o'] <-> o ∈ h.
Proof.
  intros Hne. rewrite elem_of_app, list_elem_of_singleton.
  split; [intros [?|?]; [done|congruence]|by left].
Qed.

Lemma resume_next_sound (s : Screen) (p : nat) :
  Sound s -> mountedRef s = true -> bufferPromiseRef s = Some p ->
  statusOf s p <> Some Pending ->
  Sound (resume (AwaitNext p) s) /\
  suspended (resume (AwaitNext p) s) = suspended s.
Proof.
  intros Hs Hm Hb Hp.
  pose proof (sound_quiet_settled s p Hs Hb Hp) as Hq.
  unfold resume. destruct (statusOf s p) as [[| |]|] eqn:Hst; try done.
  - split; [|done]. apply sound_mounted; simpl.
    + done.
    + intros i r. by apply queue_pending.
    + intros Hl Hf. split; [done|].
      rewrite elem_of_snoc_ne in Hl by done.
      rewrite elem_of_snoc_ne in Hf by done.
      destruct (counts_after_load s Hs Hl Hf) as [_ Hc].
      unfold prefetchIssued, advances in *. simpl.
      rewrite !List.filter_app, !length_app. simpl. lia.
    + pose proof (one_initial_request s Hs Hm) as Ht.
      unfold issued, prefetchIssued in *. simpl.
      rewrite !List.filter_app, !length_app. simpl. lia.
  - split; [|done]. apply sound_mounted; simpl.
    + done.
    + intros i r Hi H1 H2. destruct (Hq i r Hi H1 H2).
    + intros _ Hf. exfalso. apply Hf.
      rewrite elem_of_app, list_elem_of_singleton. by right.
    + by apply (one_initial_request s Hs).
Qed.

Lemma sound_loadingScreen : Sound loadingScreen.
Proof.
  apply sound_mounted; simpl; [done| | |done].
  - intros [|i] r Hi H1 H2; simpl in Hi; [|done]. by injection Hi as <-.
  - intros H. by apply elem_of_nil in H.
Qed.

Lemma sound_initialScreen : Sound initialScreen.
Proof.
  split; simpl; try done.
  intros H. by apply elem_of_nil in H.
Qed.

Lemma sound_first_answer (ok : bool) :
  Sound (settle 0 ok loadingScreen) /\ Parked (settle 0 ok loadingScreen).
Proof.
  destruct ok; (split; [|exact I]); apply sound_mounted; simpl; try done.
  - intros [|[|i]] r Hi H1 H2; simpl in Hi; try done.
    by injection Hi as <-.
  - intros [|[|i]] r Hi H1 H2; simpl in Hi; try done.
    by injection Hi as <-.
  - intros H. apply list_elem_of_singleton in H. done.
Qed.

Lemma mounted_of_request (s : Screen) (i : nat) (r : Request) :
  Sound s -> requests s !! i = Some r -> mountedRef s = true.
Proof.
  intros Hs Hi. destruct (mountedRef s) eqn:Hm; [done|].
  rewrite (untouched_before_mount s Hs Hm) in Hi. done.
Qed.

Lemma handleNext_sound (s : Screen) :
  Sound s -> suspended s = [] -> mountedRef s = true ->
  isInitialLoading s = false ->
  Sound (handleNextSentence s) /\ Parked (handleNextSentence s).
Proof.
  intros Hs Hsus Hm Hload. unfold handleNextSentence. simpl.
  destruct (bufferPromiseRef s) as [p|] eqn:Hb; simpl.
  - rewrite Hb. unfold await.
    change (statusOf (setIsTransitioning true (setError false s)) p)
      with (statusOf s p).
    destruct (statusOf s p) as [[| |]|] eqn:Hst.
    + split.
      * by apply (sound_same_data s).
      * unfold Parked. simpl. rewrite Hsus. simpl. done.
    + assert (Hs' : Sound (setIsTransitioning true (setError false s))).
      { by apply (sound_same_data s). }
      destruct (resume_next_sound _ p Hs' Hm Hb) as [H1 H2].
      { change (statusOf (setIsTransitioning true (setError false s)) p)
          with (statusOf s p). by rewrite Hst. }
      split; [done|]. unfold Parked. rewrite H2. simpl. by rewrite Hsus.
    + assert (Hs' : Sound (setIsTransitioning true (setError false s))).
      { by apply (sound_same_data s). }
      destruct (resume_next_sound _ p Hs' Hm Hb) as [H1 H2].
      { change (statusOf (setIsTransitioning true (setError false s)) p)
          with (statusOf s p). by rewrite Hst. }
      split; [done|]. unfold Parked. rewrite H2. simpl. by rewrite Hsus.
    + unfold resume.
      change (statusOf (setIsTransitioning true (setError false s)) p)
        with (statusOf s p). rewrite Hst. split.
      * by apply (sound_same_data s).
      * unfold Parked. simpl. by rewrite Hsus.
  - pose proof (sound_quiet_empty s Hs Hb) as Hq.
    unfold await, statusOf. simpl.
    rewrite lookup_app_r by lia. rewrite Nat.sub_diag. simpl.
    split.
    + apply sound_mounted; simpl; try done.
      * intros i r. by apply queue_pending.
      * intros Hl Hf. destruct (counts_after_load s Hs Hl Hf) as [Hne _].
        congruence.
      * pose proof (one_initial_request s Hs Hm) as Ht.
        unfold issued, prefetchIssued in *. simpl.
        rewrite !List.filter_app, !length_app. simpl. lia.
    + unfold Parked. simpl. rewrite Hsus. simpl.
      unfold statusOf. simpl.
      rewrite lookup_app_r by lia. rewrite Nat.sub_diag. done.
Qed.


(** A status change of a request keeps the table sound. *)
Lemma settled_sound (s : Screen) (id : nat) (from : CallSite) (st : Status) :
  Sound s -> requests s !! id = Some {| site := from; status := Pending |} ->
  st <> Pending ->
  Sound (setRequests (<[id := {| site := from; status := st |}]> (requests s)) s).
Proof.
  intros Hs Hid Hst.
  pose proof (mounted_of_request s id _ Hs Hid) as Hm.
  apply sound_mounted; simpl.
  - done.
  - intros i r Hi H1 H2. destruct (decide (id = i)) as [->|Hne].
    + rewrite list_lookup_insert_eq in Hi
        by (by eapply lookup_lt_Some).
      injection Hi as <-. unfold isPending in H2. simpl in H2.
      by destruct st.
    + rewrite list_lookup_insert_ne in Hi by done.
      by apply (pending_is_buffered s Hs i r).
  - intros Hl Hf. destruct (counts_after_load s Hs Hl Hf) as [Hb Hc].
    split; [done|]. unfold prefetchIssued in *. simpl.
    by rewrite (filter_length_insert _ _ _ _ _ Hid).
  - pose proof (one_initial_request s Hs Hm) as Ht.
    unfold issued, prefetchIssued in *. simpl.
    rewrite length_insert. by rewrite (filter_length_insert _ _ _ _ _ Hid).
Qed.

Lemma settle_sound (s : Screen) (id : nat) (ok : bool) :
  Sound s -> Parked s ->
  Sound (settle id ok s) /\ Parked (settle id ok s).
Proof.
  intros Hs Hp. unfold settle.
  destruct (requests s !! id) as [[from [| |]]|] eqn:Hid; try done.
  pose proof (mounted_of_request s id _ Hs Hid) as Hm.
  assert (Hst : (if ok then Fulfilled else Rejected) <> Pending)
    by (by destruct ok).
  pose proof (settled_sound s id from _ Hs Hid Hst) as Hs1.
  set (r := {| site := from; status := if ok then Fulfilled else Rejected |})
    in *.
  unfold Parked in Hp.
  destruct (suspended s) as [|[q|p] [|k ks]] eqn:Hsus; try done.
  - simpl. rewrite Hsus. simpl. split.
    + by apply (sound_same_data _ _ Hs1).
    + unfold Parked. simpl. done.
  - subst s. destruct id as [|id]; [|done].
    injection Hid as <-. subst r. apply sound_first_answer.
  - destruct Hp as (Hload & Htrans & Herr & Hb & Hpend).
    cbn -[resume]. rewrite Hsus. cbn -[resume].
    destruct (Nat.eqb_spec p id) as [->|Hne]; cbn -[resume].
    + destruct (resume_next_sound
                  (setSuspended []
                     (setRequests (<[id := r]> (requests s)) s)) id)
        as [H1 H2].
      * by apply (sound_same_data _ _ Hs1).
      * done.
      * done.
      * unfold statusOf. simpl.
        rewrite list_lookup_insert_eq by (by eapply lookup_lt_Some).
        simpl. subst r. simpl. by destruct ok.
      * split; [done|]. unfold Parked. rewrite H2. simpl. done.
    + split.
      * by apply (sound_same_data _ _ Hs1).
      * unfold Parked. simpl. repeat (split; [done|]).
        unfold statusOf in *. simpl.
        by rewrite list_lookup_insert_ne.
Qed.

Lemma step_sound (s : Screen) (e : Event) :
  Sound s -> Parked s -> Sound (step s e) /\ Parked (step s e).
Proof.
  intros Hs Hp.
  assert (Hidle : isInitialLoading s = false ->
                  (isTransitioning s = false \/ error s = true) ->
                  suspended s = [] /\ mountedRef s = true).
  { intros Hload Hflags. split.
    - unfold Parked in Hp.
      destruct (suspended s) as [|[q|p] [|k ks]]; try done.
      + by subst s.
      + destruct Hp as (_ & ? & ? & _). destruct Hflags; congruence.
    - destruct (mountedRef s) eqn:Hm; [done|].
      rewrite (untouched_before_mount s Hs Hm) in Hload. done. }
  destruct e as [| | |id ok]; simpl.
  - unfold mountEffect. destruct (mountedRef s) eqn:Hm; [done|].
    rewrite (untouched_before_mount s Hs Hm).
    change (Sound loadingScreen /\ Parked loadingScreen).
    split; [apply sound_loadingScreen|reflexivity].
  - destruct (isTransitioning s) eqn:Ht; [done|].
    destruct (isInitialLoading s) eqn:Hl; [done|]. simpl.
    destruct (Hidle eq_refl (or_introl eq_refl)) as [Hsus Hm].
    by apply handleNext_sound.
  - destruct (isInitialLoading s) eqn:Hl; [done|].
    destruct (error s) eqn:He; [|done]. simpl.
    destruct (Hidle eq_refl (or_intror eq_refl)) as [Hsus Hm].
    by apply handleNext_sound.
  - by apply settle_sound.
Qed.

Lemma run_from_sound (trace : list Event) (s : Screen) :
  Sound s -> Parked s ->
  Sound (fold_left step trace s) /\ Parked (fold_left step trace s).
Proof.
  revert s. induction trace as [|e trace IH]; intros s Hs Hp; [done|].
  simpl. destruct (step_sound s e Hs Hp) as [Hs' Hp']. by apply IH.
Qed.

Lemma run_sound (trace : list Event) : Sound (run trace).
Proof.
  apply run_from_sound; [apply sound_initialScreen|exact I].
Qed.

End PipelineFacts.

Import PracticeScreen.

(** C1 as stated does not hold: the first successful load already issues
    the first prefetch, so after the load and one successful advance three
    requests have been issued, not two. *)
Lemma three_requests_after_one_advance :
  let s := run [Mount; Settle 0 true; ClickNext; Settle 1 true] in
  history s = [Loaded; Advanced] /\
  advances s = 1%nat /\
  issued s = 3%nat /\
  issued s <> (advances s + 1)%nat.
Proof. vm_compute. repeat split; discriminate. Qed.

(** Why failed advances are set aside below: a failed advance empties the
    buffer, and the next attempt issues a request of its own before the
    one that follows its success. *)
Lemma reissue_after_failed_advance :
  let s := run [Mount; Settle 0 true; ClickNext; Settle 1 false;
                ClickRetry; Settle 2 true] in
  history s = [Loaded; AdvanceFailed; Advanced] /\
  advances s = 1%nat /\ issued s = 4%nat /\ prefetchPending s = 1%nat.
Proof. vm_compute. repeat split. Qed.

(** C1, amended. In every execution of a practice screen in which the
    first load has succeeded and no advance has failed: with N successful
    advances so far, exactly N+1 prefetch requests have been issued (one
    right after the first load, so exactly one when N = 0, plus one per
    advance), which with the initial request makes N+2 generation requests
    in total; and at no point of the execution are two prefetch requests
    pending at the same time. *)
Theorem prefetch_pipeline_counts (trace : list Event) :
  Loaded ∈ history (run trace) ->
  AdvanceFailed ∉ history (run trace) ->
  prefetchIssued (run trace) = (advances (run trace) + 1)%nat /\
  issued (run trace) = (advances (run trace) + 2)%nat /\
  forall n, (prefetchPending (run (take n trace)) <= 1)%nat.
Proof.
  intros Hl Hf. pose proof (run_sound trace) as Hs.
  destruct (counts_after_load _ Hs Hl Hf) as [_ Hc].
  split; [exact Hc|]. split.
  - assert (Hm : mountedRef (run trace) = true).
    { destruct (mountedRef (run trace)) eqn:Hm; [done|].
      rewrite (untouched_before_mount _ Hs Hm) in Hl.
      by apply elem_of_nil in Hl. }
    rewrite (one_initial_request _ Hs Hm). lia.
  - intros n. apply sound_pending_bound, run_sound.
Qed.

(** A load, an advance answered after the click, and an advance whose
    prefetch had been answered before the click. *)
Lemma prefetch_pipeline_example :
  let trace := [Mount; Settle 0 true; ClickNext; Settle 1 true;
                Settle 2 true; ClickNext] in
  Loaded ∈ history (run trace) /\
  (AdvanceFailed ∉ history (run trace)) /\
  advances (run trace) = 2%nat /\
  prefetchIssued (run trace) = 3%nat /\
  issued (run trace) = 4%nat.
Proof.
  intros trace.
  assert (Hh : history (run trace) = [Loaded; Advanced; Advanced])
    by reflexivity.
  assert (Hl : Loaded ∈ history (run trace)) by (rewrite Hh; left).
  assert (Hf : AdvanceFailed ∉ history (run trace)).
  { rewrite Hh. intros H.
    repeat (apply elem_of_cons in H as [H|H]; [discriminate|]).
    by apply elem_of_nil in H. }
  split; [exact Hl|]. split; [exact Hf|].
  destruct (prefetch_pipeline_counts trace Hl Hf) as (Hp & Hi & _).
  split; [reflexivity|]. split; [exact Hp|exact Hi].
Defined.

(** ** Part III. Further properties of the code *)

(** *** Starting a practice (InputScreen.tsx, App.tsx) *)

Section StartFacts.

Lemma dropWhile_all (p : Z -> bool) (s : jsstring) :
  (forall c, c ∈ s -> p c = true) -> Js.dropWhile p s = [].
Proof.
  induction s as [|c s IH]; intros Hs; simpl; [done|].
  rewrite (Hs c) by left. apply IH. intros d Hd. apply Hs. by right.
Qed.

(** Trimming removes a stretch of whitespace at either end. *)
Lemma trim_decompose (s : jsstring) :
  exists front back,
    s = front ++ Js.trim s ++ back /\
    (forall c, c ∈ front -> Js.isWhiteSpace c = true) /\
    (forall c, c ∈ back -> Js.isWhiteSpace c = true).
Proof.
  unfold Js.trim, Js.trimEnd, Js.trimStart.
  destruct (dropWhile_split Js.isWhiteSpace s) as (front & Hs & Hfront).
  destruct (dropWhile_split Js.isWhiteSpace
              (rev (Js.dropWhile Js.isWhiteSpace s)))
    as (back & Hr & Hback).
  exists front, (rev back). split; [|split; [done|]].
  - rewrite <- rev_app_distr, <- Hr, rev_involutive. exact Hs.
  - intros c Hc. apply Hback.
    by apply list_elem_of_In, in_rev, list_elem_of_In.
Qed.

Lemma trim_nil_iff (s : jsstring) :
  Js.trim s = [] <-> forall c, c ∈ s -> Js.isWhiteSpace c = true.
Proof.
  split.
  - intros Ht c Hc.
    destruct (trim_decompose s) as (front & back & Hs & Hf & Hb).
    rewrite Ht in Hs. rewrite Hs in Hc. simpl in Hc.
    apply elem_of_app in Hc as [?|?]; auto.
  - intros Hs. unfold Js.trim, Js.trimStart.
    by rewrite (dropWhile_all _ s Hs).
Qed.

Lemma trim_elem_nonspace (s : jsstring) (c : Z) :
  c ∈ s -> Js.isWhiteSpace c = false -> c ∈ Js.trim s.
Proof.
  intros Hc Hws.
  destruct (trim_decompose s) as (front & back & Hs & Hf & Hb).
  rewrite Hs in Hc. rewrite !elem_of_app in Hc.
  destruct Hc as [Hc|[Hc|Hc]]; [|done|].
  - rewrite (Hf c Hc) in Hws. done.
  - rewrite (Hb c Hc) in Hws. done.
Qed.

Lemma splitLoop_keeps_piece (cls : Z -> bool) (s piece : jsstring)
  (inRun : bool) :
  piece <> [] ->
  exists t, t ∈ Js.splitLoop cls inRun piece s /\ t <> [].
Proof.
  revert piece inRun. induction s as [|c s IH]; intros piece inRun Hp; simpl.
  - exists piece. split; [left|done].
  - destruct (cls c).
    + destruct inRun; [by apply IH|].
      exists piece. split; [left|done].
    + apply IH. by destruct piece.
Qed.

Lemma splitLoop_has_word (cls : Z -> bool) (s piece : jsstring)
  (inRun : bool) :
  (exists c, c ∈ s /\ cls c = false) ->
  exists t, t ∈ Js.splitLoop cls inRun piece s /\ t <> [].
Proof.
  revert piece inRun. induction s as [|c s IH]; intros piece inRun.
  - intros (d & Hd & _). by apply elem_of_nil in Hd.
  - intros (d & Hd & Hcls). simpl. destruct (cls c) eqn:Hc.
    + assert (Hrest : exists c, c ∈ s /\ cls c = false).
      { apply elem_of_cons in Hd as [->|Hd]; [congruence|]. by exists d. }
      destruct inRun; [by apply IH|].
      destruct (IH [] true Hrest) as (t & Ht & Hne).
      exists t. split; [by right|done].
    + apply splitLoop_keeps_piece. by destruct piece.
Qed.

Lemma parseWords_nil_iff (text : jsstring) :
  App.parseWords text = [] <-> Js.trim text = [].
Proof.
  split.
  - intros Hp. destruct (Js.trim text) as [|c u] eqn:Ht; [done|]. exfalso.
    assert (Hhas : exists d, d ∈ Js.trim text /\ App.reSpaceOrNewline d = false).
    { destruct (decide (Forall (fun d => Js.isWhiteSpace d = true) text))
        as [Hall|Hsome].
      - rewrite Forall_forall in Hall. apply trim_nil_iff in Hall. congruence.
      - apply not_Forall_Exists in Hsome; [|apply _].
        apply Exists_exists in Hsome as (d & Hd & Hws).
        exists d. rewrite reSpaceOrNewline_is_whitespace.
        apply not_true_is_false in Hws.
        split; [by apply trim_elem_nonspace|done]. }
    destruct (splitLoop_has_word _ _ [] false Hhas) as (t & Hin & Hne).
    assert (Hw : t ∈ App.parseWords text).
    { unfold App.parseWords, Js.split. apply Set_from_elem.
      apply list_elem_of_In, filter_In. split; [by apply list_elem_of_In|].
      destruct t; [done|reflexivity]. }
    rewrite Hp in Hw. by apply elem_of_nil in Hw.
  - intros Ht. unfold App.parseWords. by rewrite Ht.
Qed.

End StartFacts.

Section StartTheorems.

Lemma nonempty_length (x : jsstring) :
  (0 <? Z.of_nat (length x)) = true <-> x <> [].
Proof.
  destruct x as [|c x]; simpl.
  - split; [done|]. intros H. by destruct H.
  - split; [done|]. intros _. reflexivity.
Qed.

Lemma Set_from_nil_iff (xs : list jsstring) : Js.Set_from xs = [] <-> xs = [].
Proof.
  split; [|by intros ->]. intros H. destruct xs as [|x xs]; [done|].
  assert (Hx : x ∈ Js.Set_from (x :: xs)) by (apply Set_from_elem; left).
  rewrite H in Hx. by apply elem_of_nil in Hx.
Qed.

Lemma valid_words_nil_iff (known learning : jsstring) :
  validHiraganaWords (App.handleStartPractice known learning) = []
  <-> Js.trim known = [] /\ Js.trim learning = [].
Proof.
  simpl. rewrite Set_from_nil_iff.
  rewrite <- !parseWords_nil_iff.
  split.
  - intros H. by apply app_eq_nil in H.
  - intros [-> ->]. done.
Qed.

End StartTheorems.

(** X1. The start button's condition holds exactly when the analysis of
    the two texts yields at least one valid word: a practice is never
    started on an empty vocabulary, and it is refused only when both texts
    consist of whitespace alone. *)
Theorem start_guard_is_nonempty_vocabulary (known learning : jsstring) :
  (InputScreen.hasWords known learning = true
   <-> validHiraganaWords (App.handleStartPractice known learning) <> []) /\
  (InputScreen.handleStart known learning = None
   <-> forall c, c ∈ known ++ learning -> Js.isWhiteSpace c = true) /\
  (forall vocabulary,
     InputScreen.handleStart known learning = Some vocabulary ->
     vocabulary = App.handleStartPractice known learning /\
     validHiraganaWords vocabulary <> []).
Proof.
  assert (Hguard : InputScreen.hasWords known learning = true
                   <-> Js.trim known <> [] \/ Js.trim learning <> []).
  { unfold InputScreen.hasWords. by rewrite orb_true_iff, !nonempty_length. }
  assert (Hvalid : InputScreen.hasWords known learning = true
     <-> validHiraganaWords (App.handleStartPractice known learning) <> []).
  { rewrite Hguard, valid_words_nil_iff.
    destruct (Js.trim known), (Js.trim learning).
    - split; [intros [?|?]; done|intros H; by destruct H].
    - split; [intros _ [_ ?]; done|intros _; by right].
    - split; [intros _ [? _]; done|intros _; by left].
    - split; [intros _ [? _]; done|intros _; by left]. }
  split; [exact Hvalid|]. split.
  - unfold InputScreen.handleStart.
    destruct (InputScreen.hasWords known learning) eqn:Hh.
    + split; [done|]. intros Hall. exfalso.
      destruct (proj1 Hguard eq_refl) as [Hk|Hl].
      * apply Hk, trim_nil_iff. intros c Hc. apply Hall, elem_of_app. by left.
      * apply Hl, trim_nil_iff. intros c Hc. apply Hall, elem_of_app. by right.
    + split; [|done]. intros _ c Hc.
      assert (Hnone : ~ (Js.trim known <> [] \/ Js.trim learning <> []))
        by (intros H; by apply Hguard in H).
      apply elem_of_app in Hc as [Hc|Hc].
      * apply (proj1 (trim_nil_iff known)); [|done].
        destruct (Js.trim known); [done|]. exfalso. apply Hnone. by left.
      * apply (proj1 (trim_nil_iff learning)); [|done].
        destruct (Js.trim learning); [done|]. exfalso. apply Hnone. by right.
  - intros v Hv. unfold InputScreen.handleStart in Hv.
    destruct (InputScreen.hasWords known learning) eqn:Hh; [|done].
    injection Hv as <-. split; [done|]. by apply Hvalid.
Qed.

(** The scenario's texts pass the guard; a text of two spaces and an
    empty one do not. *)
Lemma start_guard_example :
  InputScreen.handleStart (Sample.watashi ++ [Sample.newline] ++ Sample.neko)
    Sample.mizu = Some Sample.scenario /\
  validHiraganaWords Sample.scenario <> [] /\
  InputScreen.handleStart [Sample.space; Sample.space] [] = None.
Proof.
  assert (Hs : InputScreen.handleStart
                 (Sample.watashi ++ [Sample.newline] ++ Sample.neko)
                 Sample.mizu = Some Sample.scenario) by reflexivity.
  split; [exact Hs|]. split.
  - exact (proj2 (proj2 (proj2 (start_guard_is_nonempty_vocabulary _ _))
                    _ Hs)).
  - apply (start_guard_is_nonempty_vocabulary [Sample.space; Sample.space] []).
    intros c Hc. rewrite app_nil_r in Hc.
    repeat (apply elem_of_cons in Hc as [->|Hc]; [reflexivity|]).
    by apply elem_of_nil in Hc.
Defined.

(** X2. In an analysed vocabulary the known pool and the learning words
    split the valid words: together they are a rearrangement of
    [validHiraganaWords], and the known pool holds exactly the tokens of
    the known text that are not tokens of the learning text. *)
Theorem pools_partition_the_vocabulary (known learning : jsstring) :
  let vocabulary := App.handleStartPractice known learning in
  PracticeScreen.knownPool vocabulary ++ learningWords vocabulary
  ≡ₚ validHiraganaWords vocabulary /\
  forall w,
    w ∈ PracticeScreen.knownPool vocabulary
    <-> Spec.isToken w known /\ ~ Spec.isToken w learning.
Proof.
  intros vocabulary.
  destruct (analyzed_vocabulary_wellformed known learning) as (Hv & Hl & _).
  fold vocabulary in Hv, Hl.
  assert (Hlearn : forall w, w ∈ learningWords vocabulary
                             <-> Spec.isToken w learning)
    by (intros w; apply parseWords_tokens).
  assert (Hpool : forall w, w ∈ PracticeScreen.knownPool vocabulary
                            <-> Spec.isToken w known /\ ~ Spec.isToken w learning).
  { intros w. unfold PracticeScreen.knownPool.
    rewrite list_elem_of_filter, Hlearn.
    unfold vocabulary. rewrite valid_words_tokens. tauto. }
  split; [|exact Hpool].
  apply NoDup_Permutation.
  - apply NoDup_app. split; [by apply NoDup_filter|]. split; [|done].
    intros w Hw. apply Hpool in Hw as [_ Hw]. by rewrite Hlearn.
  - done.
  - intros w. rewrite elem_of_app, Hpool, Hlearn.
    unfold vocabulary. rewrite valid_words_tokens.
    destruct (decide (w ∈ learningWords vocabulary)) as [Hin|Hout].
    + apply Hlearn in Hin. tauto.
    + rewrite Hlearn in Hout. tauto.
Qed.

(** In the scenario the known pool is the two known words. *)
Lemma pools_scenario :
  Spec.isToken Sample.neko (Sample.watashi ++ [Sample.newline] ++ Sample.neko) /\
  ~ Spec.isToken Sample.neko Sample.mizu /\
  Sample.neko ∈ PracticeScreen.knownPool Sample.scenario.
Proof.
  assert (Hin : Sample.neko ∈ PracticeScreen.knownPool Sample.scenario).
  { vm_compute. right. left. }
  destruct (pools_partition_the_vocabulary
              (Sample.watashi ++ [Sample.newline] ++ Sample.neko) Sample.mizu)
    as [_ Hpool].
  destruct (proj1 (Hpool Sample.neko) Hin) as [H1 H2].
  split; [exact H1|]. split; [exact H2|exact Hin].
Defined.

(** *** The statistics panel (WordStatistics.tsx) *)

Section RowFacts.

Variable cmp : WordStatistics.Row -> WordStatistics.Row -> Js.number.




End RowFacts.

Section RowOrder.

Variable tally : gmap (list Z) Z.
Hypothesis tally_safe : Spec.safe tally.



End RowOrder.



(** *** More on the suggestion selector *)

(** X4. When the learning pool has at most 3 words and the two pools
    together at most 5, the selector suggests every word of both pools
    (so nothing for an empty vocabulary); and with an empty learning pool
    all of up to 5 suggestions come from the known pool. *)
Theorem small_vocabulary_is_suggested_whole
  (vocabulary : AnalyzedVocabulary) (wordStats : WordStats) (g : Rng) :
  let suggestions :=
    (PracticeScreen.getSuggestedWords vocabulary wordStats g).1 in
  ((length (learningWords vocabulary) <= 3)%nat ->
   (length (learningWords vocabulary)
    + length (PracticeScreen.knownPool vocabulary) <= 5)%nat ->
   suggestions
   ≡ₚ learningWords vocabulary ++ PracticeScreen.knownPool vocabulary) /\
  (learningWords vocabulary = [] ->
   length suggestions
   = Nat.min 5 (length (PracticeScreen.knownPool vocabulary)) /\
   forall w, w ∈ suggestions -> w ∈ PracticeScreen.knownPool vocabulary).
Proof.
  intros suggestions. subst suggestions.
  destruct (getSuggestedWords_shape wordStats vocabulary g)
    as (Hpl & Hpk & ->).
  cbn [fst].
  set (sl := (JsArray.sort _ (learningWords vocabulary) g).1) in *.
  set (sk := (JsArray.sort _ (PracticeScreen.knownPool vocabulary) _).1) in *.
  pose proof (Permutation_length Hpl) as Hll.
  pose proof (Permutation_length Hpk) as Hlk.
  split.
  - intros H3 H5. rewrite (take_ge sl 3) by lia.
    rewrite (take_ge sk) by lia. by rewrite Hpl, Hpk.
  - intros Hnil. rewrite Hnil in Hll. apply nil_length_inv in Hll.
    rewrite Hll, take_nil. cbn [length app]. rewrite Nat.sub_0_r. split.
    + by rewrite length_take, Hlk.
    + intros w Hw. apply subseteq_take in Hw. by rewrite Hpk in Hw.
Qed.

(** The scenario has one learning word and two known words: all three are
    suggested. *)
Lemma small_vocabulary_scenario :
  (length (learningWords Sample.scenario) <= 3)%nat /\
  (length (learningWords Sample.scenario)
   + length (PracticeScreen.knownPool Sample.scenario) <= 5)%nat /\
  (PracticeScreen.getSuggestedWords Sample.scenario ∅ Sample.noRandomness).1
  ≡ₚ learningWords Sample.scenario ++ PracticeScreen.knownPool Sample.scenario.
Proof.
  assert (H3 : (length (learningWords Sample.scenario) <= 3)%nat)
    by (vm_compute; lia).
  assert (H5 : (length (learningWords Sample.scenario)
                + length (PracticeScreen.knownPool Sample.scenario) <= 5)%nat)
    by (vm_compute; lia).
  split; [exact H3|]. split; [exact H5|].
  exact (proj1 (small_vocabulary_is_suggested_whole Sample.scenario ∅
                  Sample.noRandomness) H3 H5).
Defined.

Section TieFacts.

Variable wordStats : WordStats.

Lemma strictEquals_ne (a b : Js.value) :
  a <> b -> Js.strictEquals a b = false.
Proof.
  intros Hne. unfold Js.strictEquals.
  destruct a as [|[[| |]|]|], b as [|[[| |]|]|];
    try done; by apply bool_decide_eq_false_2.
Qed.

(** Without a tie the comparator draws no random number. *)
Lemma insertInto_no_tie (x : jsstring) (sorted : list jsstring) (g g' : Rng) :
  (forall y, y ∈ sorted ->
     PracticeScreen.usage wordStats x <> PracticeScreen.usage wordStats y) ->
  (JsArray.insertInto (PracticeScreen.sortByUsage wordStats) x sorted g).1
  = (JsArray.insertInto (PracticeScreen.sortByUsage wordStats) x sorted g').1 /\
  (JsArray.insertInto (PracticeScreen.sortByUsage wordStats) x sorted g).2 = g.
Proof.
  revert g g'. induction sorted as [|y rest IH]; intros g g' Hne; [done|].
  simpl. unfold PracticeScreen.sortByUsage at 1 3 5.
  rewrite (strictEquals_ne _ _ (Hne y ltac:(left))).
  destruct (negb _); [done|].
  destruct (IH g g') as [H1 H2]; [intros z Hz; apply Hne; by right|].
  destruct (JsArray.insertInto _ x rest g) as [p1 g1].
  destruct (JsArray.insertInto _ x rest g') as [p2 g2].
  simpl in *. by subst.
Qed.

Lemma sort_from_no_tie (xs acc : list jsstring) (g g' : Rng) :
  NoDup (PracticeScreen.usage wordStats <$> xs ++ acc) ->
  (fold_left
     (fun acc x =>
        JsArray.insertInto (PracticeScreen.sortByUsage wordStats) x acc.1 acc.2)
     xs (acc, g)).1
  = (fold_left
       (fun acc x =>
          JsArray.insertInto (PracticeScreen.sortByUsage wordStats) x acc.1 acc.2)
       xs (acc, g')).1 /\
  (fold_left
     (fun acc x =>
        JsArray.insertInto (PracticeScreen.sortByUsage wordStats) x acc.1 acc.2)
     xs (acc, g)).2 = g.
Proof.
  revert acc g g'. induction xs as [|x xs IH]; intros acc g g' Hnd; [done|].
  simpl in *. apply NoDup_cons in Hnd as [Hx Hnd].
  assert (Hne : forall y, y ∈ acc ->
            PracticeScreen.usage wordStats x <> PracticeScreen.usage wordStats y).
  { intros y Hy Heq. apply Hx. rewrite Heq.
    apply list_elem_of_fmap. exists y. split; [done|].
    apply elem_of_app. by right. }
  destruct (insertInto_no_tie x acc g g' Hne) as [H1 H2].
  pose proof (insertInto_perm (PracticeScreen.sortByUsage wordStats) x acc g)
    as Hperm.
  destruct (JsArray.insertInto _ x acc g) as [a1 g1].
  destruct (JsArray.insertInto _ x acc g') as [a2 g2].
  simpl in *. subst a2 g1. apply IH.
  rewrite Hperm. rewrite <- Permutation_middle. simpl.
  apply NoDup_cons. done.
Qed.

Lemma sort_no_tie (xs : list jsstring) (g g' : Rng) :
  NoDup (PracticeScreen.usage wordStats <$> xs) ->
  JsArray.sort (PracticeScreen.sortByUsage wordStats) xs g
  = ((JsArray.sort (PracticeScreen.sortByUsage wordStats) xs g').1, g).
Proof.
  intros Hnd. unfold JsArray.sort.
  destruct (sort_from_no_tie xs [] g g') as [H1 H2].
  { by rewrite app_nil_r. }
  destruct (fold_left _ xs ([], g)) as [r1 g1]. simpl in *. by subst.
Qed.

End TieFacts.

(** X5. When within each pool no two words have the same usage count, the
    selector draws no random number: it leaves the random stream where it
    was and its suggestions do not depend on the stream. *)
Theorem distinct_counts_need_no_randomness
  (vocabulary : AnalyzedVocabulary) (wordStats : WordStats) (g g' : Rng) :
  NoDup (PracticeScreen.usage wordStats <$> learningWords vocabulary) ->
  NoDup (PracticeScreen.usage wordStats <$> PracticeScreen.knownPool vocabulary) ->
  PracticeScreen.getSuggestedWords vocabulary wordStats g
  = ((PracticeScreen.getSuggestedWords vocabulary wordStats g').1, g).
Proof.
  intros Hl Hk. unfold PracticeScreen.getSuggestedWords.
  rewrite (sort_no_tie wordStats (learningWords vocabulary) g g' Hl).
  destruct (JsArray.sort _ (learningWords vocabulary) g') as [sl g1'].
  simpl.
  rewrite (sort_no_tie wordStats (PracticeScreen.knownPool vocabulary) g g1' Hk).
  destruct (JsArray.sort _ (PracticeScreen.knownPool vocabulary) g1')
    as [sk g2'].
  reflexivity.
Qed.

(** The scenario with three different counts. *)
Lemma distinct_counts_example :
  let wordStats := Spec.record {[ Sample.watashi := 2; Sample.neko := 1 ]} in
  let other : Rng := {| stream := fun _ => 1%Q; cursor := 7 |} in
  NoDup (PracticeScreen.usage wordStats <$> learningWords Sample.scenario) /\
  NoDup (PracticeScreen.usage wordStats
           <$> PracticeScreen.knownPool Sample.scenario) /\
  PracticeScreen.getSuggestedWords Sample.scenario wordStats Sample.noRandomness
  = ((PracticeScreen.getSuggestedWords Sample.scenario wordStats other).1,
     Sample.noRandomness).
Proof.
  intros wordStats other.
  assert (Hl : NoDup (PracticeScreen.usage wordStats
                        <$> learningWords Sample.scenario)).
  { refine (bool_decide_unpack (NoDup _) _). vm_compute. exact I. }
  assert (Hk : NoDup (PracticeScreen.usage wordStats
                        <$> PracticeScreen.knownPool Sample.scenario)).
  { refine (bool_decide_unpack (NoDup _) _). vm_compute. exact I. }
  split; [exact Hl|]. split; [exact Hk|].
  exact (distinct_counts_need_no_randomness Sample.scenario wordStats
           Sample.noRandomness other Hl Hk).
Defined.

(** X6. With whole-number totals and learning words that are no
    properties of [Object.prototype], a learning word is certain to be
    suggested when at most two other learning words have been used no more
    often than it: whatever the random stream, the selector cannot pass it
    over. *)
Theorem least_used_learning_word_is_suggested
  (vocabulary : AnalyzedVocabulary) (tally : gmap (list Z) Z) (g : Rng)
  (w : jsstring) :
  NoDup (learningWords vocabulary) ->
  Forall Spec.plain (learningWords vocabulary) ->
  Spec.safe tally ->
  w ∈ learningWords vocabulary ->
  (length
     (filter (fun a => a <> w /\ (Spec.count tally a <= Spec.count tally w)%Z)
        (learningWords vocabulary)) <= 2)%nat ->
  w ∈ (PracticeScreen.getSuggestedWords vocabulary (Spec.record tally) g).1.
Proof.
  intros Hnd Hplain Hsafe Hw Hfew.
  destruct (getSuggestedWords_shape (Spec.record tally) vocabulary g)
    as (Hpl & _ & ->).
  pose proof (sort_sorted tally Hsafe (learningWords vocabulary) g Hplain)
    as Hsl.
  cbn [fst].
  set (sl := (JsArray.sort _ (learningWords vocabulary) g).1) in *.
  apply elem_of_app. left.
  destruct (decide (w ∈ take 3 sl)) as [Hin|Hout]; [done|]. exfalso.
  assert (Hdrop : w ∈ drop 3 sl).
  { rewrite <- Hpl, <- (take_drop 3 sl) in Hw.
    apply elem_of_app in Hw as [?|?]; done. }
  assert (Hsplit : StronglySorted (Spec.noMoreUsed tally)
                     (take 3 sl ++ drop 3 sl)) by (by rewrite take_drop).
  assert (Hnd' : NoDup (take 3 sl ++ drop 3 sl))
    by (by rewrite take_drop, Hpl).
  apply NoDup_app in Hnd' as (Hnt & Hdisj & _).
  assert (Hsub : take 3 sl ⊆+
                 filter (fun a => a <> w /\ Spec.count tally a
                                           <= Spec.count tally w)
                   (learningWords vocabulary)).
  { apply NoDup_submseteq; [done|]. intros a Ha.
    apply list_elem_of_filter. split; [split|].
    - intros ->. by apply (Hdisj w).
    - by apply (StronglySorted_app_1_elem_of _ _ _ a w Hsplit).
    - rewrite <- Hpl. by apply (subseteq_take 3 sl). }
  apply submseteq_length in Hsub. rewrite length_take in Hsub.
  assert (length sl > 3)%nat; [|lia].
  destruct (Nat.le_gt_cases (length sl) 3) as [Hle|?]; [|done].
  rewrite drop_ge in Hdrop by done. by apply elem_of_nil in Hdrop.
Qed.

(** Among five learning words, one that has not been used while the
    others have is suggested. *)
Lemma least_used_example :
  let tally : gmap (list Z) Z :=
    {[ Sample.watashi := 3; Sample.neko := 1; Sample.mizu := 2;
       [Sample.mi; Sample.ru] := 5 ]} in
  NoDup (learningWords Sample.onlyLearning) /\
  Forall Spec.plain (learningWords Sample.onlyLearning) /\
  Spec.safe tally /\
  Sample.momo ∈ learningWords Sample.onlyLearning /\
  Sample.momo
  ∈ (PracticeScreen.getSuggestedWords Sample.onlyLearning (Spec.record tally)
       Sample.noRandomness).1.
Proof.
  intros tally.
  assert (Hnd : NoDup (learningWords Sample.onlyLearning)).
  { refine (bool_decide_unpack (NoDup _) _). vm_compute. exact I. }
  assert (Hplain : Forall Spec.plain (learningWords Sample.onlyLearning)).
  { repeat constructor. }
  assert (Hsafe : Spec.safe tally).
  { intros w z Hw. simpl. unfold Spec.maxSafe.
    repeat (apply lookup_insert_Some in Hw as [[_ <-]|[_ Hw]]; [lia|]).
    apply lookup_singleton_Some in Hw as [_ <-]. lia. }
  assert (Hw : Sample.momo ∈ learningWords Sample.onlyLearning).
  { refine (bool_decide_unpack (_ ∈ _) _). vm_compute. exact I. }
  split; [exact Hnd|]. split; [exact Hplain|]. split; [exact Hsafe|].
  split; [exact Hw|].
  apply (least_used_learning_word_is_suggested Sample.onlyLearning tally
           Sample.noRandomness Sample.momo Hnd Hplain Hsafe Hw).
  vm_compute. lia.
Defined.

(** *** More on counting and on the updater *)

Section EmptyWordFacts.

Lemma indexOf_empty_word (text : jsstring) (p : Z) :
  0 <= Js.indexOf text [] p.
Proof.
  unfold Js.indexOf.
  destruct (drop _ text); simpl; lia.
Qed.

Lemma countLoop_empty_word (fuel : nat) (text : jsstring) (pos count : Z) :
  0 <= pos -> PracticeScreen.countLoop fuel text [] pos count = None.
Proof.
  revert pos count. induction fuel as [|fuel IH]; intros pos count Hpos;
    [done|].
  simpl. destruct (Z.eqb_spec pos (-1)) as [?|_]; [lia|]. simpl.
  apply IH, indexOf_empty_word.
Qed.

Lemma countFold_empty_word (fuel : nat) (text : jsstring)
  (words : list jsstring) (acc : option (gmap (list Z) Z)) :
  [] ∈ words ->
  fold_left
    (fun acc word => c ← acc; PracticeScreen.countWord fuel text word c)
    words acc = None.
Proof.
  revert acc. induction words as [|x words IH]; intros acc Hin.
  - by apply elem_of_nil in Hin.
  - simpl. apply elem_of_cons in Hin as [<-|Hin]; [|by apply IH].
    destruct acc as [c|]; simpl; [|apply countFold_none].
    unfold PracticeScreen.countWord.
    rewrite countLoop_empty_word by apply indexOf_empty_word.
    apply countFold_none.
Qed.

End EmptyWordFacts.

(** X7. With the empty word among the valid words the scan of any text
    never ends, whatever the fuel: the loop of [countUsedWords] is still
    running when the fuel is spent, and so are the reading and the writing
    update that call it. *)
Theorem empty_word_scan_never_ends
  (fuel : nat) (vocabulary : AnalyzedVocabulary) (text : jsstring)
  (stats : WordStats) :
  [] ∈ validHiraganaWords vocabulary ->
  PracticeScreen.countUsedWords fuel vocabulary text = None /\
  PracticeScreen.processNewSentence fuel vocabulary text stats = None /\
  forall userDraft,
    WritingPracticeScreen.handleReveal fuel vocabulary userDraft text stats
    = None.
Proof.
  intros Hin.
  assert (Hscan : PracticeScreen.countUsedWords fuel vocabulary text = None)
    by (by apply countFold_empty_word).
  split; [exact Hscan|]. split.
  - unfold PracticeScreen.processNewSentence. by rewrite Hscan.
  - intros userDraft. unfold WritingPracticeScreen.handleReveal.
    by rewrite Hscan.
Qed.

(** A vocabulary built by hand around the empty word. *)
Lemma empty_word_example :
  let vocabulary :=
    {| validHiraganaWords := [Sample.neko; []]; learningWords := [];
       allowedCharacters := [] |} in
  [] ∈ validHiraganaWords vocabulary /\
  PracticeScreen.countUsedWords 1000 vocabulary Sample.nekoSentence = None.
Proof.
  intros vocabulary.
  assert (Hin : [] ∈ validHiraganaWords vocabulary) by (right; left).
  split; [exact Hin|].
  exact (proj1 (empty_word_scan_never_ends 1000 vocabulary
                  Sample.nekoSentence ∅ Hin)).
Defined.

Section BoundFacts.

Lemma startsWith_length (word s : jsstring) :
  Js.startsWith word s = true -> (length word <= length s)%nat.
Proof.
  revert s. induction word as [|a word IH]; intros s H.
  - simpl. lia.
  - destruct s as [|b s]; [done|]. simpl in *.
    apply andb_true_iff in H as [_ H]. apply IH in H. lia.
Qed.

Lemma occurrences_bound (word text : jsstring) :
  word <> [] ->
  Spec.occurrences word text
  <= Z.max 0 (Z.of_nat (length text) - Z.of_nat (length word) + 1).
Proof.
  intros Hword. induction text as [|c text IH]; [simpl; lia|].
  change (Spec.occurrences word (c :: text))
    with ((if Js.startsWith word (c :: text) then 1 else 0)
          + Spec.occurrences word text).
  destruct (Js.startsWith word (c :: text)) eqn:Hs.
  - apply startsWith_length in Hs. simpl in Hs.
    rewrite length_cons. lia.
  - rewrite length_cons. lia.
Qed.

End BoundFacts.

(** X8. For a vocabulary without the empty word and enough fuel, every
    entry of the scan's result belongs to a valid word, and its count is
    at least 1 and at most the number of offsets at which the word fits
    into the text; so a word longer than the text gets no entry, and the
    empty text gives the empty record. *)
Theorem scan_counts_are_bounded
  (fuel : nat) (vocabulary : AnalyzedVocabulary) (text : jsstring) :
  (forall w, w ∈ validHiraganaWords vocabulary -> w <> []) ->
  (length text + 1 < fuel)%nat ->
  exists usedCounts,
    PracticeScreen.countUsedWords fuel vocabulary text = Some usedCounts /\
    (forall w count,
       usedCounts !! w = Some count ->
       w ∈ validHiraganaWords vocabulary /\
       1 <= count /\
       count + Z.of_nat (length w) <= Z.of_nat (length text) + 1) /\
    (text = [] -> usedCounts = ∅).
Proof.
  intros Hwords Hfuel.
  destruct (countUsedWords_spec fuel vocabulary text Hwords Hfuel)
    as (usedCounts & Hrun & Hlook).
  exists usedCounts. split; [exact Hrun|].
  assert (Hentry : forall w count,
            usedCounts !! w = Some count ->
            w ∈ validHiraganaWords vocabulary /\
            1 <= count /\
            count + Z.of_nat (length w) <= Z.of_nat (length text) + 1).
  { intros w count Hw. rewrite Hlook in Hw.
    case_decide as Hd; [|done]. injection Hw as <-.
    destruct Hd as [Hin Hpos]. split; [done|]. split; [lia|].
    pose proof (occurrences_bound w text (Hwords w Hin)). lia. }
  split; [exact Hentry|].
  intros ->. apply map_empty. intros w.
  destruct (usedCounts !! w) as [count|] eqn:Hw; [|done].
  destruct (Hentry w count Hw) as (Hin & H1 & H2).
  pose proof (Hwords w Hin). destruct w; [done|]. simpl in H2. lia.
Qed.

(** The scan of the example text over the scenario's vocabulary. *)
Lemma scan_counts_example :
  (forall w, w ∈ validHiraganaWords Sample.scenario -> w <> []) /\
  (length Sample.nekoSentence + 1 < 20)%nat /\
  exists usedCounts,
    PracticeScreen.countUsedWords 20 Sample.scenario Sample.nekoSentence
    = Some usedCounts /\
    forall w count, usedCounts !! w = Some count -> 1 <= count <= 8.
Proof.
  assert (Hwords : forall w, w ∈ validHiraganaWords Sample.scenario -> w <> [])
    by apply (analyzed_vocabulary_wellformed
                (Sample.watashi ++ [Sample.newline] ++ Sample.neko)
                Sample.mizu).
  assert (Hfuel : (length Sample.nekoSentence + 1 < 20)%nat)
    by (vm_compute; lia).
  split; [exact Hwords|]. split; [exact Hfuel|].
  destruct (scan_counts_are_bounded 20 Sample.scenario Sample.nekoSentence
              Hwords Hfuel) as (usedCounts & Hrun & Hentry & _).
  exists usedCounts. split; [exact Hrun|].
  intros w count Hw. destruct (Hentry w count Hw) as (Hin & H1 & H2).
  change (Z.of_nat (length Sample.nekoSentence)) with 8 in H2.
  pose proof (Hwords w Hin). destruct w; [done|]. simpl in H2. lia.
Defined.

Section CommuteFacts.

Lemma addCounts_comm (a b tally : gmap (list Z) Z) :
  Spec.addCounts b (Spec.addCounts a tally)
  = Spec.addCounts a (Spec.addCounts b tally).
Proof.
  apply map_eq. intros w. unfold Spec.addCounts.
  rewrite !lookup_union_with.
  destruct (a !! w), (b !! w), (tally !! w); simpl; f_equal; lia.
Qed.

Lemma fits_swap (a b tally : gmap (list Z) Z) :
  Spec.safe tally ->
  Spec.fits a tally -> Spec.fits b (Spec.addCounts a tally) ->
  Spec.fits b tally /\ Spec.fits a (Spec.addCounts b tally).
Proof.
  intros Hsafe Ha Hb. split; intros w c Hw.
  - destruct (Hb w c Hw) as (Hp & Hc & Hsum).
    rewrite addCounts_count in Hsum.
    split; [done|]. split; [done|].
    destruct (a !! w) as [ca|] eqn:E; simpl in Hsum; [|lia].
    destruct (Ha w ca E) as (_ & ? & _). lia.
  - destruct (Ha w c Hw) as (Hp & Hc & Hsum).
    split; [done|]. split; [done|]. rewrite addCounts_count.
    destruct (b !! w) as [cb|] eqn:E; simpl; [|lia].
    destruct (Hb w cb E) as (_ & _ & Hsum').
    rewrite addCounts_count, Hw in Hsum'. simpl in Hsum'. lia.
Qed.

End CommuteFacts.

(** X9. The updater applied with the empty record changes nothing. On
    whole-number totals, for words that are no properties of
    [Object.prototype] and sums within 2^53 - 1, two updates can arrive in
    either order: both orders leave the record of the totals with both
    counts added. *)
Theorem stats_updates_commute
  (a b : gmap (list Z) Z) (stats : WordStats) (tally : gmap (list Z) Z) :
  App.createStatsUpdater ∅ stats = stats /\
  (Spec.safe tally -> Spec.fitsAll [a; b] tally ->
   Spec.applyUpdates [a; b] (Spec.record tally)
   = Spec.record (Spec.addCounts b (Spec.addCounts a tally)) /\
   Spec.applyUpdates [b; a] (Spec.record tally)
   = Spec.applyUpdates [a; b] (Spec.record tally)).
Proof.
  split.
  - apply map_eq. intros w. by rewrite createStatsUpdater_lookup, lookup_empty.
  - intros Hsafe (Ha & Hb & _).
    destruct (fits_swap a b tally Hsafe Ha Hb) as [Hb' Ha'].
    unfold Spec.applyUpdates. cbn [fold_left].
    rewrite (createStatsUpdater_record a tally) by done.
    rewrite (createStatsUpdater_record b (Spec.addCounts a tally))
      by (done || by apply addCounts_safe).
    rewrite (createStatsUpdater_record b tally) by done.
    rewrite (createStatsUpdater_record a (Spec.addCounts b tally))
      by (done || by apply addCounts_safe).
    split; [done|]. by rewrite addCounts_comm.
Qed.

(** A reading update and a visual one, in both orders. *)
Lemma stats_updates_example :
  let a : gmap (list Z) Z := {[ Sample.neko := 2 ]} in
  let b : gmap (list Z) Z := {[ Sample.neko := 3; Sample.mizu := 1 ]} in
  Spec.safe ∅ /\ Spec.fitsAll [a; b] ∅ /\
  Spec.applyUpdates [b; a] (Spec.record ∅)
  = Spec.applyUpdates [a; b] (Spec.record ∅) /\
  Spec.applyUpdates [a; b] (Spec.record ∅)
  = Spec.record {[ Sample.neko := 5; Sample.mizu := 1 ]}.
Proof.
  intros a b.
  assert (Hsafe : Spec.safe ∅) by apply map_Forall_empty.
  assert (Hfit : Spec.fitsAll [a; b] ∅).
  { split; [|split; [|exact I]].
    - intros w c Hw. apply lookup_singleton_Some in Hw as [<- <-].
      split; [reflexivity|]. vm_compute. split; discriminate.
    - intros w c Hw.
      apply lookup_insert_Some in Hw as [[<- <-]|[_ Hw]].
      + split; [reflexivity|]. vm_compute. split; discriminate.
      + apply lookup_singleton_Some in Hw as [<- <-].
        split; [reflexivity|]. vm_compute. split; discriminate. }
  split; [exact Hsafe|]. split; [exact Hfit|].
  split.
  - exact (proj2 (proj2 (stats_updates_commute a b ∅ ∅) Hsafe Hfit)).
  - vm_compute. reflexivity.
Defined.

(** *** More on the answer check *)

Section NormalizeFacts.

Lemma replaceAll_app (cls : Z -> bool) (a b : jsstring) :
  Js.replaceAllWithEmpty cls (a ++ b)
  = Js.replaceAllWithEmpty cls a ++ Js.replaceAllWithEmpty cls b.
Proof. unfold Js.replaceAllWithEmpty. apply List.filter_app. Qed.

Lemma replaceAll_idem (cls : Z -> bool) (a : jsstring) :
  Js.replaceAllWithEmpty cls (Js.replaceAllWithEmpty cls a)
  = Js.replaceAllWithEmpty cls a.
Proof.
  rewrite replaceAll_twice. apply replaceAll_ext. intros c.
  apply orb_diag.
Qed.

Lemma punctuation_not_whitespace (c : Z) :
  WritingPracticeScreen.rePunctuation c = true -> Js.isWhiteSpace c = false.
Proof.
  unfold WritingPracticeScreen.rePunctuation. intros H.
  repeat (apply orb_true_iff in H as [H|H]);
    apply Z.eqb_eq in H; subst; reflexivity.
Qed.

End NormalizeFacts.

(** X10. Both normalisations work code unit by code unit: the normal form
    of a concatenation is the concatenation of the normal forms, and a
    normal form is its own normal form. Hence a whitespace code unit
    anywhere in a string, and in writing mode also one of the punctuation
    marks, never changes the normal form and so never the verdict. *)
Theorem normalization_is_local_and_idempotent (a b : jsstring) (c : Z) :
  WritingPracticeScreen.normalizeJapanese (a ++ b)
  = WritingPracticeScreen.normalizeJapanese a
    ++ WritingPracticeScreen.normalizeJapanese b /\
  VisualQuizScreen.normalizeJapanese (a ++ b)
  = VisualQuizScreen.normalizeJapanese a
    ++ VisualQuizScreen.normalizeJapanese b /\
  WritingPracticeScreen.normalizeJapanese
    (WritingPracticeScreen.normalizeJapanese a)
  = WritingPracticeScreen.normalizeJapanese a /\
  VisualQuizScreen.normalizeJapanese (VisualQuizScreen.normalizeJapanese a)
  = VisualQuizScreen.normalizeJapanese a /\
  (Js.isWhiteSpace c = true ->
   VisualQuizScreen.normalizeJapanese (a ++ c :: b)
   = VisualQuizScreen.normalizeJapanese (a ++ b)) /\
  (Js.isWhiteSpace c = true \/ WritingPracticeScreen.rePunctuation c = true ->
   WritingPracticeScreen.normalizeJapanese (a ++ c :: b)
   = WritingPracticeScreen.normalizeJapanese (a ++ b)).
Proof.
  rewrite !writing_normalize_filter, !visual_normalize_filter.
  rewrite !replaceAll_app, !replaceAll_idem.
  repeat (split; [done|]). split.
  - intros Hc. unfold Js.replaceAllWithEmpty at 2. simpl. by rewrite Hc.
  - intros Hc. unfold Js.replaceAllWithEmpty at 2. simpl.
    assert (Js.isWhiteSpace c || WritingPracticeScreen.rePunctuation c = true)
      as -> by (apply orb_true_iff; exact Hc).
    done.
Qed.

(** A full-width space inside the answer. *)
Lemma normalization_local_example :
  Js.isWhiteSpace 0x3000 = true /\
  VisualQuizScreen.normalizeJapanese ([Sample.ne] ++ 0x3000 :: [Sample.ko])
  = VisualQuizScreen.normalizeJapanese Sample.neko.
Proof.
  split; [reflexivity|].
  destruct (normalization_is_local_and_idempotent [Sample.ne] [Sample.ko]
              0x3000) as (_ & _ & _ & _ & Hv & _).
  exact (Hv eq_refl).
Defined.

(** X11. The visual check keeps punctuation: an answer that would be
    correct, followed by one of the punctuation marks that the writing
    check strips, is judged incorrect and leaves the visual totals as they
    were, while the writing normalisation of the two strings is the
    same. *)
Theorem visual_check_keeps_punctuation
  (quiz : VisualQuizScreen.VisualQuizData) (userInput : jsstring) (p : Z)
  (validationState : VisualQuizScreen.ValidationState) (stats : WordStats) :
  WritingPracticeScreen.rePunctuation p = true ->
  VisualQuizScreen.normalizeJapanese userInput
  = VisualQuizScreen.normalizeJapanese (VisualQuizScreen.targetWord quiz) ->
  VisualQuizScreen.handleSubmit (Some quiz) (userInput ++ [p]) validationState
    stats
  = (VisualQuizScreen.incorrect, stats) /\
  WritingPracticeScreen.normalizeJapanese (userInput ++ [p])
  = WritingPracticeScreen.normalizeJapanese userInput.
Proof.
  intros Hp Heq. split.
  - unfold VisualQuizScreen.handleSubmit.
    rewrite bool_decide_eq_false_2; [done|].
    rewrite <- Heq. rewrite !visual_normalize_filter, replaceAll_app.
    unfold Js.replaceAllWithEmpty at 2. simpl.
    rewrite (punctuation_not_whitespace p Hp). simpl.
    intros H. apply (f_equal length) in H. rewrite length_app in H.
    simpl in H. lia.
  - rewrite !writing_normalize_filter, replaceAll_app.
    unfold Js.replaceAllWithEmpty at 2. simpl.
    rewrite Hp, orb_true_r. by rewrite app_nil_r.
Qed.

(** The target word typed with an ideographic full stop behind it. *)
Lemma visual_punctuation_example :
  let quiz := {| VisualQuizScreen.originalSentence := Sample.nekoSentence;
                 VisualQuizScreen.targetWord := Sample.neko |} in
  WritingPracticeScreen.rePunctuation Sample.maru = true /\
  VisualQuizScreen.handleSubmit (Some quiz) (Sample.neko ++ [Sample.maru])
    VisualQuizScreen.idle ∅
  = (VisualQuizScreen.incorrect, ∅).
Proof.
  intros quiz. split; [reflexivity|].
  exact (proj1 (visual_check_keeps_punctuation quiz Sample.neko Sample.maru
                  VisualQuizScreen.idle ∅ eq_refl eq_refl)).
Defined.

(** *** The store and the API key (App.tsx, ConfigScreen.tsx) *)

Section ShellFacts.

Variable JSON_parse : jsstring -> App.completion WordStats.
Variable JSON_stringify : WordStats -> jsstring.


(** The state that the initialisation effect leaves, field by field. *)
Lemma initialization_fields (envKey : option jsstring)
  (localStorage : App.Storage) (st0 : App.AppData) :
  exists st,
    App.initialization JSON_parse envKey localStorage st0 = App.Normal st /\
    App.isInitialized st = true /\
    (App.apiKey st, App.view st)
    = (if App.truthy envKey then (envKey, App.view st0)
       else if App.truthy (localStorage App.hiragana_dojo_api_key)
            then (localStorage App.hiragana_dojo_api_key, App.view st0)
            else (App.apiKey st0, App.CONFIG)) /\
    App.knownWords st
    = match localStorage App.hiragana_practice_known_words with
      | Some k => k
      | None =>
          if App.truthy (localStorage App.hiragana_practice_words)
          then default [] (localStorage App.hiragana_practice_words)
          else App.knownWords st0
      end /\
    App.learningWordsText st
    = default (App.learningWordsText st0)
        (localStorage App.hiragana_practice_learning_words) /\
    App.loadStats JSON_parse
      (localStorage App.hiragana_practice_reading_stats) (App.readingStats st0)
    = App.Normal (App.readingStats st) /\
    App.loadStats JSON_parse
      (localStorage App.hiragana_practice_writing_stats) (App.writingStats st0)
    = App.Normal (App.writingStats st) /\
    App.loadStats JSON_parse
      (localStorage App.hiragana_practice_visual_stats) (App.visualStats st0)
    = App.Normal (App.visualStats st).
Proof.
  unfold App.initialization.
  destruct (loadStats_completes JSON_parse
              (localStorage App.hiragana_practice_reading_stats)
              (App.readingStats st0)) as (r & Hr & _).
  destruct (loadStats_completes JSON_parse
              (localStorage App.hiragana_practice_writing_stats)
              (App.writingStats st0)) as (w & Hw & _).
  destruct (loadStats_completes JSON_parse
              (localStorage App.hiragana_practice_visual_stats)
              (App.visualStats st0)) as (v & Hv & _).
  rewrite Hr, Hw, Hv.
  destruct (if App.truthy envKey then _ else _) as [apiKey1 view1] eqn:Hkey.
  eexists. split; [reflexivity|]. simpl. rewrite <- Hkey.
  repeat split; done.
Qed.

Lemma handleSave_cases (inputKey : jsstring) :
  ConfigScreen.handleSave inputKey
  = if Js.startsWith ConfigScreen.keyPrefix (Js.trim inputKey)
    then Some (Js.trim inputKey) else None.
Proof.
  unfold ConfigScreen.handleSave.
  destruct (Js.trim inputKey) as [|c t]; [reflexivity|].
  change (negb (0 <? Z.of_nat (length (c :: t)))) with false.
  cbv iota. by destruct (Js.startsWith ConfigScreen.keyPrefix (c :: t)).
Qed.

End ShellFacts.



(** X16. The configuration screen hands over a key exactly when its
    trimmed form starts with [AIza], and hands it over trimmed. The key
    handler then stores the key, makes it the key in use and sets the
    view to the word input; and an initialisation that finds this store
    and no key in the environment takes the key from the store and keeps
    the view on the word input. *)
Theorem accepted_key_is_stored_and_reused
  (JSON_parse : jsstring -> App.completion WordStats)
  (st : App.AppData) (localStorage : App.Storage) (inputKey : jsstring) :
  match ConfigScreen.handleSave inputKey with
  | Some key =>
      key = Js.trim inputKey /\
      Js.startsWith ConfigScreen.keyPrefix key = true /\
      let s := AppFlow.handleSaveApiKey key st localStorage in
      App.apiKey s.1 = Some key /\
      App.view s.1 = App.INPUT_WORDS /\
      s.2 App.hiragana_dojo_api_key = Some key /\
      exists st',
        App.initialization JSON_parse None s.2 App.initialAppData
        = App.Normal st' /\
        App.apiKey st' = Some key /\
        App.view st' = App.INPUT_WORDS
  | None => Js.startsWith ConfigScreen.keyPrefix (Js.trim inputKey) = false
  end.
Proof.
  rewrite handleSave_cases.
  destruct (Js.startsWith ConfigScreen.keyPrefix (Js.trim inputKey)) eqn:Hp;
    [|done].
  set (key := Js.trim inputKey) in *.
  assert (Hkey : App.truthy (Some key) = true).
  { destruct key; [done|reflexivity]. }
  split; [done|]. split; [done|]. cbn zeta.
  split; [done|]. split; [done|].
  assert (Hstored :
    (AppFlow.handleSaveApiKey key st localStorage).2
      App.hiragana_dojo_api_key = Some key) by reflexivity.
  split; [exact Hstored|].
  destruct (initialization_fields JSON_parse None
              (AppFlow.handleSaveApiKey key st localStorage).2
              App.initialAppData) as (st' & Hrun & _ & Hkv & _).
  exists st'. split; [exact Hrun|].
  rewrite Hstored in Hkv. cbn -[App.truthy] in Hkv. rewrite Hkey in Hkv.
  by injection Hkv as -> ->.
Qed.

(** *** More on the prefetch pipeline *)

Section SteadyFacts.

Import PracticeScreen PipelineState.

Lemma steady_initialScreen : Steady initialScreen.
Proof. split; simpl; try done. Qed.

Lemma steady_loadingScreen : Steady loadingScreen.
Proof. split; simpl; try done. Qed.

Lemma steady_first_answer (ok : bool) : Steady (settle 0 ok loadingScreen).
Proof.
  destruct ok; split; simpl; try done.
  intros p [= <-]. lia.
Qed.

(** The rest of [handleNextSentence] after its [await]. *)
Lemma resume_next_steady (s : Screen) (p : nat) :
  mountedRef s = true -> isInitialLoading s = false -> error s = false ->
  suspended s = [] -> bufferPromiseRef s = Some p ->
  (p < length (requests s))%nat ->
  issued s = (1 + length (history s))%nat ->
  statusOf s p <> Some Pending ->
  Steady (resume (AwaitNext p) s).
Proof.
  intros Hm Hl He Hsus Hb Hin Hacc Hp.
  unfold resume. destruct (statusOf s p) as [[| |]|] eqn:Hs; try done.
  - split; simpl; try done.
    + intros q [= <-]. rewrite length_app. simpl. lia.
    + rewrite He. done.
    + intros _. unfold issued, owed in *. simpl.
      rewrite !length_app. simpl. lia.
    + congruence.
  - split; simpl; try done.
    + intros _. unfold issued, owed in *. simpl. rewrite Hl.
      rewrite !length_app. simpl. lia.
    + congruence.
  - exfalso. unfold statusOf in Hs.
    apply lookup_lt_is_Some in Hin as [r Hr]. by rewrite Hr in Hs.
Qed.

Lemma handleNext_steady (s : Screen) :
  Steady s -> mountedRef s = true -> isInitialLoading s = false ->
  suspended s = [] ->
  Steady (handleNextSentence s).
Proof.
  intros Hst Hm Hl Hsus.
  pose proof (requests_accounted s Hst Hm) as Hacc.
  unfold handleNextSentence. simpl.
  destruct (bufferPromiseRef s) as [p|] eqn:Hb; simpl.
  - rewrite Hb. unfold await.
    pose proof (buffer_in_table s Hst p Hb) as Hin.
    unfold owed in Hacc. rewrite Hb in Hacc.
    change (statusOf (setIsTransitioning true (setError false s)) p)
      with (statusOf s p).
    destruct (statusOf s p) as [[| |]|] eqn:Hs.
    + split; simpl; try done.
      * rewrite Hb. by intros q [= <-].
      * intros _. exists p. by rewrite Hsus.
      * intros _. unfold issued, owed in *. simpl. rewrite Hb. lia.
      * congruence.
    + apply resume_next_steady; simpl; try done.
      * unfold issued in *. simpl. lia.
      * change (statusOf (setIsTransitioning true (setError false s)) p)
          with (statusOf s p). by rewrite Hs.
    + apply resume_next_steady; simpl; try done.
      * unfold issued in *. simpl. lia.
      * change (statusOf (setIsTransitioning true (setError false s)) p)
          with (statusOf s p). by rewrite Hs.
    + exfalso. unfold statusOf in Hs.
      apply lookup_lt_is_Some in Hin as [r Hr]. by rewrite Hr in Hs.
  - unfold await, statusOf. simpl.
    rewrite lookup_app_r by lia. rewrite Nat.sub_diag. simpl.
    unfold owed in Hacc. rewrite Hb, Hl in Hacc.
    split; simpl; try done.
    + intros q [= <-]. rewrite length_app. simpl. lia.
    + intros _. eexists. by rewrite Hsus.
    + intros _. unfold issued, owed in *. simpl.
      rewrite length_app. simpl. lia.
    + congruence.
Qed.

Lemma settle_steady (s : Screen) (id : nat) (ok : bool) :
  Sound s -> Parked s -> Steady s -> Steady (settle id ok s).
Proof.
  intros Hs Hp Hst. unfold settle.
  destruct (requests s !! id) as [[from [| |]]|] eqn:Hid; try done.
  pose proof (mounted_of_request s id _ Hs Hid) as Hm.
  pose proof (requests_accounted s Hst Hm) as Hacc.
  set (r := {| site := from; status := if ok then Fulfilled else Rejected |}).
  unfold Parked in Hp.
  destruct (suspended s) as [|[q|p] [|k ks]] eqn:Hsus; try done.
  - cbn -[resume]. rewrite Hsus. cbn -[resume].
    destruct Hst as [H1 H2 H3 H4 H5 H6].
    split; simpl; try done.
    + intros p Hb. rewrite length_insert. by apply H1.
    + intros Ht. destruct (H4 Ht) as [p Hp']. congruence.
    + intros _. unfold issued, owed in *. simpl. by rewrite length_insert.
    + intros _ Hl. specialize (H6 Hm Hl). rewrite H6 in Hsus. done.
  - subst s. destruct id as [|id]; [|done].
    injection Hid as <-. subst r. apply steady_first_answer.
  - destruct Hp as (Hload & Htrans & Herr & Hb & Hpend).
    cbn -[resume]. rewrite Hsus. cbn -[resume].
    pose proof (buffer_in_table s Hst p Hb) as Hin.
    unfold owed in Hacc. rewrite Hb in Hacc.
    destruct (Nat.eqb_spec p id) as [->|Hne]; cbn -[resume].
    + apply resume_next_steady; simpl; try done.
      * by rewrite length_insert.
      * unfold issued in *. simpl. rewrite length_insert. lia.
      * unfold statusOf. simpl.
        rewrite list_lookup_insert_eq by done. simpl. by destruct ok.
    + destruct Hst as [H1 H2 H3 H4 H5 H6].
      split; simpl; try done.
      * intros q Hq. rewrite length_insert. by apply H1.
      * intros _. by exists p.
      * intros _. unfold issued, owed in *. simpl. rewrite length_insert.
        rewrite Hb. lia.
      * congruence.
Qed.

Lemma step_steady (s : Screen) (e : Event) :
  Sound s -> Parked s -> Steady s -> Steady (step s e).
Proof.
  intros Hs Hp Hst.
  assert (Hidle : isInitialLoading s = false ->
                  (isTransitioning s = false \/ error s = true) ->
                  suspended s = [] /\ mountedRef s = true).
  { intros Hload Hflags. split.
    - unfold Parked in Hp.
      destruct (suspended s) as [|[q|p] [|k ks]]; try done.
      + by subst s.
      + destruct Hp as (_ & ? & ? & _). destruct Hflags; congruence.
    - destruct (mountedRef s) eqn:Hm; [done|].
      rewrite (untouched_before_mount s Hs Hm) in Hload. done. }
  destruct e as [| | |id ok]; simpl.
  - unfold mountEffect. destruct (mountedRef s) eqn:Hm; [done|].
    rewrite (untouched_before_mount s Hs Hm).
    change (Steady loadingScreen). apply steady_loadingScreen.
  - destruct (isTransitioning s) eqn:Ht; [done|].
    destruct (isInitialLoading s) eqn:Hl; [done|]. simpl.
    destruct (Hidle eq_refl (or_introl eq_refl)) as [Hsus Hm].
    by apply handleNext_steady.
  - destruct (isInitialLoading s) eqn:Hl; [done|].
    destruct (error s) eqn:He; [|done]. simpl.
    destruct (Hidle eq_refl (or_intror eq_refl)) as [Hsus Hm].
    by apply handleNext_steady.
  - by apply settle_steady.
Qed.

Lemma run_steady (trace : list Event) : Steady (run trace).
Proof.
  unfold run.
  assert (H : forall s, Sound s -> Parked s -> Steady s ->
            Steady (fold_left step trace s)).
  { induction trace as [|e trace IH]; intros s Hs Hp Hst; [done|].
    simpl. destruct (step_sound s e Hs Hp) as [Hs' Hp'].
    apply IH; [done|done|]. by apply step_steady. }
  apply H; [apply sound_initialScreen|exact I|apply steady_initialScreen].
Qed.

Lemma run_parked (trace : list Event) : Parked (run trace).
Proof. apply run_from_sound; [apply sound_initialScreen|exact I]. Qed.

End SteadyFacts.

Import PracticeScreen.

(** X17. In every state a practice screen reaches: the error view is
    shown only with an empty buffer and no transition under way, so a
    retry always issues a request of its own; a screen that is neither
    loading nor transitioning nor in error has a request in its buffer;
    a transition is under way exactly while one call of
    [handleNextSentence] is parked, and it is parked on the request in the
    buffer, which is still pending; and once mounted the requests issued,
    plus 1 when the buffer is empty after the first load (the request owed
    after a failure), are one more than the outcomes so far, sentences put
    on screen and failures alike. *)
Theorem pipeline_flags_follow_the_buffer (trace : list Event) :
  let s := run trace in
  (error s = true ->
   isTransitioning s = false /\ bufferPromiseRef s = None /\
   issued (step s ClickRetry) = (issued s + 1)%nat) /\
  (isInitialLoading s = false -> isTransitioning s = false ->
   error s = false ->
   exists p, bufferPromiseRef s = Some p /\ (p < issued s)%nat) /\
  (isTransitioning s = true <->
   exists p, suspended s = [AwaitNext p] /\ bufferPromiseRef s = Some p /\
             statusOf s p = Some Pending) /\
  (mountedRef s = true ->
   (issued s + PipelineState.owed s = 1 + length (history s))%nat).
Proof.
  intros s. pose proof (run_steady trace) as Hst.
  pose proof (run_parked trace) as Hp. fold s in Hst, Hp.
  split; [|split; [|split]].
  - intros He.
    destruct (PipelineState.error_means_empty s Hst He) as (Hl & Ht & Hb).
    split; [done|]. split; [done|].
    simpl. rewrite Hl, He. simpl.
    unfold handleNextSentence. simpl. rewrite Hb. simpl.
    unfold await, statusOf. simpl.
    rewrite lookup_app_r by lia. rewrite Nat.sub_diag. simpl.
    unfold issued. simpl. rewrite length_app. simpl. lia.
  - intros Hl Ht He.
    destruct (bufferPromiseRef s) as [p|] eqn:Hb.
    + exists p. split; [done|].
      by apply (PipelineState.buffer_in_table s Hst).
    + by destruct (PipelineState.ready_means_buffered s Hst Hl Ht He).
  - split.
    + intros Ht.
      destruct (PipelineState.transition_means_parked s Hst Ht) as [p Hsus].
      exists p. unfold Parked in Hp. rewrite Hsus in Hp. tauto.
    + intros (p & Hsus & _). unfold Parked in Hp. rewrite Hsus in Hp. tauto.
  - apply (PipelineState.requests_accounted s Hst).
Qed.

(** After a failed first load the error view is up with nothing
    buffered. *)
Lemma pipeline_flags_example :
  let s := run [Mount; Settle 0 false] in
  error s = true /\ bufferPromiseRef s = None /\
  issued (step s ClickRetry) = 2%nat.
Proof.
  intros s.
  assert (He : error s = true) by reflexivity.
  destruct (proj1 (pipeline_flags_follow_the_buffer [Mount; Settle 0 false])
              He) as (_ & Hb & Hi).
  split; [exact He|]. split; [exact Hb|exact Hi].
Defined.

Section EnterKeyFacts.

Import WritingFlow WritingState.

Lemma enter_twice (k : nat) :
  step (step (midway k) PressEnter) PressEnter = midway (S k).
Proof.
  unfold midway. cbn. unfold park. cbn.
  by rewrite <- !replicate_cons_app.
Qed.

Lemma enter_rounds (k j : nat) :
  fold_left step (concat (replicate k [PressEnter; PressEnter])) (midway j)
  = midway (j + k).
Proof.
  revert j. induction k as [|k IH]; intros j.
  - by rewrite Nat.add_0_r.
  - cbn [replicate concat app fold_left]. rewrite enter_twice, IH.
    f_equal. lia.
Qed.

Lemma resume_next_fulfilled (s : Screen) (id m : nat) :
  statusOf s id = Some (Fulfilled m) ->
  requests (resume (AwaitNext id) s)
  = requests s ++ [ {| site := Queue; status := Pending |} ]
  /\ counted (resume (AwaitNext id) s) = counted s.
Proof. intros H. cbn. by rewrite H. Qed.

Lemma resume_rounds (k id m : nat) (s : Screen) :
  statusOf s id = Some (Fulfilled m) ->
  let s' := fold_left (fun acc c => resume c acc)
              (replicate k (AwaitNext id)) s in
  requests s'
  = requests s ++ replicate k {| site := Queue; status := Pending |}
  /\ counted s' = counted s.
Proof.
  revert s. induction k as [|k IH]; intros s H.
  - cbn. by rewrite app_nil_r.
  - cbn [replicate fold_left].
    destruct (resume_next_fulfilled s id m H) as [Hr Hc].
    destruct (IH (resume (AwaitNext id) s)) as [Hr' Hc'].
    { unfold statusOf in *. rewrite Hr.
      destruct (requests s !! id) as [r|] eqn:Hl; [|done].
      by rewrite (lookup_app_l_Some _ _ _ _ Hl). }
    cbn zeta. rewrite Hr', Hc', Hr, Hc. split; [|done].
    by rewrite <- app_assoc.
Qed.

End EnterKeyFacts.

Import WritingFlow WritingState.

(** X18. src/unnamed/part_003 (WritingPracticeScreen.tsx), handleKeyDown,
    handleReveal and handleNext: the Enter key is not held back while a
    batch is awaited.  On the last challenge of a batch, with the
    prefetched batch not yet there, [n] rounds of Enter twice count the
    words of that one challenge [n] times, and once the prefetched batch
    arrives each of the [n] waiting calls of handleNext queues a batch of
    its own: [n] requests are then in flight. *)
Theorem enter_key_reenters_the_transition (n m : nat) :
  let s := run (impatient n m) in
  counted s = replicate n (0, 0)%nat /\ prefetchPending s = n.
Proof.
  cbn zeta. unfold run, impatient.
  rewrite !fold_left_app.
  change (fold_left step [Mount; Settle 0 (Some 1%nat)] initialScreen)
    with (midway 0).
  rewrite enter_rounds. cbn [Nat.add fold_left step].
  unfold settle. cbn [midway requests lookup list_lookup suspended].
  cbn [site status].
  assert (Hw : List.filter (awaits 1) (replicate n (AwaitNext 1))
               = replicate n (AwaitNext 1)).
  { induction n as [|k IH]; [done|]. cbn. by rewrite IH. }
  rewrite Hw.
  match goal with
  | |- context [fold_left _ _ ?s0] =>
      destruct (resume_rounds n 1 m s0 eq_refl) as [Hr Hc]
  end.
  cbn zeta in Hr, Hc. split.
  - by rewrite Hc.
  - unfold prefetchPending. rewrite Hr. cbn [requests].
    cbn [list_insert insert app List.filter site status].
    clear. induction n as [|k IH]; [done|]. cbn. by rewrite IH.
Qed.

Section CalmFacts.

Import WritingFlow WritingState.

Lemma onlyAt_weaken (l : list Request) (o : option nat) :
  onlyAt l None -> onlyAt l o.
Proof. intros H i r Hi Hq Hp. by specialize (H i r Hi Hq Hp). Qed.

Lemma onlyAt_push (l : list Request) :
  onlyAt l None ->
  onlyAt (l ++ [ {| site := Queue; status := Pending |} ]) (Some (length l)).
Proof.
  intros H i r Hi Hq Hp.
  destruct (decide (i < length l)%nat) as [Hlt|Hge].
  - rewrite lookup_app_l in Hi by done. by specialize (H i r Hi Hq Hp).
  - apply lookup_lt_Some in Hi as Hlen. rewrite length_app in Hlen.
    cbn in Hlen. f_equal. lia.
Qed.

Lemma onlyAt_insert (l : list Request) (o : option nat) (id : nat)
  (r : Request) :
  status r <> Pending -> onlyAt l o -> onlyAt (<[id := r]> l) o.
Proof.
  intros Hr H i x Hi Hq Hp.
  destruct (decide (i = id)) as [->|Hne].
  - apply lookup_lt_Some in Hi as Hlen. rewrite length_insert in Hlen.
    rewrite list_lookup_insert_eq in Hi by done. congruence.
  - rewrite list_lookup_insert_ne in Hi by done. by apply (H i x).
Qed.

Lemma onlyAt_settled (l : list Request) (p : nat) :
  onlyAt l (Some p) -> status <$> l !! p <> Some Pending -> onlyAt l None.
Proof.
  intros H Hp i r Hi Hq Hs. pose proof (H i r Hi Hq Hs) as [= ->].
  rewrite Hi in Hp. cbn in Hp. congruence.
Qed.

Lemma filter_at_most_one {A} (P : A -> bool) (l : list A) (o : option nat) :
  (forall i x, l !! i = Some x -> P x = true -> o = Some i) ->
  (length (List.filter P l) <= 1)%nat.
Proof.
  revert o. induction l as [|x l IH]; intros o Hall; cbn; [lia|].
  destruct (P x) eqn:Hx; cbn.
  - pose proof (Hall 0%nat x eq_refl Hx) as ->.
    assert (Hnone : List.filter P l = []).
    { clear IH. induction l as [|y l IHl]; [done|]. cbn.
      destruct (P y) eqn:Hy.
      - by pose proof (Hall 1%nat y eq_refl Hy).
      - apply IHl. intros [|i] z Hi Hz; [by apply (Hall 0%nat z)|].
        by pose proof (Hall (S (S i)) z Hi Hz). }
    rewrite Hnone. cbn. lia.
  - apply (IH (pred <$> o)). intros i z Hi Hz.
    by rewrite (Hall (S i) z Hi Hz).
Qed.

Lemma calm_bound (s : Screen) :
  Calm s -> (prefetchPending s <= 1)%nat /\ (length (suspended s) <= 1)%nat.
Proof.
  intros [Hb Hw _]. split.
  - unfold prefetchPending.
    apply (filter_at_most_one _ _ (bufferPromiseRef s)).
    intros i r Hi Hr. apply (Hb i r Hi).
    + by destruct (site r).
    + destruct (site r); [done|]. by destruct (status r).
  - destruct (suspended s) as [|k [|k' rest]]; cbn; try lia.
    by destruct k.
Qed.

Lemma calm_mounted (s : Screen) :
  Calm s -> suspended s <> [] \/ requests s <> [] \/ currentBatch s <> None ->
  mountedRef s = true.
Proof.
  intros [_ _ Hu] H. destruct (mountedRef s); [done|].
  destruct (Hu eq_refl) as (H1 & H2 & H3). by destruct H as [|[|]].
Qed.

Lemma calm_initialScreen : Calm initialScreen.
Proof. by split. Qed.

(** The rest of [init]. *)
Lemma resume_init_calm (s : Screen) (i : nat) :
  suspended s = [] -> mountedRef s = true -> onlyAt (requests s) None ->
  Calm (resume (AwaitInit i) s).
Proof.
  intros Hsus Hm Hidle.
  assert (Hs : Calm s).
  { split; [by apply onlyAt_weaken|by rewrite Hsus|congruence]. }
  cbn [resume]. destruct (statusOf s i) as [[|n|]|]; try done.
  - split; cbn; [by apply onlyAt_push|by rewrite Hsus|congruence].
  - split; cbn; [by apply onlyAt_weaken|by rewrite Hsus|congruence].
Qed.

(** The rest of [handleNext]. *)
Lemma resume_next_calm (s : Screen) (p : nat) :
  suspended s = [] -> mountedRef s = true ->
  bufferPromiseRef s = Some p -> onlyAt (requests s) (Some p) ->
  statusOf s p <> Some Pending ->
  Calm (resume (AwaitNext p) s).
Proof.
  intros Hsus Hm Hb Hreq Hp.
  assert (Hidle : onlyAt (requests s) None) by by eapply onlyAt_settled.
  cbn [resume]. destruct (statusOf s p) as [[|n|]|].
  - done.
  - split; cbn; [by apply onlyAt_push|by rewrite Hsus|congruence].
  - split; cbn; [done|by rewrite Hsus|congruence].
  - split; [by rewrite Hb|by rewrite Hsus|congruence].
Qed.

Lemma await_next_calm (s : Screen) (p : nat) :
  suspended s = [] -> mountedRef s = true -> isTransitioning s = true ->
  bufferPromiseRef s = Some p -> onlyAt (requests s) (Some p) ->
  Calm (await (AwaitNext p) p s).
Proof.
  intros Hsus Hm Ht Hb Hreq. unfold await.
  destruct (statusOf s p) as [st|] eqn:Hst.
  - destruct st.
    + split; cbn; [by rewrite Hb|by rewrite Hsus|congruence].
    + apply resume_next_calm; try done. by rewrite Hst.
    + apply resume_next_calm; try done. by rewrite Hst.
  - apply resume_next_calm; try done. by rewrite Hst.
Qed.

Lemma mount_calm (s : Screen) : Calm s -> Calm (mountEffect s).
Proof.
  intros Hs. unfold mountEffect. destruct (mountedRef s) eqn:Hm; [done|].
  destruct (calm_unmounted s Hs Hm) as (Hsus & Hreq & _).
  rewrite Hreq. unfold await, statusOf. cbn. rewrite Hsus.
  split; cbn; try done.
  - intros [|i] r Hi; cbn in Hi; [|done]. by injection Hi as <-.
  - split; [done|]. intros [|i] r Hi; cbn in Hi; [|done]. by injection Hi as <-.
Qed.

Lemma reveal_calm (s : Screen) : Calm s -> Calm (handleReveal s).
Proof.
  intros Hs. unfold handleReveal.
  destruct (currentBatch s) as [[b c]|] eqn:Hc; [|done].
  destruct Hs as [Hb Hw Hu].
  split; cbn; try done. intros Hm. destruct (Hu Hm) as (_ & _ & ?).
  congruence.
Qed.

Lemma next_calm (s : Screen) :
  Calm s -> challengeShown s = true -> isTransitioning s = false ->
  Calm (handleNext s).
Proof.
  intros Hs Hshown Ht.
  unfold challengeShown in Hshown.
  apply andb_true_iff in Hshown as [Hshown Hbatch].
  apply andb_true_iff in Hshown as [Hload _].
  apply negb_true_iff in Hload.
  destruct (currentBatch s) as [[b c]|] eqn:Hc; [|done].
  assert (Hm : mountedRef s = true).
  { apply calm_mounted; [done|]. right; right. by rewrite Hc. }
  assert (Hsus : suspended s = []).
  { pose proof (calm_waiting s Hs) as Hw.
    destruct (suspended s) as [|[i|p] [|k rest]]; try done.
    - destruct Hw; congruence.
    - destruct Hw; congruence. }
  pose proof (calm_buffer s Hs) as Hb.
  unfold handleNext. rewrite Hc.
  destruct (S (currentIndex s) <? c)%nat.
  - split; cbn; [done|by rewrite Hsus|congruence].
  - cbn [bufferPromiseRef]. destruct (bufferPromiseRef s) as [p|] eqn:Hbuf.
    + cbn [bufferPromiseRef]. by apply await_next_calm.
    + cbn [queueNextBatch bufferPromiseRef requests].
      apply await_next_calm; cbn; try done. by apply onlyAt_push.
Qed.

Lemma settle_calm (s : Screen) (id : nat) (outcome : option nat) :
  Calm s -> Calm (settle id outcome s).
Proof.
  intros Hs. unfold settle.
  destruct (requests s !! id) as [[from st]|] eqn:Hid; [|done].
  destruct st; try done.
  assert (Hm : mountedRef s = true).
  { apply calm_mounted; [done|]. right; left. intros Hnil.
    by rewrite Hnil in Hid. }
  set (r := {| site := from;
               status := match outcome with
                         | Some n => Fulfilled n
                         | None => Rejected
                         end |}).
  assert (Hr : status r <> Pending) by (subst r; by destruct outcome).
  pose proof (calm_buffer s Hs) as Hb.
  pose proof (calm_waiting s Hs) as Hw.
  destruct (suspended s) as [|[i|p] [|k rest]] eqn:Hsus; try done.
  - cbn. split; cbn; [by apply onlyAt_insert|done|congruence].
  - destruct Hw as [Hload Hidle]. cbn [List.filter awaits negb].
    destruct (Nat.eqb i id) eqn:Hi; cbn [negb fold_left].
    + apply resume_init_calm; cbn; try done. by apply onlyAt_insert.
    + split; cbn; [by apply onlyAt_insert| |congruence].
      split; [done|by apply onlyAt_insert].
  - destruct Hw as [Ht Hbuf]. cbn [List.filter awaits negb].
    destruct (Nat.eqb p id) eqn:Hp; cbn [negb fold_left].
    + apply Nat.eqb_eq in Hp as ->.
      apply resume_next_calm; cbn; try done.
      * rewrite <- Hbuf. by apply onlyAt_insert.
      * unfold statusOf. cbn.
        rewrite list_lookup_insert_eq by by eapply lookup_lt_Some.
        intros [= H]. exact (Hr H).
    + split; cbn; [by apply onlyAt_insert|done|congruence].
Qed.

Lemma step_calm (s : Screen) (e : Event) :
  e <> PressEnter -> Calm s -> Calm (step s e).
Proof.
  intros He Hs. destruct e; cbn [step]; try done.
  - by apply mount_calm.
  - destruct (challengeShown s && negb (isRevealed s)); [|done].
    by apply reveal_calm.
  - destruct (challengeShown s && isRevealed s && negb (isTransitioning s))
      eqn:Hg; [|done].
    apply andb_true_iff in Hg as [Hg Ht].
    apply andb_true_iff in Hg as [Hshown _].
    apply negb_true_iff in Ht. by apply next_calm.
  - by apply settle_calm.
Qed.

Lemma run_from_calm (trace : list Event) (s : Screen) :
  PressEnter ∉ trace -> Calm s -> Calm (fold_left step trace s).
Proof.
  revert s. induction trace as [|e trace IH]; intros s Hno Hs; [done|].
  cbn. apply IH.
  - intros Hin. apply Hno. by right.
  - apply step_calm; [|done]. intros ->. apply Hno. by left.
Qed.

End CalmFacts.

Import WritingFlow WritingState.

(** X19. src/unnamed/part_003 (WritingPracticeScreen.tsx), the mount
    effect, handleReveal, handleNext and the two buttons: as long as
    the Enter key is left alone, whatever is clicked and however the
    requests are answered, at most one prefetched batch is in flight
    and at most one call (init or handleNext) waits for an answer. *)
Theorem buttons_keep_one_batch_in_flight (trace : list Event) :
  PressEnter ∉ trace ->
  let s := run trace in
  (prefetchPending s <= 1)%nat /\ (length (suspended s) <= 1)%nat.
Proof.
  intros Hno. cbn zeta. apply calm_bound.
  apply run_from_calm; [done|apply calm_initialScreen].
Qed.

Lemma buttons_example :
  let trace := [Mount; Settle 0%nat (Some 1%nat); ClickCheck; ClickNext;
                ClickCheck; ClickNext] in
  (PressEnter ∉ trace) /\
  prefetchPending (run trace) = 1%nat /\
  suspended (run trace) = [AwaitNext 1] /\
  ((prefetchPending (run trace) <= 1)%nat /\
   (length (suspended (run trace)) <= 1)%nat).
Proof.
  cbn zeta. split; [|split; [|split]].
  - intros H. repeat (apply elem_of_cons in H as [H|H]; [discriminate|]).
    by apply elem_of_nil in H.
  - reflexivity.
  - reflexivity.
  - apply (buttons_keep_one_batch_in_flight
             [Mount; Settle 0%nat (Some 1%nat); ClickCheck; ClickNext;
              ClickCheck; ClickNext]).
    intros H. repeat (apply elem_of_cons in H as [H|H]; [discriminate|]).
    by apply elem_of_nil in H.
Defined.
